(** * Patch-based audio/text localisation: a model of [scripts/AudioCLIP/frames.py]

    The development follows the source file function by function:
    [extract_patches_rect] (integer geometry of the overlapping patches),
    the embedding stage of [get_frame_embeddings] / [save_frame_embeddings],
    [negative_sample], the scoring part of [process_frames] and the
    contrast-stretching map [MAP].

    Python integers are [Z] ([//] and [%] are floor division and its
    remainder, which is what [Z.div] and [Z.modulo] compute).  Tensors are
    lists of rows over a scalar type: the rationals, on which the model
    computes, or the reals, where norms and exponentials live; rounding of
    floating-point numbers is not modelled.  Code that can raise returns an
    [outcome]; the rejection loop of [negative_sample] is given fuel and an
    explicit stream of random indices.  Device transfers, progress bars,
    printing and timing have no effect on the values and are left out. *)

From Stdlib Require Import ZArith List Lia Lra Bool Arith QArith Reals Sorted.
Close Scope R_scope.
Close Scope Q_scope.
Import ListNotations.

(** ** Outcomes of a Python call *)

Inductive exn : Type :=
| ZeroDivisionError
| ValueError
| RuntimeError
| IndexError
| FileNotFoundError.

Inductive outcome (A : Type) : Type :=
| Done (a : A)
| Raise (e : exn)
| OutOfFuel.

Arguments Done {A} a.
Arguments Raise {A} e.
Arguments OutOfFuel {A}.

Definition bind {A B : Type} (c : outcome A) (f : A -> outcome B) : outcome B :=
  match c with
  | Done a => f a
  | Raise e => Raise e
  | OutOfFuel => OutOfFuel
  end.

Declare Scope outcome_scope.
Delimit Scope outcome_scope with outcome.
Notation "x <- c ;; k" := (bind c (fun x => k))
  (at level 61, c at next level, right associativity) : outcome_scope.
Notation "' p <- c ;; k" := (bind c (fun x => let p := x in k))
  (at level 61, p pattern, c at next level, right associativity) : outcome_scope.
Local Open Scope outcome_scope.

(** A list comprehension or a [for] loop whose body can raise: the elements
    are visited left to right and the first exception ends the loop. *)
Fixpoint mapM {A B : Type} (f : A -> outcome B) (l : list A) : outcome (list B) :=
  match l with
  | [] => Done []
  | x :: xs => y <- f x ;; ys <- mapM f xs ;; Done (y :: ys)
  end.

Definition returns {A : Type} (c : outcome A) : Prop := exists a, c = Done a.

(** ** Python integers *)

Local Open Scope Z_scope.

(** [a % b] *)
Definition py_mod (a b : Z) : outcome Z :=
  if b =? 0 then Raise ZeroDivisionError else Done (a mod b).

(** [a // b] *)
Definition py_floordiv (a b : Z) : outcome Z :=
  if b =? 0 then Raise ZeroDivisionError else Done (a / b).

(** [len(range(start, stop, step))] for a non-zero step, as CPython computes
    it when the range object is built. *)
Definition range_length (start stop step : Z) : Z :=
  if 0 <? step then
    if start <? stop then (stop - 1 - start) / step + 1 else 0
  else
    if stop <? start then (start - 1 - stop) / (- step) + 1 else 0.

(** The elements of [range(start, stop, step)]: [start + i * step] for
    [i] below the length. *)
Definition range_elems (start stop step : Z) : list Z :=
  map (fun i => start + Z.of_nat i * step)
      (seq 0 (Z.to_nat (range_length start stop step))).

(** [range(start, stop, step)]; a zero step is a [ValueError]. *)
Definition py_range (start stop step : Z) : outcome (list Z) :=
  if step =? 0 then Raise ValueError
  else Done (range_elems start stop step).

(** ** PIL images *)

(** An image is its size and its pixels; a pixel is abstracted to a number. *)
Record image : Type := mkImage {
  im_width : Z;
  im_height : Z;
  im_pixel : Z -> Z -> Z
}.

(** [image.size] *)
Definition size (im : image) : Z * Z := (im_width im, im_height im).

(** [Image.new(mode, (width, height), 0)] refuses a negative size. *)
Definition Image_new (width height : Z) : outcome image :=
  if (width <? 0) || (height <? 0) then Raise ValueError
  else Done (mkImage width height (fun _ _ => 0)).

(** [out.paste(im, (left, top))] *)
Definition paste (out im : image) (x0 y0 : Z) : image :=
  mkImage (im_width out) (im_height out)
    (fun x y =>
       if (x0 <=? x) && (x <? x0 + im_width im) &&
          (y0 <=? y) && (y <? y0 + im_height im)
       then im_pixel im (x - x0) (y - y0)
       else im_pixel out x y).

(** [ImageOps.expand(image, (left, top, right, bottom))] *)
Definition ImageOps_expand (im : image) (border : Z * Z * Z * Z) : outcome image :=
  let '(b_left, b_top, b_right, b_bottom) := border in
  let width := b_left + im_width im + b_right in
  let height := b_top + im_height im + b_bottom in
  out <- Image_new width height ;;
  Done (paste out im b_left b_top).

(** [image.crop((left, upper, right, lower))]: the result has the size of the
    box, pixels outside the image are 0; an inverted box is a [ValueError]. *)
Definition crop (im : image) (box : Z * Z * Z * Z) : outcome image :=
  let '(b_left, b_upper, b_right, b_lower) := box in
  if b_right <? b_left then Raise ValueError
  else if b_lower <? b_upper then Raise ValueError
  else Done (mkImage (b_right - b_left) (b_lower - b_upper)
               (fun x y =>
                  let x' := x + b_left in
                  let y' := y + b_upper in
                  if (0 <=? x') && (x' <? im_width im) &&
                     (0 <=? y') && (y' <? im_height im)
                  then im_pixel im x' y' else 0)).

(** [torch.stack(tensors, dim=0)] needs at least one tensor. *)
Definition torch_stack {A : Type} (tensors : list A) : outcome (list A) :=
  match tensors with
  | [] => Raise RuntimeError
  | _ => Done tensors
  end.

(** ** [FrameArgs] *)

Module FrameArgs.
Definition patch_size : Z := 128.
Definition downscale : Z := 32.
End FrameArgs.

(** ** [extract_patches_rect] *)

(** The border handed to [ImageOps.expand]. *)
Definition padding_border (padding_x padding_y : Z) : Z * Z * Z * Z :=
  (padding_x / 2, padding_y / 2,
   padding_x - padding_x / 2, padding_y - padding_y / 2).

(** The padded image of [extract_patches_rect], lines 47 to 57. *)
Definition pad_image (im : image) (patch_size : Z) : outcome image :=
  let '(width, height) := size im in
  wm <- py_mod width patch_size ;;
  padding_x <- py_mod (patch_size - wm) patch_size ;;
  hm <- py_mod height patch_size ;;
  padding_y <- py_mod (patch_size - hm) patch_size ;;
  ImageOps_expand im (padding_border padding_x padding_y).

(** The two nested [for] loops, lines 63 to 68.  [ToTensor] keeps the height
    and the width of the crop, so a patch is kept as the cropped image. *)
Definition crop_patches (padded_image : image) (patch_size stride_x stride_y : Z)
  : outcome (list image) :=
  let '(padded_width, padded_height) := size padded_image in
  ys <- py_range 0 (padded_height - patch_size + 1) stride_y ;;
  rows <- mapM (fun y =>
            xs <- py_range 0 (padded_width - patch_size + 1) stride_x ;;
            mapM (fun x => crop padded_image (x, y, x + patch_size, y + patch_size)) xs)
          ys ;;
  Done (concat rows).

Definition extract_patches_rect (im : image)
  (patch_size patches_per_row patches_per_column : Z)
  : outcome (list image * Z * Z * Z * Z) :=
  padded_image <- pad_image im patch_size ;;
  let '(padded_width, padded_height) := size padded_image in
  stride_x <- py_floordiv (padded_width - patch_size) (patches_per_row - 1) ;;
  stride_y <- py_floordiv (padded_height - patch_size) (patches_per_column - 1) ;;
  patches <- crop_patches padded_image patch_size stride_x stride_y ;;
  patches <- torch_stack patches ;;
  Done (patches, stride_x, stride_y, padded_width, padded_height).

(** The grid size computed after the call in [get_frame_embeddings] and
    [save_frame_embeddings]: [(padded - patch_size) // stride + 1]. *)
Definition grid_dim (padded patch_size stride : Z) : outcome Z :=
  q <- py_floordiv (padded - patch_size) stride ;; Done (q + 1).

(** A test image: a [w] by [h] gradient. *)
Definition gradient (w h : Z) : image := mkImage w h (fun x y => x + y).

(** The call made by [get_frame_embeddings] and [save_frame_embeddings]:
    [extract_patches_rect(image, patch_size, w // downscale, h // downscale)]. *)
Definition frame_patches (im : image) : outcome (list image * Z * Z * Z * Z) :=
  let '(w, h) := size im in
  ppr <- py_floordiv w FrameArgs.downscale ;;
  ppc <- py_floordiv h FrameArgs.downscale ;;
  extract_patches_rect im FrameArgs.patch_size ppr ppc.

(** [dim + padding] with the padding of lines 47 and 48. *)
Definition padded_dim (dim patch_size : Z) : Z :=
  dim + (patch_size - dim mod patch_size) mod patch_size.

(** [m] is the least multiple of [patch_size] that is not smaller than [dim]. *)
Definition least_multiple_geq (patch_size dim m : Z) : Prop :=
  (patch_size | m) /\ dim <= m /\
  forall m', (patch_size | m') -> dim <= m' -> m <= m'.

(** The two sides of a padding differ by at most one pixel and add up to it. *)
Definition even_split (before after total : Z) : Prop :=
  before + after = total /\ 0 <= before <= after /\ after <= before + 1.

(** ** Reshaping a two-dimensional tensor *)

(** [n] consecutive rows of [c] elements. *)
Fixpoint chunks {A : Type} (n c : nat) (l : list A) : list (list A) :=
  match n with
  | O => []
  | S n' => firstn c l :: chunks n' c (skipn c l)
  end.

(** The shape that [reshape] gives to [numel] elements when asked for
    [(rows, cols)]; one dimension may be [-1], which is then inferred. *)
Definition infer_shape (numel rows cols : Z) : outcome (Z * Z) :=
  if (rows =? -1) && (cols =? -1) then Raise RuntimeError
  else if rows =? -1 then
    if (0 <? cols) && (numel mod cols =? 0) then Done (numel / cols, cols)
    else Raise RuntimeError
  else if cols =? -1 then
    if (0 <? rows) && (numel mod rows =? 0) then Done (rows, numel / rows)
    else Raise RuntimeError
  else if (rows <? 0) || (cols <? 0) then Raise RuntimeError
  else if rows * cols =? numel then Done (rows, cols)
  else Raise RuntimeError.

(** [tensor.reshape(rows, cols)] for a two-dimensional tensor: the elements
    are kept in row-major order; an element count that does not fit is a
    [RuntimeError]. *)
Definition reshape {A : Type} (t : list (list A)) (rows cols : Z)
  : outcome (list (list A)) :=
  let flat := concat t in
  '(r, c) <- infer_shape (Z.of_nat (length flat)) rows cols ;;
  Done (chunks (Z.to_nat r) (Z.to_nat c) flat).

(** ** Scalars and tensors *)

(** The element type of a tensor: the arithmetic and the comparison that the
    scoring code uses.  The rationals give an instance that computes, the
    reals one with square roots and exponentials. *)
Class Scalar (T : Type) : Type := {
  szero : T;
  sadd : T -> T -> T;
  ssub : T -> T -> T;
  smul : T -> T -> T;
  sdiv : T -> T -> T;
  of_Z : Z -> T;
  sge : T -> T -> bool;   (* [x >= y] *)
  slt : T -> T -> Prop    (* [x < y] *)
}.

#[export] Instance Scalar_Q : Scalar Q := {
  szero := 0%Q;
  sadd := Qplus;
  ssub := Qminus;
  smul := Qmult;
  sdiv := Qdiv;
  of_Z := inject_Z;
  sge := fun x y => Qle_bool y x;
  slt := Qlt
}.

#[export] Instance Scalar_R : Scalar R := {
  szero := 0%R;
  sadd := Rplus;
  ssub := Rminus;
  smul := Rmult;
  sdiv := Rdiv;
  of_Z := IZR;
  sge := fun x y => if Rle_dec y x then true else false;
  slt := Rlt
}.

(** The comparison of an instance decides its order. *)
Definition OrderedScalar (T : Type) `{Scalar T} : Prop :=
  forall x y : T, sge x y = false <-> slt x y.

(** [x[idx]] on a list *)
Definition getitem {A : Type} (l : list A) (idx : nat) : outcome A :=
  match nth_error l idx with
  | Some a => Done a
  | None => Raise IndexError
  end.

Section Tensors.
Context {T : Type} `{Scalar T}.

Definition vec : Type := list T.
Definition matrix : Type := list (list T).

(** A decimal literal [n / 10^digits]. *)
Definition decimal (n : Z) (digits : nat) : T :=
  sdiv (of_Z n) (of_Z (10 ^ Z.of_nat digits)).

Definition SCALE_AUDIO_IMAGE : T := decimal 681320 4.
Definition SCALE_IMAGE_TEXT : T := decimal 819903 4.

Definition sum (v : vec) : T := fold_right sadd szero v.

(** The inner product computed by [@]. *)
Definition dot (a b : vec) : T :=
  sum (map (fun p => smul (fst p) (snd p)) (combine a b)).

(** [torch.mean] of a vector. *)
Definition mean (v : vec) : T := sdiv (sum v) (of_Z (Z.of_nat (length v))).

(** [m.T]: entry [(j, i)] of the result is entry [(i, j)] of [m]. *)
Definition transpose (m : matrix) : matrix :=
  map (fun j => map (fun row => nth j row szero) m)
      (seq 0 (length (hd [] m))).

(** [a @ b] for two matrices: rows of [a] against columns of [b]. *)
Definition matmul (a b : matrix) : matrix :=
  map (fun row => map (dot row) (transpose b)) a.

(** [v @ b] for a vector and a matrix. *)
Definition vecmat (v : vec) (b : matrix) : vec := map (dot v) (transpose b).

(** [c * m] *)
Definition scale (c : T) (m : matrix) : matrix := map (map (smul c)) m.

(** [c * v] *)
Definition scale_vec (c : T) (v : vec) : vec := map (smul c) v.

(** [torch.mean(m, dim=-1)] *)
Definition mean_rows (m : matrix) : vec := map mean m.

(** [v.unsqueeze(-1)] *)
Definition unsqueeze (v : vec) : matrix := map (fun x => [x]) v.

(** [torch.mean(m, dim=-1, keepdim=True)] *)
Definition mean_keepdim (m : matrix) : matrix := unsqueeze (mean_rows m).

(** [a op col] where [col] has one column, which broadcasting repeats
    along every row of [a]. *)
Definition broadcast_col (op : T -> T -> T) (a col : matrix) : matrix :=
  map (fun p => map (fun x => op x (hd szero (snd p))) (fst p))
      (combine a col).

(** [m / c] *)
Definition div_scalar (m : matrix) (c : T) : matrix :=
  map (map (fun x => sdiv x c)) m.

(** [bool(tensor)]: only a tensor of one element has a truth value. *)
Definition tensor_bool (t : list bool) : outcome bool :=
  match t with
  | [b] => Done b
  | _ => Raise RuntimeError
  end.

(** The first term of the score of the patch with feature [e] against the
    query [q]: the scaled similarity to the query or, under supervision,
    its average with the mean scaled similarity to the supervision
    features. *)
Definition query_term (q : vec) (supervision_feature : option matrix)
  (e : vec) : T :=
  match supervision_feature with
  | None => smul SCALE_AUDIO_IMAGE (dot e q)
  | Some s =>
    sdiv (sadd (smul SCALE_AUDIO_IMAGE (dot e q))
               (mean (map (dot (scale_vec SCALE_IMAGE_TEXT e)) s)))
         (of_Z 2)
  end.

(** *** [torch.quantile] *)

Fixpoint insert_sorted (x : T) (l : vec) : vec :=
  match l with
  | [] => [x]
  | y :: l' => if sge y x then x :: l else y :: insert_sorted x l'
  end.

(** Ascending sort. *)
Definition sort (l : vec) : vec := fold_right insert_sorted [] l.

(** [torch.lerp(a, b, w)] *)
Definition lerp (a b w : T) : T := sadd a (smul w (ssub b a)).

(** [torch.quantile(input, q)] for [q = num / den] with the default linear
    interpolation: the input is flattened and sorted, the rank
    [q * (n - 1)] is split into its floor and its fractional part. *)
Definition quantile (input : matrix) (num den : Z) : outcome T :=
  let flat := concat input in
  match flat with
  | [] => Raise RuntimeError
  | _ =>
    let sorted := sort flat in
    let rank := num * (Z.of_nat (length flat) - 1) in
    let below := rank / den in
    let above := if rank mod den =? 0 then below else below + 1 in
    let weight := sdiv (of_Z (rank mod den)) (of_Z den) in
    Done (lerp (nth (Z.to_nat below) sorted szero)
               (nth (Z.to_nat above) sorted szero) weight)
  end.

(** *** [negative_sample] *)

Section Sampling.
(** The results of the successive calls of [np.random.randint]: call
    number [t] on a range of [n] indices returns [rnd t mod n]. *)
Variable rnd : nat -> nat.

(** [np.random.randint(n)] *)
Definition randint (t n : nat) : outcome nat :=
  match n with
  | O => Raise ValueError
  | _ => Done (rnd t mod n)%nat
  end.

(** The [while True] loop of lines 261 to 270, which draws until a row
    is accepted; [t] counts the draws made so far.  It returns the
    accepted row and the new count. *)
Fixpoint sample_loop (fuel t : nat) (source_feature embedding : matrix)
  (threshold : T) : outcome (vec * nat) :=
  match fuel with
  | O => OutOfFuel
  | S fuel' =>
    idx <- randint t (length embedding) ;;
    negative <- getitem embedding idx ;;
    reject <- tensor_bool
                (map (fun d => sge d threshold)
                     (vecmat negative (transpose source_feature))) ;;
    if reject then
      sample_loop fuel' (S t) source_feature embedding threshold
    else Done (negative, S t)
  end.

(** The [for _ in range(k)] loop; every [while] loop gets [fuel]
    iterations. *)
Fixpoint negatives_loop (k fuel t : nat) (source_feature embedding : matrix)
  (threshold : T) (negatives : matrix) : outcome (matrix * nat) :=
  match k with
  | O => Done (negatives, t)
  | S k' =>
    '(negative, t') <- sample_loop fuel t source_feature embedding threshold ;;
    negatives_loop k' fuel t' source_feature embedding threshold
      (negatives ++ [negative])
  end.

Definition negative_sample (fuel t : nat) (source_feature embedding : matrix)
  (k : nat) (threshold : T) : outcome (matrix * nat) :=
  '(negatives, t') <- negatives_loop k fuel t source_feature embedding
                        threshold [] ;;
  stacked <- torch_stack negatives ;;
  Done (stacked, t').

(** *** The scoring part of [process_frames], lines 305 to 331 *)

Definition frame_similarity (fuel t : nat) (embedding source_feature : matrix)
  (supervision_feature : option matrix) (lambda_ : T)
  : outcome (matrix * nat) :=
  let unscaled_similarity := matmul embedding (transpose source_feature) in
  let similarity := scale SCALE_AUDIO_IMAGE unscaled_similarity in
  let similarity :=
    match supervision_feature with
    | Some supervision_feature =>
      let supervision_similarity :=
        mean_keepdim (matmul (scale SCALE_IMAGE_TEXT embedding)
                             (transpose supervision_feature)) in
      div_scalar (broadcast_col sadd similarity supervision_similarity)
                 (of_Z 2)
    | None => similarity
    end in
  threshold <- quantile unscaled_similarity 7 10 ;;
  '(negatives, t') <- negative_sample fuel t source_feature embedding 40
                        threshold ;;
  let penalty :=
    scale_vec SCALE_AUDIO_IMAGE
      (mean_rows (matmul embedding (transpose negatives))) in
  Done (broadcast_col ssub similarity (scale lambda_ (unsqueeze penalty)), t').

(** Whether the row drawn by [np.random.randint] returning [idx] passes
    the test of line 266 against the single query [q]. *)
Definition accepts (q : vec) (embedding : matrix) (threshold : T)
  (idx : nat) : bool :=
  match nth_error embedding (idx mod length embedding) with
  | Some negative => negb (sge (dot negative q) threshold)
  | None => false
  end.

(** The number of accepted draws among the [n] draws from [t] on. *)
Definition accepted_draws (q : vec) (embedding : matrix) (threshold : T)
  (t n : nat) : nat :=
  length (filter (fun s => accepts q embedding threshold (rnd s)) (seq t n)).

End Sampling.
End Tensors.

(** [m] has [rows] rows of [cols] entries. *)
Definition has_shape {A : Type} (m : list (list A)) (rows cols : nat) : Prop :=
  length m = rows /\ Forall (fun row => length row = cols) m.

Arguments vec T : clear implicits.
Arguments matrix T : clear implicits.

(** A frame with two orthogonal unit features, queried with the first. *)
Definition two_patches : matrix Q := [[1; 0]; [0; 1]]%Q.
Definition first_axis : matrix Q := [[1; 0]]%Q.

(** Two streams of indices: one that always draws patch 0, one that always
    draws patch 1. *)
Definition always_first : nat -> nat := fun _ => 0%nat.
Definition always_second : nat -> nat := fun _ => 1%nat.

(** ** Features and heat maps over the reals *)

Local Open Scope R_scope.

(** [torch.linalg.norm(v)]: the L2 norm. *)
Definition norm (v : vec R) : R := sqrt (dot v v).

(** [m / torch.linalg.norm(m, dim=-1, keepdim=True)]: every row is divided
    by its own norm.  A zero row, which torch turns into NaN, is kept out of
    the statements about norms by their hypotheses. *)
Definition normalize_rows (m : matrix R) : matrix R :=
  broadcast_col Rdiv m (unsqueeze (map norm m)).

(** Every row has L2 norm 1. *)
Definition unit_rows (m : matrix R) : Prop :=
  Forall (fun row => norm row = 1) m.

(** [torch.cat(tensors, dim=0)] needs at least one tensor. *)
Definition torch_cat {A : Type} (tensors : list (list A)) : outcome (list A) :=
  match tensors with
  | [] => Raise RuntimeError
  | _ => Done (concat tensors)
  end.

(** [l[i : i + n]] *)
Definition slice {A : Type} (l : list A) (i n : nat) : list A :=
  firstn n (skipn i l).

Section Embedding.
(** The composed [Resize], [CenterCrop] and [Normalize], applied to one
    patch at a time. *)
Variable image_transforms : image -> image.

(** The image tower of the model, taken as a function of one image: a
    batch is encoded image by image. *)
Variable encode_image : image -> vec R.

Definition model_image (batch : list image) : matrix R :=
  map encode_image batch.

(** The normalised feature of one patch taken alone. *)
Definition patch_feature (p : image) : vec R :=
  let raw := encode_image (image_transforms p) in
  map (fun x => x / norm raw) raw.

(** Lines 132 to 143 of [get_frame_embeddings], the same as lines 223 to
    236 of [save_frame_embeddings]: the patches are transformed, sent
    through the model eight at a time, and the features are normalised. *)
Definition embed_patches (patches : list image) : outcome (matrix R) :=
  all_patches <- torch_stack (map image_transforms patches) ;;
  starts <- py_range 0 (Z.of_nat (length all_patches)) 8 ;;
  let image_features :=
    map (fun i => model_image (slice all_patches (Z.to_nat i) 8)) starts in
  image_features <- torch_cat image_features ;;
  Done (normalize_rows image_features).

(** [get_frame_embeddings] on the decoded frames [images]. *)
Definition get_frame_embeddings (images : list image)
  : outcome (matrix R * Z * Z * list image) :=
  image0 <- getitem images 0 ;;
  '(patches, stride_x, stride_y, padded_w, padded_h) <- frame_patches image0 ;;
  image_features <- embed_patches patches ;;
  new_w <- grid_dim padded_w FrameArgs.patch_size stride_x ;;
  new_h <- grid_dim padded_h FrameArgs.patch_size stride_y ;;
  Done (image_features, new_w, new_h, images).

(** The scratch directory: the feature tensor saved for each frame
    number, if any. *)
Definition directory : Type := nat -> option (matrix R).

Definition empty_directory : directory := fun _ => None.

(** [torch.save(features, tmp_dir/frame_x.pt)] *)
Definition torch_save (dir : directory) (x : nat) (features : matrix R)
  : directory :=
  fun y => if Nat.eqb y x then Some features else dir y.

(** [torch.load(tmp_dir/frame_x.pt)] *)
Definition torch_load (dir : directory) (x : nat) : outcome (matrix R) :=
  match dir x with
  | Some features => Done features
  | None => Raise FileNotFoundError
  end.

(** The loop of lines 206 to 239 over the frame numbers [xs]; the grid of
    the last frame stays in [stride_x], ..., [padded_h]. *)
Fixpoint save_loop (xs : list nat) (images : list image) (ppr ppc : Z)
  (dir : directory) (grid : Z * Z * Z * Z) : outcome (directory * (Z * Z * Z * Z)) :=
  match xs with
  | [] => Done (dir, grid)
  | x :: xs' =>
    image <- getitem images x ;;
    '(patches, stride_x, stride_y, padded_w, padded_h) <-
      extract_patches_rect image FrameArgs.patch_size ppr ppc ;;
    image_features <- embed_patches patches ;;
    save_loop xs' images ppr ppc (torch_save dir x image_features)
      (stride_x, stride_y, padded_w, padded_h)
  end.

(** [save_frame_embeddings] on the resized frames [images]; [dir] is the
    content of the scratch directory before the call.  Without [skip] the
    directory is removed and created again (the question asked before is
    taken to be answered with yes), then filled frame by frame. *)
Definition save_frame_embeddings (images : list image) (num_frames : nat)
  (skip : bool) (dir : directory) : outcome (directory * Z * Z * list image) :=
  image0 <- getitem images 0 ;;
  let '(w, h) := size image0 in
  ppr <- py_floordiv w FrameArgs.downscale ;;
  ppc <- py_floordiv h FrameArgs.downscale ;;
  '(patches, stride_x, stride_y, padded_w, padded_h) <-
    extract_patches_rect image0 FrameArgs.patch_size ppr ppc ;;
  '(dir', (stride_x, stride_y, padded_w, padded_h)) <-
    (if skip then Done (dir, (stride_x, stride_y, padded_w, padded_h))
     else save_loop (seq 0 num_frames) images ppr ppc empty_directory
            (stride_x, stride_y, padded_w, padded_h)) ;;
  new_w <- grid_dim padded_w FrameArgs.patch_size stride_x ;;
  new_h <- grid_dim padded_h FrameArgs.patch_size stride_y ;;
  Done (dir', new_w, new_h, images).
End Embedding.

(** *** [MAP] *)

(** A quotient whose divisor is zero is not a real number (torch gives NaN
    or an infinity); such an entry is [None]. *)
Definition fdiv (x y : R) : option R :=
  if Req_dec_T y 0 then None else Some (x / y).

(** [similarity.std()]: the standard deviation of all the elements, with
    Bessel's correction. *)
Definition tensor_std (t : matrix R) : option R :=
  let flat := concat t in
  let mu := mean flat in
  match flat with [] => None | _ =>
  match fdiv (sum (map (fun x => (x - mu) * (x - mu)) flat))
             (INR (length flat) - 1) with
  | Some variance => Some (sqrt variance)
  | None => None
  end end.

(** [similarity[:, 0]] *)
Definition column0 {A : Type} (m : list (list A)) : outcome (list A) :=
  mapM (fun row => getitem row 0) m.

(** [torch.topk(v, k).values]: the [k] largest elements. *)
Definition topk (v : vec R) (k : nat) : outcome (vec R) :=
  if Nat.ltb (length v) k then Raise RuntimeError
  else Done (firstn k (rev (sort v))).

(** [v.min()] *)
Definition tensor_min (v : vec R) : outcome R :=
  match v with
  | [] => Raise RuntimeError
  | x :: xs => Done (fold_right Rmin x xs)
  end.

(** [int(n * 0.05)] for a length [n] is [n / 20]. *)
Definition top5_count (n : nat) : nat := (n / 20)%nat.

(** One entry of [MAP]: [100 / (1 + exp(-(s - top25) / (std / 12)))]. *)
Definition MAP_entry (std : option R) (top25 s : R) : option R :=
  match std with
  | Some std =>
    match fdiv (- (s - top25)) (std / 12) with
    | Some x => Some (100 / (1 + exp x))
    | None => None
    end
  | None => None
  end.

(** [MAP(similarity)], lines 20 to 30: a sigmoid centred on the smallest of
    the top 5% of column 0, with a slope set by the standard deviation. *)
Definition MAP (similarity : matrix R) : outcome (list (list (option R))) :=
  let std := tensor_std similarity in
  col <- column0 similarity ;;
  top <- topk col (top5_count (length similarity)) ;;
  top25 <- tensor_min top ;;
  Done (map (map (MAP_entry std top25)) similarity).

(** *** [process_frames] *)

Section ProcessFrames.
Variable rnd : nat -> nat.

(** The body of the loop over the frames: lines 301 to 338. *)
Definition process_frame (fuel t : nat) (dir : directory) (x : nat)
  (source_feature : matrix R) (new_w new_h : Z)
  (supervision_feature : option (matrix R)) (lambda_ : R)
  : outcome (list (list (option R)) * nat) :=
  embedding <- torch_load dir x ;;
  '(similarity, t') <- frame_similarity rnd fuel t embedding source_feature
                         supervision_feature lambda_ ;;
  similarity <- MAP similarity ;;
  similarity <- reshape similarity new_h new_w ;;
  Done (similarity, t').

Fixpoint process_loop (xs : list nat) (fuel t : nat) (dir : directory)
  (source_feature : matrix R) (new_w new_h : Z)
  (supervision_feature : option (matrix R)) (lambda_ : R)
  (movie : list (list (list (option R))))
  : outcome (list (list (list (option R)))) :=
  match xs with
  | [] => Done movie
  | x :: xs' =>
    '(similarity, t') <- process_frame fuel t dir x source_feature new_w new_h
                           supervision_feature lambda_ ;;
    process_loop xs' fuel t' dir source_feature new_w new_h
      supervision_feature lambda_ (movie ++ [similarity])
  end.

Definition process_frames (fuel : nat) (dir : directory)
  (source_feature : matrix R) (new_w new_h : Z) (images : list image)
  (num_frames : nat) (supervision_feature : option (matrix R)) (lambda_ : R)
  : outcome (list (list (list (option R)))) :=
  process_loop (seq 0 (Nat.min (length images) num_frames)) fuel 0 dir
    source_feature new_w new_h supervision_feature lambda_ [].
End ProcessFrames.

Local Close Scope R_scope.

(** ** Test data *)

(** A 3 by 3 frame cut into 2 by 2 patches, two per row and per column. *)
Definition small_frame : image := gradient 3 3.

Definition small_frame_patches : list image :=
  Eval vm_compute in
    match extract_patches_rect small_frame 2 2 2 with
    | Done (patches, _, _, _, _) => patches
    | _ => []
    end.

(** A 129 by 129 frame under the default [FrameArgs]. *)
Definition frame_129 : image := gradient 129 129.

Definition frame_129_patches : list image :=
  Eval vm_compute in
    match frame_patches frame_129 with
    | Done (patches, _, _, _, _) => patches
    | _ => []
    end.

(** The scores of [two_patches] against [first_axis] with
    [lambda_ = 0.2], when every draw returns patch 1. *)
Definition two_patches_scores : matrix Q :=
  Eval vm_compute in
    match frame_similarity always_second 1 0 two_patches first_axis None
            (decimal 2 1) with
    | Done (similarity, _) => similarity
    | _ => []
    end.

(** A frame whose two patches have the same feature. *)
Definition twin_patches : matrix Q := [[1; 0]; [1; 0]]%Q.

(** A stand-in for the image tower: the feature of an image is read off
    its size; the transforms are the identity. *)
Definition size_encoder (p : image) : vec R :=
  [IZR (im_width p); 1%R].

Definition no_transform (p : image) : image := p.

(** ** Grid cells *)

(** The grid cell with column [i] and row [j] is patch number
    [j * new_w + i] in the order in which the nested loops of
    [extract_patches_rect] append the patches. *)
Definition cell_index (new_w : Z) (i j : nat) : nat :=
  (j * Z.to_nat new_w + i)%nat.

(** The pixel [(x, y)] lies in the patch of the grid cell [(i, j)]. *)
Definition in_cell (patch_size stride_x stride_y : Z) (i j : nat) (x y : Z)
  : Prop :=
  Z.of_nat i * stride_x <= x < Z.of_nat i * stride_x + patch_size /\
  Z.of_nat j * stride_y <= y < Z.of_nat j * stride_y + patch_size.

(** ** Draws of the sampler *)

(** The row that [np.random.randint] picks at draw number [s]. *)
Definition drawn_row {T : Type} (rnd : nat -> nat) (embedding : list (list T))
  (s : nat) : list T :=
  nth (rnd s mod length embedding) embedding [].

(** The draws among the [n] draws from [t] on that pass the test of
    line 266. *)
Definition accepted_positions {T : Type} `{Scalar T} (rnd : nat -> nat)
  (q : vec T) (embedding : matrix T) (threshold : T) (t n : nat) : list nat :=
  filter (fun s => accepts q embedding threshold (rnd s)) (seq t n).

(** A source feature with two rows. *)
Definition two_queries : matrix Q := [[1; 0]; [0; 1]]%Q.

(** Twenty similarities: nineteen zeros and a one. *)
Definition flat_with_peak : matrix R := repeat [0%R] 19 ++ [[1%R]].

(** Two similarities. *)
Definition two_scores : matrix R := [[1%R]; [2%R]].

(** Two unit features over the reals, the second along the query
    [(1, 0)], and a frame of twenty: one across the query, nineteen along
    it. *)
Definition across : vec R := [0%R; 1%R].
Definition along : vec R := [1%R; 0%R].
Definition pair_frame : matrix R := [across; along].
Definition ramp_frame : matrix R := across :: repeat along 19.

(** A scratch directory that holds [ramp_frame] for every frame. *)
Definition ramp_directory : directory := fun _ => Some ramp_frame.

(** ** integrate.py *)

(** [l[i]] for any integer [i]: a negative index counts from the end, an
    index outside the list is an [IndexError]. *)
Definition py_getitem {A : Type} (l : list A) (i : Z) : outcome A :=
  let n := Z.of_nat (length l) in
  let j := if i <? 0 then i + n else i in
  if (j <? 0) || (n <=? j) then Raise IndexError
  else getitem l (Z.to_nat j).

Section Overlay.
(** The heat maps and the output frames are what matplotlib and PIL make of
    them; [overlay image heat] is the figure of lines 80 to 86: the image
    under the heat map, drawn to an RGB image. *)
Variables heat frame : Type.
Variable overlay : image -> heat -> frame.

(** The body of the loop of [save_movie_overlay] for the frame number [i]. *)
Definition overlay_frame (heatmap : list heat) (images : list image)
  (sample_factor i : Z) : outcome frame :=
  image <- py_getitem images i ;;
  q <- py_floordiv i sample_factor ;;
  h <- py_getitem heatmap (sample_factor * q) ;;
  Done (overlay image h).

(** [save_movie_overlay(heatmap, images, num_frames, sample_factor)]: the
    output frames are appended in the order of the frame numbers, and the
    first exception ends the loop. *)
Definition save_movie_overlay (heatmap : list heat) (images : list image)
  (num_frames sample_factor : Z) : outcome (list frame) :=
  frames <- py_range 0 (Z.min (Z.of_nat (length images)) num_frames) 1 ;;
  mapM (overlay_frame heatmap images sample_factor) frames.
End Overlay.

(** [torch.clamp(x, min=lo, max=hi)] *)
Definition clamp (x lo hi : R) : R := Rmin (Rmax x lo) hi.

Section Main.
Variable image_transforms : image -> image.
Variable encode_image : image -> vec R.
(** What [get_audio_embeddings(Args.model)] returns, and the two learnt
    parameters [logit_scale_ai] and [logit_scale] of the model. *)
Variable audio_embeddings : matrix R.
Variables logit_scale_ai logit_scale : R.

(** [main(text_features)] on the decoded frames [images]. *)
Definition main (images : list image) (text_features : option (matrix R))
  : outcome (matrix R * Z * Z * list image) :=
  '(image_features, new_w, new_h, images) <-
    get_frame_embeddings image_transforms encode_image images ;;
  let audio_features :=
    match text_features with
    | None => audio_embeddings
    | Some text_features => text_features
    end in
  let scale_audio_image := clamp (exp logit_scale_ai) 1 100 in
  let scale_image_text := clamp (exp logit_scale) 1 100 in
  let logits_audio_image :=
    match text_features with
    | None =>
      matmul (scale scale_audio_image audio_features) (transpose image_features)
    | Some _ =>
      matmul (scale scale_image_text audio_features) (transpose image_features)
    end in
  Done (logits_audio_image, new_w, new_h, images).
End Main.

(** Line 24 of [show_heatmap]: the row [index] of the logits as a grid,
    [logits_audio_image[index].reshape(new_w, new_h)]. *)
Definition show_heatmap_logits (index : Z) (logits_audio_image : matrix R)
  (new_w new_h : Z) : outcome (matrix R) :=
  row <- py_getitem logits_audio_image index ;;
  reshape [row] new_w new_h.

(** Three heat maps, named by numbers, and a video of three frames. *)
Definition three_heatmaps : list Z := [10; 11; 12].
Definition three_frames : list image := [frame_129; frame_129; frame_129].
Definition heat_of (_ : image) (h : Z) : Z := h.

(** * Properties *)

(** ** Reasoning about outcomes *)

Lemma bind_Done {A B : Type} (c : outcome A) (f : A -> outcome B) (b : B) :
  bind c f = Done b -> exists a, c = Done a /\ f a = Done b.
Proof. destruct c; simpl; intros; try discriminate; eauto. Qed.

Tactic Notation "inv_bind" hyp(H) "as" ident(a) ident(E) :=
  apply bind_Done in H; destruct H as (a & E & H).

Lemma mapM_length {A B : Type} (f : A -> outcome B) (l : list A) (r : list B) :
  mapM f l = Done r -> length r = length l.
Proof.
  revert r; induction l as [|x xs IH]; simpl; intros r H.
  - now inversion H.
  - inv_bind H as y Ey. inv_bind H as ys Eys.
    inversion H; subst. simpl. f_equal. now apply IH.
Qed.

Lemma mapM_Forall2 {A B : Type} (f : A -> outcome B) (l : list A) (r : list B) :
  mapM f l = Done r -> Forall2 (fun x y => f x = Done y) l r.
Proof.
  revert r; induction l as [|x xs IH]; simpl; intros r H.
  - inversion H. constructor.
  - inv_bind H as y Ey. inv_bind H as ys Eys.
    inversion H; subst. constructor; auto.
Qed.

Lemma mapM_In {A B : Type} (f : A -> outcome B) (l : list A) (r : list B) (y : B) :
  mapM f l = Done r -> In y r -> exists x, In x l /\ f x = Done y.
Proof.
  intros H Hy. apply mapM_Forall2 in H.
  induction H as [|x y' l r Hxy _ IH]; simpl in *; [contradiction|].
  destruct Hy as [->|Hy]; [eauto|].
  destruct (IH Hy) as (x0 & ? & ?); eauto.
Qed.

Lemma mapM_returns {A B : Type} (f : A -> outcome B) (l : list A) :
  (forall x, In x l -> returns (f x)) -> returns (mapM f l).
Proof.
  induction l as [|x xs IH]; simpl; intros H.
  - now exists [].
  - destruct (H x (or_introl eq_refl)) as (y & ->).
    destruct IH as (ys & ->); [intros; apply H; now right|].
    simpl. now exists (y :: ys).
Qed.

Lemma concat_length_const {A : Type} (rows : list (list A)) (n : nat) :
  Forall (fun row => length row = n) rows ->
  length (concat rows) = (length rows * n)%nat.
Proof.
  induction 1 as [|row rows Hrow _ IH]; simpl; [reflexivity|].
  rewrite length_app, IH, Hrow. reflexivity.
Qed.

(** ** Python's [range] *)

Lemma py_range_Done (start stop step : Z) (l : list Z) :
  py_range start stop step = Done l ->
  step <> 0 /\ l = range_elems start stop step.
Proof.
  unfold py_range. destruct (Z.eqb_spec step 0); [discriminate|].
  intros H; inversion H; auto.
Qed.

(** With a positive step, [range(0, stop, step)] lists exactly the multiples
    of the step that are below [stop]. *)
Lemma range_elems_spec (stop step x : Z) :
  0 < step ->
  (In x (range_elems 0 stop step) <-> 0 <= x < stop /\ (step | x)).
Proof.
  intros Hstep.
  unfold range_elems. rewrite in_map_iff. unfold range_length.
  destruct (Z.ltb_spec 0 step); [|lia].
  split.
  - intros (i & <- & Hi). apply in_seq in Hi.
    destruct (Z.ltb_spec 0 stop); [|simpl in Hi; lia].
    assert (Z.of_nat i <= (stop - 1 - 0) / step) by lia.
    split; [|exists (Z.of_nat i); lia].
    assert (step * ((stop - 1 - 0) / step) <= stop - 1 - 0)
      by (apply Z.mul_div_le; lia).
    nia.
  - intros ([H0 H1] & (k & ->)).
    assert (0 <= k) by nia.
    exists (Z.to_nat k). split; [lia|].
    apply in_seq. destruct (Z.ltb_spec 0 stop); [|lia].
    assert (k <= (stop - 1 - 0) / step) by (apply Z.div_le_lower_bound; lia).
    lia.
Qed.

(** ** [crop] and [pad_image] *)

Lemma crop_Done (im p : image) (x0 y0 x1 y1 : Z) :
  crop im (x0, y0, x1, y1) = Done p ->
  x0 <= x1 /\ y0 <= y1 /\ size p = (x1 - x0, y1 - y0).
Proof.
  unfold crop.
  destruct (Z.ltb_spec x1 x0) as [|Hx]; [discriminate|].
  destruct (Z.ltb_spec y1 y0) as [|Hy]; [discriminate|].
  intros Hp; inversion Hp; subst. unfold size; simpl. auto.
Qed.

Lemma crop_returns (im : image) (x0 y0 x1 y1 : Z) :
  x0 <= x1 -> y0 <= y1 -> returns (crop im (x0, y0, x1, y1)).
Proof.
  intros. unfold crop.
  destruct (Z.ltb_spec x1 x0); [lia|].
  destruct (Z.ltb_spec y1 y0); [lia|]. eexists; reflexivity.
Qed.

Lemma pad_image_Done (im padded : image) (patch_size : Z) :
  pad_image im patch_size = Done padded ->
  patch_size <> 0 /\
  size padded = (padded_dim (im_width im) patch_size,
                 padded_dim (im_height im) patch_size) /\
  ImageOps_expand im
    (padding_border ((patch_size - im_width im mod patch_size) mod patch_size)
                    ((patch_size - im_height im mod patch_size) mod patch_size))
  = Done padded.
Proof.
  unfold pad_image, size, py_mod.
  destruct (Z.eqb_spec patch_size 0); [discriminate|]. simpl.
  intros H. split; [assumption|]. split; [|exact H].
  unfold ImageOps_expand, padding_border in H.
  inv_bind H as out E. inversion H; subst. simpl.
  unfold Image_new in E.
  destruct (_ || _); [discriminate|]. inversion E; subst; simpl.
  unfold padded_dim. f_equal; lia.
Qed.

Lemma pad_image_returns (im : image) (patch_size : Z) :
  0 < patch_size -> 0 <= im_width im -> 0 <= im_height im ->
  returns (pad_image im patch_size).
Proof.
  intros Hps Hw Hh. unfold pad_image, size, py_mod.
  destruct (Z.eqb_spec patch_size 0); [lia|]. simpl.
  unfold ImageOps_expand, padding_border, Image_new.
  pose proof (Z.mod_pos_bound (patch_size - im_width im mod patch_size) patch_size Hps).
  pose proof (Z.mod_pos_bound (patch_size - im_height im mod patch_size) patch_size Hps).
  match goal with |- context [if ?b then _ else _] => destruct b eqn:Hb end.
  - apply orb_true_iff in Hb as [Hb|Hb]; apply Z.ltb_lt in Hb; lia.
  - simpl. eexists; reflexivity.
Qed.

(** The padded dimension is the least multiple of the patch size that is not
    smaller than the dimension. *)
Lemma padded_dim_least_multiple (dim patch_size : Z) :
  0 < patch_size ->
  least_multiple_geq patch_size dim (padded_dim dim patch_size).
Proof.
  intros Hps. unfold least_multiple_geq, padded_dim.
  pose proof (Z.mod_pos_bound dim patch_size Hps) as Hm.
  pose proof (Z.div_mod dim patch_size ltac:(lia)) as Hd.
  set (r := dim mod patch_size) in *.
  set (q := dim / patch_size) in *.
  destruct (Z.eq_dec r 0) as [Hr|Hr].
  - rewrite Hr, Z.sub_0_r, Z.mod_same by lia.
    repeat split; try lia.
    exists q; lia.
  - rewrite (Z.mod_small (patch_size - r)) by lia.
    repeat split; try lia.
    + exists (q + 1); lia.
    + intros m' (k & ->) Hle.
      assert (q < k) by nia. nia.
Qed.

Lemma padding_border_even (padding : Z) :
  0 <= padding -> even_split (padding / 2) (padding - padding / 2) padding.
Proof.
  intros H. unfold even_split.
  pose proof (Z.div_mod padding 2 ltac:(lia)).
  pose proof (Z.mod_pos_bound padding 2 ltac:(lia)).
  lia.
Qed.

(** ** The patch grid of [extract_patches_rect] *)

Lemma range_elems_length (start stop step : Z) :
  length (range_elems start stop step)
  = Z.to_nat (range_length start stop step).
Proof. unfold range_elems. now rewrite length_map, length_seq. Qed.

Lemma crop_patches_Done (padded : image) (ps sx sy : Z) (patches : list image) :
  crop_patches padded ps sx sy = Done patches ->
  let xs := range_elems 0 (im_width padded - ps + 1) sx in
  let ys := range_elems 0 (im_height padded - ps + 1) sy in
  sy <> 0 /\ (patches <> [] -> sx <> 0) /\
  length patches = (length ys * length xs)%nat /\
  Forall (fun p => exists x y, In x xs /\ In y ys /\
                     crop padded (x, y, x + ps, y + ps) = Done p) patches.
Proof.
  intros H xs ys. unfold crop_patches, size in H.
  inv_bind H as ys' Eys. apply py_range_Done in Eys as [Hsy ->].
  inv_bind H as rows E. inversion H; subst patches; clear H.
  fold ys in E.
  assert (Hrows : forall row, In row rows ->
            exists y, In y ys /\ sx <> 0 /\
              mapM (fun x => crop padded (x, y, x + ps, y + ps)) xs = Done row).
  { intros row Hrow.
    destruct (mapM_In _ _ _ _ E Hrow) as (y & Hy & Hf).
    inv_bind Hf as xs' Exs. apply py_range_Done in Exs as [Hsx ->]. eauto. }
  repeat split; try assumption.
  - intros Hne. destruct rows as [|row rows]; [now elim Hne|].
    destruct (Hrows row (or_introl eq_refl)) as (_ & _ & ? & _).
    assumption.
  - rewrite (concat_length_const rows (length xs)).
    + now rewrite (mapM_length _ _ _ E).
    + apply Forall_forall. intros row Hrow.
      destruct (Hrows row Hrow) as (y & _ & _ & Hm).
      now apply mapM_length in Hm.
  - apply Forall_forall. intros p Hp.
    apply in_concat in Hp as (row & Hrow & Hp).
    destruct (Hrows row Hrow) as (y & Hy & _ & Hm).
    destruct (mapM_In _ _ _ _ Hm Hp) as (x & Hx & Hc). eauto.
Qed.

Lemma crop_patches_returns (padded : image) (ps sx sy : Z) :
  0 <= ps -> sx <> 0 -> sy <> 0 -> returns (crop_patches padded ps sx sy).
Proof.
  intros Hps Hsx Hsy. unfold crop_patches, size, py_range.
  destruct (Z.eqb_spec sy 0); [contradiction|].
  destruct (Z.eqb_spec sx 0); [contradiction|]. simpl.
  match goal with |- returns (bind (mapM ?f ?l) _) =>
    destruct (mapM_returns f l) as (rows & ->) end.
  - intros y _. simpl. apply mapM_returns. intros x _.
    apply crop_returns; lia.
  - simpl. eexists; reflexivity.
Qed.

Lemma extract_patches_rect_Done (im : image) (ps ppr ppc : Z)
  (patches : list image) (sx sy pw ph : Z) :
  extract_patches_rect im ps ppr ppc = Done (patches, sx, sy, pw, ph) ->
  exists padded,
    pad_image im ps = Done padded /\
    pw = im_width padded /\ ph = im_height padded /\
    ppr <> 1 /\ ppc <> 1 /\
    sx = (pw - ps) / (ppr - 1) /\ sy = (ph - ps) / (ppc - 1) /\
    patches <> [] /\
    crop_patches padded ps sx sy = Done patches.
Proof.
  unfold extract_patches_rect. intros H.
  inv_bind H as padded Epad. exists padded. unfold size in H.
  unfold py_floordiv in H.
  destruct (Z.eqb_spec (ppr - 1) 0); [discriminate|]. simpl in H.
  destruct (Z.eqb_spec (ppc - 1) 0); [discriminate|]. simpl in H.
  inv_bind H as cropped Ecrop. inv_bind H as stacked Estack.
  inversion H; subst; clear H.
  unfold torch_stack in Estack. destruct cropped; [discriminate|].
  inversion Estack; subst.
  repeat split; try assumption; try lia. discriminate.
Qed.

(** A non-empty [range(0, stop, step)]: either it counts upwards below a
    positive [stop], or downwards above a negative one. *)
Lemma range_elems_nonempty (stop step : Z) :
  step <> 0 -> range_elems 0 stop step <> [] ->
  (0 < step /\ 0 < stop /\
   range_length 0 stop step = (stop - 1) / step + 1) \/
  (step < 0 /\ stop < 0).
Proof.
  intros Hstep Hne.
  assert (Hl : length (range_elems 0 stop step) <> 0%nat)
    by (destruct (range_elems 0 stop step); [now elim Hne | discriminate]).
  rewrite range_elems_length in Hl. unfold range_length in *.
  destruct (Z.ltb_spec 0 step).
  - destruct (Z.ltb_spec 0 stop); [|simpl in Hl; lia].
    left. repeat split; try lia. now rewrite Z.sub_0_r.
  - destruct (Z.ltb_spec stop 0); [|simpl in Hl; lia].
    right. lia.
Qed.

Lemma extract_patches_rect_facts (im : image) (ps ppr ppc : Z)
  (patches : list image) (sx sy pw ph : Z) :
  extract_patches_rect im ps ppr ppc = Done (patches, sx, sy, pw, ph) ->
  0 < ps /\
  pw = padded_dim (im_width im) ps /\ ph = padded_dim (im_height im) ps /\
  ppr <> 1 /\ ppc <> 1 /\
  sx = (pw - ps) / (ppr - 1) /\ sy = (ph - ps) / (ppc - 1) /\
  sx <> 0 /\ sy <> 0 /\
  range_elems 0 (pw - ps + 1) sx <> [] /\
  range_elems 0 (ph - ps + 1) sy <> [] /\
  length patches = (length (range_elems 0 (ph - ps + 1) sy) *
                    length (range_elems 0 (pw - ps + 1) sx))%nat.
Proof.
  intros H.
  apply extract_patches_rect_Done in H
    as (padded & Hpad & -> & -> & Hppr & Hppc & Hsx & Hsy & Hne & Hcrop).
  pose proof (pad_image_Done _ _ _ Hpad) as (Hps & Hsize & _).
  unfold size in Hsize.
  assert (Hw : im_width padded = padded_dim (im_width im) ps) by congruence.
  assert (Hh : im_height padded = padded_dim (im_height im) ps) by congruence.
  clear Hsize.
  pose proof (crop_patches_Done _ _ _ _ _ Hcrop) as (Hsy0 & Hsx0 & Hlen & Hall).
  assert (0 < ps).
  { destruct patches as [|p ?]; [now elim Hne|].
    inversion Hall as [|? ? (x & y & _ & _ & Hc) _]; subst.
    apply crop_Done in Hc. lia. }
  repeat split; auto.
  - intros E. rewrite E, Nat.mul_0_r in Hlen.
    destruct patches; [now elim Hne | discriminate].
  - intros E. rewrite E in Hlen.
    destruct patches; [now elim Hne | discriminate].
Qed.

(** The stride of a grid that was really cut out of a non-empty image is
    positive. *)
Lemma stride_positive (dim ps n stride : Z) :
  0 < ps -> 1 <= dim -> stride <> 0 ->
  stride = (padded_dim dim ps - ps) / (n - 1) ->
  range_elems 0 (padded_dim dim ps - ps + 1) stride <> [] ->
  1 <= stride /\ ps <= padded_dim dim ps /\ 2 <= n.
Proof.
  intros Hps Hdim Hs Hdef Hne.
  destruct (padded_dim_least_multiple dim ps Hps) as ((k & Hk) & Hle & _).
  assert (1 <= k) by nia.
  assert (ps <= padded_dim dim ps) by nia.
  destruct (range_elems_nonempty _ _ Hs Hne) as [(? & ? & _)|(? & ?)]; [|lia].
  repeat split; try lia.
  destruct (Z.lt_trichotomy (n - 1) 0) as [Hn|[Hn|Hn]]; [| |lia].
  - assert ((padded_dim dim ps - ps) / (n - 1) <= 0); [|lia].
    rewrite <- Z.div_opp_opp by lia.
    apply Z.div_le_upper_bound; lia.
  - rewrite Hn, Z.div_0_r in Hdef. lia.
Qed.

(** The number of grid positions along one axis is the [new_w] / [new_h]
    formula of the callers. *)
Lemma grid_positions_count (padded ps stride : Z) :
  1 <= stride -> range_elems 0 (padded - ps + 1) stride <> [] ->
  Z.of_nat (length (range_elems 0 (padded - ps + 1) stride))
  = (padded - ps) / stride + 1.
Proof.
  intros Hs Hne.
  destruct (range_elems_nonempty (padded - ps + 1) stride ltac:(lia) Hne)
    as [(_ & Hstop & Hlen)|(? & _)]; [|lia].
  rewrite range_elems_length, Hlen.
  replace (padded - ps + 1 - 1) with (padded - ps) by lia.
  assert (0 <= (padded - ps) / stride) by (apply Z.div_pos; lia).
  lia.
Qed.

(** ** Reshape *)

Lemma chunks_shape {A : Type} (n c : nat) (l : list A) :
  length l = (n * c)%nat ->
  length (chunks n c l) = n /\
  Forall (fun row => length row = c) (chunks n c l) /\
  concat (chunks n c l) = l.
Proof.
  revert l; induction n as [|n IH]; simpl; intros l Hl.
  - destruct l; [auto | discriminate].
  - destruct (IH (skipn c l)) as (IH1 & IH2 & IH3).
    { rewrite length_skipn. lia. }
    repeat split.
    + now rewrite IH1.
    + constructor; [|assumption]. rewrite length_firstn. lia.
    + rewrite IH3. apply firstn_skipn.
Qed.

Lemma reshape_fits {A : Type} (t : list (list A)) (rows cols : Z) :
  0 <= rows -> 0 <= cols ->
  Z.of_nat (length (concat t)) = rows * cols ->
  exists r, reshape t rows cols = Done r /\
    Z.of_nat (length r) = rows /\
    Forall (fun row => Z.of_nat (length row) = cols) r /\
    concat r = concat t.
Proof.
  intros Hr Hc Hn. unfold reshape, infer_shape.
  destruct (Z.eqb_spec rows (-1)); [lia|].
  destruct (Z.eqb_spec cols (-1)); [lia|]. simpl.
  destruct (Z.ltb_spec rows 0); [lia|].
  destruct (Z.ltb_spec cols 0); [lia|]. simpl.
  rewrite Hn, Z.eqb_refl. simpl.
  destruct (chunks_shape (Z.to_nat rows) (Z.to_nat cols) (concat t))
    as (H1 & H2 & H3); [nia|].
  eexists; split; [reflexivity|]. repeat split.
  - lia.
  - eapply Forall_impl; [|exact H2]. simpl; intros; lia.
  - assumption.
Qed.

(** ** Tensors *)

Section TensorFacts.
Context {T : Type} `{Scalar T}.

Lemma map_nth_seq (l : list T) (d : T) :
  map (fun j => nth j l d) (seq 0 (length l)) = l.
Proof.
  induction l as [|x l IH]; simpl; [reflexivity|].
  f_equal. rewrite <- seq_shift, map_map. exact IH.
Qed.

Lemma map_nth_seq_rows (m : matrix T) :
  map (fun i => nth i m []) (seq 0 (length m)) = m.
Proof.
  induction m as [|x l IH]; simpl; [reflexivity|].
  f_equal. rewrite <- seq_shift, map_map. exact IH.
Qed.

(** The rows of the transpose are the columns. *)
Lemma transpose_shape (m : matrix T) (r c : nat) :
  has_shape m r c -> (1 <= r)%nat ->
  has_shape (transpose m) c r.
Proof.
  intros [Hr Hc] Hpos. unfold transpose, has_shape.
  assert (Hhd : length (hd [] m) = c).
  { destruct m as [|row m]; simpl in *; [lia|]. now inversion Hc. }
  rewrite Hhd, length_map, length_seq. split; [reflexivity|].
  apply Forall_forall. intros col Hcol.
  apply in_map_iff in Hcol as (j & <- & _). now rewrite length_map.
Qed.

(** On a tensor with at least one row and one column, transposing twice
    gives the tensor back. *)
Lemma transpose_involutive (m : matrix T) (r c : nat) :
  has_shape m r c -> (1 <= r)%nat -> (1 <= c)%nat ->
  transpose (transpose m) = m.
Proof.
  intros Hm Hr Hc.
  pose proof (transpose_shape _ _ _ Hm Hr) as [Hlen Hrows].
  destruct Hm as [Hmr Hmc].
  assert (Hhd : length (hd [] m) = c).
  { destruct m as [|row m]; simpl in *; [lia|]. now inversion Hmc. }
  unfold transpose at 1.
  assert (Hhd' : length (hd [] (transpose m)) = r).
  { destruct (transpose m) as [|col cols] eqn:E; simpl in *; [lia|].
    now inversion Hrows. }
  rewrite Hhd'. unfold transpose. rewrite Hhd.
  transitivity (map (fun i => nth i m []) (seq 0 (length m)));
    [|apply map_nth_seq_rows].
  rewrite Hmr.
  apply map_ext_in. intros i Hi. apply in_seq in Hi.
  rewrite map_map.
  assert (Hrow : length (nth i m []) = c).
  { rewrite Forall_forall in Hmc. apply Hmc. apply nth_In. lia. }
  transitivity (map (fun j => nth j (nth i m []) szero)
                    (seq 0 (length (nth i m []))));
    [|apply map_nth_seq].
  rewrite Hrow.
  apply map_ext. intros j.
  rewrite (nth_indep _ szero ((fun row => nth j row szero) []))
    by (rewrite length_map; lia).
  now rewrite (map_nth (fun row => nth j row szero)).
Qed.

(** [a @ b.T]: entry [(i, j)] is the inner product of row [i] of [a] and
    row [j] of [b]. *)
Lemma matmul_transpose (a b : matrix T) (r c : nat) :
  has_shape b r c -> (1 <= r)%nat -> (1 <= c)%nat ->
  matmul a (transpose b) = map (fun row => map (dot row) b) a.
Proof.
  intros Hb Hr Hc. unfold matmul.
  now rewrite (transpose_involutive _ _ _ Hb Hr Hc).
Qed.

Lemma vecmat_transpose (v : vec T) (b : matrix T) (r c : nat) :
  has_shape b r c -> (1 <= r)%nat -> (1 <= c)%nat ->
  vecmat v (transpose b) = map (dot v) b.
Proof.
  intros Hb Hr Hc. unfold vecmat.
  now rewrite (transpose_involutive _ _ _ Hb Hr Hc).
Qed.

Lemma single_row_shape (q : vec T) : has_shape [q] 1 (length q).
Proof. split; [reflexivity|]. now constructor. Qed.

Lemma broadcast_col_map {A : Type} (op : T -> T -> T) (f g : A -> T)
  (l : list A) :
  broadcast_col op (map (fun x => [f x]) l) (map (fun x => [g x]) l)
  = map (fun x => [op (f x) (g x)]) l.
Proof.
  unfold broadcast_col. induction l as [|x l IH]; simpl; [reflexivity|].
  now rewrite IH.
Qed.
End TensorFacts.

(** ** The rejection loop of [negative_sample] *)

Section SamplingFacts.
Context {T : Type} `{Scalar T}.
Variable rnd : nat -> nat.
Variables (q : vec T) (embedding : matrix T) (threshold : T).
Hypothesis q_nonempty : q <> [].

(** Against a single query, the tensor tested on line 266 has the one
    entry [negative . q]. *)
Lemma query_test (v : vec T) : vecmat v (transpose [q]) = [dot v q].
Proof.
  rewrite (vecmat_transpose v [q] 1 (length q)); auto using single_row_shape.
  destruct q; [contradiction | simpl; lia].
Qed.

(** One iteration of the [while] loop. *)
Lemma sample_loop_step (fuel t : nat) :
  embedding <> [] ->
  sample_loop rnd (S fuel) t [q] embedding threshold
  = if accepts q embedding threshold (rnd t)
    then Done (nth (rnd t mod length embedding) embedding [], S t)
    else sample_loop rnd fuel (S t) [q] embedding threshold.
Proof.
  intros Hne. cbn [sample_loop]. unfold randint, accepts, getitem.
  destruct (length embedding) as [|n] eqn:Hlen.
  { destruct embedding; [contradiction | discriminate]. }
  cbn [bind].
  assert (Hidx : (rnd t mod S n < length embedding)%nat).
  { rewrite Hlen. apply Nat.mod_upper_bound. lia. }
  destruct (nth_error embedding (rnd t mod S n)) as [v|] eqn:Hv.
  - cbn [bind]. rewrite query_test. cbn [map tensor_bool bind].
    rewrite (nth_error_nth _ _ _ Hv).
    now destruct (sge (dot v q) threshold).
  - apply nth_error_None in Hv. lia.
Qed.

Lemma embedding_cases : embedding = [] \/ embedding <> [].
Proof. destruct embedding; [now left | right; discriminate]. Qed.

Lemma sample_loop_empty (fuel t : nat) :
  embedding = [] ->
  sample_loop rnd (S fuel) t [q] embedding threshold = Raise ValueError.
Proof. intros ->. reflexivity. Qed.

Lemma accepts_row (idx : nat) :
  embedding <> [] ->
  accepts q embedding threshold idx = true ->
  let v := nth (idx mod length embedding) embedding [] in
  In v embedding /\ sge (dot v q) threshold = false.
Proof.
  intros Hne. unfold accepts.
  destruct (nth_error embedding (idx mod length embedding)) as [v|] eqn:Hv;
    [|discriminate].
  intros Hacc. rewrite (nth_error_nth _ _ _ Hv). split.
  - eapply nth_error_In; eauto.
  - now destruct (sge (dot v q) threshold).
Qed.

(** What the [while] loop returns is a row that passed the test. *)
Lemma sample_loop_Done (fuel t : nat) (v : vec T) (t' : nat) :
  sample_loop rnd fuel t [q] embedding threshold = Done (v, t') ->
  In v embedding /\ sge (dot v q) threshold = false /\ (t < t')%nat.
Proof.
  revert t. induction fuel as [|fuel IH]; intros t Hs; [discriminate|].
  destruct embedding_cases as [Hnil|Hne].
  { rewrite sample_loop_empty in Hs by assumption. discriminate. }
  rewrite sample_loop_step in Hs by assumption.
  destruct (accepts q embedding threshold (rnd t)) eqn:Hacc.
  - inversion Hs; subst.
    destruct (accepts_row _ Hne Hacc); auto.
  - destruct (IH _ Hs) as (? & ? & ?). auto with arith.
Qed.

Lemma negatives_loop_Done (k fuel t : nat) (acc negs : matrix T) (t' : nat) :
  negatives_loop rnd k fuel t [q] embedding threshold acc = Done (negs, t') ->
  exists new, negs = acc ++ new /\ length new = k /\
    Forall (fun v => In v embedding /\ sge (dot v q) threshold = false) new.
Proof.
  revert t acc. induction k as [|k IH]; intros t acc Hl.
  - inversion Hl; subst. exists []. rewrite app_nil_r. auto.
  - cbn [negatives_loop] in Hl. inv_bind Hl as r Er. destruct r as [v t1].
    apply sample_loop_Done in Er as (Hin & Hlt & _).
    destruct (IH _ _ Hl) as (new & -> & Hlen & Hall).
    exists (v :: new). rewrite <- app_assoc. simpl. auto.
Qed.

Lemma negative_sample_Done (fuel t k : nat) (negs : matrix T) (t' : nat) :
  negative_sample rnd fuel t [q] embedding k threshold = Done (negs, t') ->
  length negs = k /\
  Forall (fun v => In v embedding /\ sge (dot v q) threshold = false) negs.
Proof.
  unfold negative_sample. intros Hs.
  inv_bind Hs as r Er. destruct r as [l t1].
  inv_bind Hs as stacked Est. inversion Hs; subst.
  unfold torch_stack in Est. destruct l; [discriminate|].
  inversion Est; subst.
  apply negatives_loop_Done in Er as (new & E & Hlen & Hall).
  simpl in E. now subst.
Qed.

(** More fuel does not change a result. *)
Lemma sample_loop_more_fuel (fuel extra t : nat) (r : vec T * nat) :
  sample_loop rnd fuel t [q] embedding threshold = Done r ->
  sample_loop rnd (fuel + extra) t [q] embedding threshold = Done r.
Proof.
  revert t. induction fuel as [|fuel IH]; intros t Hs; [discriminate|].
  destruct embedding_cases as [Hnil|Hne].
  { rewrite sample_loop_empty in Hs by assumption. discriminate. }
  change (S fuel + extra)%nat with (S (fuel + extra)).
  rewrite sample_loop_step in * by assumption.
  destruct (accepts q embedding threshold (rnd t)); auto.
Qed.

(** If one of the next [n] draws is accepted, the [while] loop ends within
    [n] iterations, at the first of them. *)
Lemma sample_loop_accepted (n t : nat) :
  embedding <> [] ->
  (1 <= accepted_draws rnd q embedding threshold t n)%nat ->
  exists v t1,
    sample_loop rnd n t [q] embedding threshold = Done (v, t1) /\
    (t < t1 <= t + n)%nat /\
    accepted_draws rnd q embedding threshold t1 (t + n - t1)
    = (accepted_draws rnd q embedding threshold t n - 1)%nat.
Proof.
  intros Hne. revert t. induction n as [|n IH]; intros t Hc.
  - unfold accepted_draws in Hc. simpl in Hc. lia.
  - rewrite sample_loop_step by assumption.
    unfold accepted_draws in *. cbn [seq filter] in *.
    destruct (accepts q embedding threshold (rnd t)) eqn:Hacc.
    + eexists _, (S t). split; [reflexivity|]. split; [lia|].
      replace (t + S n - S t)%nat with n by lia. simpl. lia.
    + destruct (IH (S t) Hc) as (v & t1 & Hs & Ht & Hcnt).
      exists v, t1. split; [assumption|]. split; [lia|].
      replace (t + S n - t1)%nat with (S t + n - t1)%nat by lia.
      assumption.
Qed.

Lemma accepted_draws_le (t n : nat) :
  (accepted_draws rnd q embedding threshold t n <= n)%nat.
Proof.
  unfold accepted_draws.
  etransitivity; [apply filter_length_le|]. now rewrite length_seq.
Qed.

(** If [k] of the next [n] draws are accepted, the [for] loop collects
    its [k] rows. *)
Lemma negatives_loop_returns (k n fuel t : nat) (acc : matrix T) :
  embedding <> [] ->
  (k <= accepted_draws rnd q embedding threshold t n)%nat ->
  (n <= fuel)%nat ->
  exists negs t',
    negatives_loop rnd k fuel t [q] embedding threshold acc = Done (negs, t') /\
    length negs = (length acc + k)%nat.
Proof.
  intros Hne. revert n t acc.
  induction k as [|k IH]; intros n t acc Hc Hfuel.
  - exists acc, t. split; [reflexivity | simpl; lia].
  - destruct (sample_loop_accepted n t Hne ltac:(lia))
      as (v & t1 & Hs & Ht & Hcnt).
    apply (sample_loop_more_fuel _ (fuel - n)) in Hs.
    replace (n + (fuel - n))%nat with fuel in Hs by lia.
    cbn [negatives_loop]. rewrite Hs. cbn [bind].
    destruct (IH (t + n - t1)%nat t1 (acc ++ [v])) as (negs & t' & Hl & Hlen);
      [lia | lia |].
    exists negs, t'. split; [assumption|].
    rewrite Hlen, length_app. simpl. lia.
Qed.

Lemma negative_sample_returns (k n t : nat) :
  embedding <> [] -> (1 <= k)%nat ->
  (k <= accepted_draws rnd q embedding threshold t n)%nat ->
  returns (negative_sample rnd n t [q] embedding k threshold).
Proof.
  intros Hne Hk Hc.
  destruct (negatives_loop_returns k n n t [] Hne Hc (le_n n))
    as (negs & t' & Hl & Hlen).
  unfold negative_sample. rewrite Hl. cbn [bind].
  destruct negs; [simpl in Hlen; lia|].
  eexists; reflexivity.
Qed.

(** If every draw from [t] on is rejected, the [while] loop never ends. *)
Lemma sample_loop_diverges (t : nat) :
  embedding <> [] ->
  (forall s, (t <= s)%nat -> accepts q embedding threshold (rnd s) = false) ->
  forall fuel, sample_loop rnd fuel t [q] embedding threshold = OutOfFuel.
Proof.
  intros Hne Hrej fuel. revert t Hrej.
  induction fuel as [|fuel IH]; intros t Hrej; [reflexivity|].
  rewrite sample_loop_step by assumption.
  rewrite Hrej by lia. apply IH. intros s Hs. apply Hrej. lia.
Qed.

Lemma negative_sample_diverges (t k : nat) :
  embedding <> [] -> (1 <= k)%nat ->
  (forall s, (t <= s)%nat -> accepts q embedding threshold (rnd s) = false) ->
  forall fuel,
    negative_sample rnd fuel t [q] embedding k threshold = OutOfFuel.
Proof.
  intros Hne Hk Hrej fuel. unfold negative_sample.
  destruct k as [|k]; [lia|]. cbn [negatives_loop].
  now rewrite sample_loop_diverges.
Qed.
End SamplingFacts.

(** ** The scoring part of [process_frames] *)

Lemma Q_ordered : OrderedScalar Q.
Proof.
  intros x y. simpl. split.
  - intros Hb. apply Qnot_le_lt. intros Hle.
    apply Qle_bool_iff in Hle. congruence.
  - intros Hlt. destruct (Qle_bool y x) eqn:Hb; [|reflexivity].
    apply Qle_bool_iff in Hb. exfalso. now apply (Qlt_not_le x y).
Qed.

Lemma R_ordered : OrderedScalar R.
Proof.
  intros x y. simpl. destruct (Rle_dec y x); split; intros; try lra; easy.
Qed.

Section ScoringFacts.
Context {T : Type} `{Scalar T}.

Lemma rows_of_shape (m sub : matrix T) (r c : nat) :
  has_shape m r c -> Forall (fun v => In v m) sub ->
  has_shape sub (length sub) c.
Proof.
  intros [_ Hc] Hsub. split; [reflexivity|].
  rewrite Forall_forall in *. auto.
Qed.

(** The similarity to a single query: one column of inner products. *)
Lemma unscaled_similarity_rows (embedding : matrix T) (q : vec T) :
  q <> [] ->
  matmul embedding (transpose [q]) = map (fun e => [dot e q]) embedding.
Proof.
  intros Hq.
  rewrite (matmul_transpose embedding [q] 1 (length q));
    auto using single_row_shape.
  destruct q; [contradiction | simpl; lia].
Qed.

Lemma frame_similarity_Done (rnd : nat -> nat) (fuel t : nat)
  (embedding : matrix T) (q : vec T) (supervision_feature : option (matrix T))
  (lambda_ : T) (sim : matrix T) (t' N D : nat) :
  has_shape embedding N D -> (1 <= D)%nat -> length q = D ->
  (forall s, supervision_feature = Some s ->
             exists M, has_shape s M D /\ (1 <= M)%nat) ->
  frame_similarity rnd fuel t embedding [q] supervision_feature lambda_
  = Done (sim, t') ->
  exists threshold negatives,
    quantile (matmul embedding (transpose [q])) 7 10 = Done threshold /\
    negative_sample rnd fuel t [q] embedding 40 threshold
    = Done (negatives, t') /\
    sim = map (fun e =>
                 [ssub (query_term q supervision_feature e)
                       (smul lambda_
                          (smul SCALE_AUDIO_IMAGE
                             (mean (map (dot e) negatives))))])
              embedding.
Proof.
  intros Hemb HD Hq Hsup Hf.
  assert (Hqne : q <> []) by (destruct q; [simpl in Hq; lia | discriminate]).
  unfold frame_similarity in Hf.
  inv_bind Hf as threshold Ethr. inv_bind Hf as r Eneg.
  destruct r as [negatives t1]. inversion Hf; subst sim t1; clear Hf.
  exists threshold, negatives. split; [assumption|]. split; [assumption|].
  pose proof (negative_sample_Done rnd q embedding threshold Hqne _ _ _ _ _ Eneg)
    as [Hlen Hall].
  assert (Hnegs : has_shape negatives 40 D).
  { rewrite <- Hlen. apply (rows_of_shape embedding negatives N D Hemb).
    eapply Forall_impl; [|exact Hall]. simpl. tauto. }
  rewrite (matmul_transpose embedding negatives 40 D Hnegs) by lia.
  rewrite (unscaled_similarity_rows embedding q Hqne).
  unfold scale, scale_vec, mean_rows, unsqueeze.
  rewrite !map_map. simpl.
  destruct supervision_feature as [s|].
  - destruct (Hsup s eq_refl) as (M & Hs & HM).
    rewrite (matmul_transpose _ s M D Hs) by lia.
    unfold mean_keepdim, mean_rows, unsqueeze, scale, div_scalar.
    rewrite !map_map.
    rewrite (broadcast_col_map sadd
               (fun e => smul SCALE_AUDIO_IMAGE (dot e q))
               (fun e => mean (map (dot (map (smul SCALE_IMAGE_TEXT) e)) s))).
    rewrite map_map. simpl.
    now rewrite (broadcast_col_map ssub).
  - now rewrite (broadcast_col_map ssub).
Qed.
End ScoringFacts.

(** ** Batching and normalisation of the patch features *)

Lemma firstn_add {A : Type} (a b : nat) (l : list A) :
  firstn (a + b) l = firstn a l ++ firstn b (skipn a l).
Proof.
  revert l; induction a as [|a IH]; intros l; simpl; [reflexivity|].
  destruct l as [|x l]; simpl.
  - now rewrite firstn_nil.
  - now rewrite IH.
Qed.

(** The first [m] slices of width [w] make up the first [m * w] elements. *)
Lemma slices_prefix {A : Type} (l : list A) (w m : nat) :
  concat (map (fun j => slice l (j * w) w) (seq 0 m)) = firstn (m * w) l.
Proof.
  induction m as [|m IH]; [reflexivity|].
  rewrite seq_S, map_app, concat_app, IH. cbn [map concat Nat.add].
  rewrite app_nil_r. unfold slice.
  change (S m * w)%nat with (w + m * w)%nat.
  rewrite (Nat.add_comm w (m * w)). symmetry. apply firstn_add.
Qed.

(** The slices [l[i : i + 8]] for [i] in [range(0, len(l), 8)] cover [l]. *)
Lemma batches_cover {A : Type} (l : list A) :
  concat (map (fun i => slice l (Z.to_nat i) 8)
              (range_elems 0 (Z.of_nat (length l)) 8)) = l.
Proof.
  unfold range_elems. rewrite map_map.
  rewrite (map_ext _ (fun j => slice l (j * 8) 8))
    by (intros j; f_equal; lia).
  rewrite slices_prefix. apply firstn_all2.
  unfold range_length. change (0 <? 8)%Z with true. cbv iota.
  destruct (Z.ltb_spec 0 (Z.of_nat (length l))); [|simpl; lia].
  pose proof (Z.mul_succ_div_gt (Z.of_nat (length l) - 1 - 0) 8 ltac:(lia)).
  assert (0 <= (Z.of_nat (length l) - 1 - 0) / 8)%Z
    by (apply Z.div_pos; lia).
  lia.
Qed.

Lemma concat_map_map {A B : Type} (f : A -> B) (ls : list (list A)) :
  concat (map (map f) ls) = map f (concat ls).
Proof. now rewrite concat_map. Qed.

Local Open Scope R_scope.

(** Normalisation works on each row by itself. *)
Lemma normalize_rows_map (m : matrix R) :
  normalize_rows m = map (fun row => map (fun x => x / norm row) row) m.
Proof.
  unfold normalize_rows.
  induction m as [|row m IH]; [reflexivity|].
  unfold broadcast_col, unsqueeze in *.
  cbn [map combine fst snd hd]. now rewrite IH.
Qed.

Section EmbeddingFacts.
Variable image_transforms : image -> image.
Variable encode_image : image -> vec R.

(** The embedding stage returns for every non-empty list of patches, and
    the feature at an index depends on the patch at that index only. *)
Lemma embed_patches_map (patches : list image) :
  patches <> [] ->
  embed_patches image_transforms encode_image patches
  = Done (map (patch_feature image_transforms encode_image) patches).
Proof.
  intros Hne. unfold embed_patches.
  destruct patches as [|p ps] eqn:Hp; [contradiction|]. rewrite <- Hp.
  assert (Hstack : torch_stack (map image_transforms patches)
                   = Done (map image_transforms patches))
    by (rewrite Hp; reflexivity).
  rewrite Hstack. cbn [bind]. unfold py_range.
  change (8 =? 0)%Z with false. cbv iota.
  cbn [bind]. unfold model_image.
  set (all := map image_transforms patches).
  assert (Hcat : concat (map (fun i => map encode_image (slice all (Z.to_nat i) 8))
                     (range_elems 0 (Z.of_nat (length all)) 8))
                 = map encode_image all).
  { rewrite <- (map_map (fun i => slice all (Z.to_nat i) 8) (map encode_image)).
    rewrite concat_map_map. now rewrite batches_cover. }
  assert (Hcat' : torch_cat (map (fun i => map encode_image (slice all (Z.to_nat i) 8))
                     (range_elems 0 (Z.of_nat (length all)) 8))
                  = Done (map encode_image all)).
  { rewrite <- Hcat. unfold torch_cat.
    destruct (map (fun i => map encode_image (slice all (Z.to_nat i) 8))
                  (range_elems 0 (Z.of_nat (length all)) 8)) as [|b bs];
      [|reflexivity].
    exfalso. simpl in Hcat. unfold all in Hcat. rewrite Hp in Hcat.
    discriminate. }
  unfold vec, matrix in *. rewrite Hcat'. cbn [bind]. f_equal.
  rewrite normalize_rows_map. unfold all, patch_feature.
  rewrite !map_map. reflexivity.
Qed.

Lemma embed_patches_Done (patches : list image) (features : matrix R) :
  embed_patches image_transforms encode_image patches = Done features ->
  features = map (patch_feature image_transforms encode_image) patches.
Proof.
  intros Hd. destruct patches as [|p ps]; [discriminate|].
  rewrite embed_patches_map in Hd by discriminate. now inversion Hd.
Qed.
End EmbeddingFacts.

(** ** Norms and inner products *)

Lemma dot_cons (x y : R) (a b : vec R) :
  dot (x :: a) (y :: b) = x * y + dot a b.
Proof. reflexivity. Qed.

Lemma dot_nil_l (b : vec R) : dot [] b = 0.
Proof. reflexivity. Qed.

Lemma dot_nil_r (a : vec R) : dot a [] = 0.
Proof. destruct a; reflexivity. Qed.

Lemma dot_self_nonneg (v : vec R) : 0 <= dot v v.
Proof.
  induction v as [|x v IH]; [rewrite dot_nil_l; lra|].
  rewrite dot_cons. nra.
Qed.

Lemma dot_self_pos (v : vec R) :
  Exists (fun x => x <> 0) v -> 0 < dot v v.
Proof.
  induction 1 as [x v Hx|x v _ IH]; rewrite dot_cons.
  - pose proof (dot_self_nonneg v). nra.
  - nra.
Qed.

Lemma dot_div (c : R) (a b : vec R) :
  c <> 0 ->
  dot (map (fun x => x / c) a) (map (fun x => x / c) b) = dot a b / (c * c).
Proof.
  intros Hc. revert b. induction a as [|x a IH]; intros b.
  - simpl. rewrite !dot_nil_l. field. assumption.
  - destruct b as [|y b].
    + simpl. rewrite !dot_nil_r. field. assumption.
    + simpl map. rewrite !dot_cons, IH. field. assumption.
Qed.

(** A row divided by its norm has norm 1. *)
Lemma norm_normalized (v : vec R) :
  Exists (fun x => x <> 0) v ->
  norm (map (fun x => x / norm v) v) = 1.
Proof.
  intros Hv. pose proof (dot_self_pos v Hv) as Hpos.
  assert (Hn : norm v <> 0).
  { unfold norm. pose proof (sqrt_lt_R0 _ Hpos). lra. }
  unfold norm at 1. rewrite dot_div by assumption.
  unfold norm. rewrite sqrt_sqrt by lra.
  replace (dot v v / dot v v) with 1 by (field; lra).
  apply sqrt_1.
Qed.

(** Cauchy-Schwarz. *)
Lemma dot_square_le (a b : vec R) :
  dot a b * dot a b <= dot a a * dot b b.
Proof.
  revert b. induction a as [|x a IH]; intros b.
  - rewrite !dot_nil_l. lra.
  - destruct b as [|y b].
    + rewrite !dot_nil_r. lra.
    + rewrite !dot_cons.
      pose proof (IH b) as Hab.
      pose proof (dot_self_nonneg a) as Ha.
      pose proof (dot_self_nonneg b) as Hb.
      set (s := dot a b) in *. set (A := dot a a) in *. set (B := dot b b) in *.
      assert (Hcross : 2 * (x * y) * s <= x * x * B + y * y * A).
      { destruct (Rle_dec (2 * (x * y) * s) 0) as [Hneg|Hposi].
        - nra.
        - apply Rnot_le_lt in Hposi.
          apply Rsqr_incr_0_var; [|nra].
          unfold Rsqr.
          assert (4 * (x * x) * (y * y) * (s * s)
                  <= 4 * (x * x) * (y * y) * (A * B)).
          { apply Rmult_le_compat_l; [nra | assumption]. }
          pose proof (Rle_0_sqr (x * x * B - y * y * A)) as Hsq.
          unfold Rsqr in Hsq. nra. }
      nra.
Qed.

Lemma dot_abs_le (a b : vec R) : Rabs (dot a b) <= norm a * norm b.
Proof.
  unfold norm. rewrite <- sqrt_mult by apply dot_self_nonneg.
  rewrite <- sqrt_Rsqr_abs. apply sqrt_le_1.
  - apply Rle_0_sqr.
  - pose proof (dot_self_nonneg a). pose proof (dot_self_nonneg b). nra.
  - unfold Rsqr. apply dot_square_le.
Qed.

Local Close Scope R_scope.

(** ** The contrast-stretching map *)

Local Open Scope R_scope.

Lemma insert_sorted_length {T : Type} `{Scalar T} (x : T) (l : vec T) :
  length (insert_sorted x l) = S (length l).
Proof.
  induction l as [|y l IH]; simpl; [reflexivity|].
  destruct (sge y x); simpl; [reflexivity | now rewrite IH].
Qed.

Lemma sort_length {T : Type} `{Scalar T} (l : vec T) :
  length (sort l) = length l.
Proof.
  induction l as [|x l IH]; simpl; [reflexivity|].
  now rewrite insert_sorted_length, IH.
Qed.

Lemma column0_returns {A : Type} (m : list (list A)) :
  Forall (fun row => row <> []) m ->
  exists col, column0 m = Done col /\ length col = length m.
Proof.
  intros Hm. unfold column0.
  destruct (mapM_returns (fun row => getitem row 0) m) as (col & Hcol).
  - intros row Hrow. rewrite Forall_forall in Hm.
    specialize (Hm row Hrow). destruct row as [|x row]; [contradiction|].
    now exists x.
  - exists col. split; [assumption|]. now apply mapM_length in Hcol.
Qed.

(** On at least 20 rows with a first column, [MAP] returns: the entries are
    [MAP_entry] of the standard deviation and of some [top25]. *)
Lemma MAP_returns (similarity : matrix R) :
  (20 <= length similarity)%nat ->
  Forall (fun row => row <> []) similarity ->
  exists top25,
    MAP similarity
    = Done (map (map (MAP_entry (tensor_std similarity) top25)) similarity).
Proof.
  intros Hlen Hrows. unfold MAP.
  destruct (column0_returns similarity Hrows) as (col & -> & Hcol).
  cbn [bind]. unfold topk, top5_count.
  assert (Hk : (1 <= length similarity / 20 <= length similarity)%nat).
  { split.
    - apply Nat.div_le_lower_bound; lia.
    - apply Nat.Div0.div_le_upper_bound. lia. }
  destruct (Nat.ltb_spec (length col) (length similarity / 20)); [lia|].
  cbn [bind].
  destruct (firstn (length similarity / 20) (rev (sort col))) as [|x xs] eqn:Htop.
  - apply (f_equal (@length R)) in Htop.
    rewrite length_firstn, length_rev, sort_length in Htop.
    cbn [length] in Htop. lia.
  - cbn [tensor_min bind]. eexists; reflexivity.
Qed.

(** *** The standard deviation *)

Lemma sum_cons (x : R) (l : vec R) : sum (x :: l) = x + sum l.
Proof. reflexivity. Qed.

Lemma sum_nil : sum (@nil R) = 0.
Proof. reflexivity. Qed.

Lemma sum_repeat (c : R) (n : nat) : sum (repeat c n) = INR n * c.
Proof.
  induction n as [|n IH]; [simpl; lra|].
  cbn [repeat]. rewrite sum_cons, IH, S_INR. lra.
Qed.

Lemma mean_repeat (c : R) (n : nat) : (1 <= n)%nat -> mean (repeat c n) = c.
Proof.
  intros Hn. unfold mean. rewrite sum_repeat, repeat_length.
  simpl. rewrite <- INR_IZR_INZ.
  assert (0 < INR n) by (apply lt_0_INR; lia).
  field. lra.
Qed.

Lemma concat_repeat_single {A : Type} (c : A) (n : nat) :
  concat (repeat [c] n) = repeat c n.
Proof. induction n as [|n IH]; simpl; [reflexivity | now rewrite IH]. Qed.

Lemma sum_sq_dev_repeat (c : R) (n : nat) :
  sum (map (fun x => (x - c) * (x - c)) (repeat c n)) = 0.
Proof.
  induction n as [|n IH]; [reflexivity|].
  cbn [repeat map]. rewrite sum_cons, IH. lra.
Qed.

(** A tensor whose entries are all equal has standard deviation 0. *)
Lemma tensor_std_constant (c : R) (n : nat) :
  (2 <= n)%nat -> tensor_std (repeat [c] n) = Some 0.
Proof.
  intros Hn. unfold tensor_std.
  rewrite concat_repeat_single, mean_repeat by lia.
  rewrite sum_sq_dev_repeat, repeat_length.
  destruct (repeat c n) as [|x xs] eqn:Hr.
  { apply (f_equal (@length R)) in Hr. rewrite repeat_length in Hr.
    simpl in Hr. lia. }
  unfold fdiv.
  assert (2 <= INR n) by (replace 2 with (INR 2) by (simpl; lra); apply le_INR; lia).
  destruct (Req_dec_T (INR n - 1) 0) as [E|_]; [lra|].
  f_equal. unfold Rdiv. rewrite Rmult_0_l. apply sqrt_0.
Qed.

Lemma sum_sq_dev_ge (mu x : R) (l : vec R) :
  In x l -> (x - mu) * (x - mu) <= sum (map (fun y => (y - mu) * (y - mu)) l).
Proof.
  assert (Hnn : forall l', 0 <= sum (map (fun y => (y - mu) * (y - mu)) l')).
  { induction l' as [|y l' IH]; [cbn [map]; rewrite sum_nil; lra|].
    cbn [map]. rewrite sum_cons.
    apply Rplus_le_le_0_compat; [apply (Rle_0_sqr (y - mu)) | exact IH]. }
  induction l as [|y l IH]; [contradiction|]. intros [->|Hin].
  - specialize (Hnn l). cbn [map]. rewrite sum_cons.
    rewrite <- (Rplus_0_r ((x - mu) * (x - mu))) at 1.
    apply Rplus_le_compat_l. exact Hnn.
  - specialize (IH Hin). cbn [map]. rewrite sum_cons.
    rewrite <- (Rplus_0_l ((x - mu) * (x - mu))).
    apply Rplus_le_compat; [apply (Rle_0_sqr (y - mu)) | exact IH].
Qed.

(** A tensor with two different entries has a positive standard deviation. *)
Lemma tensor_std_pos (t : matrix R) (a b : R) :
  In a (concat t) -> In b (concat t) -> a <> b ->
  exists sd, tensor_std t = Some sd /\ 0 < sd.
Proof.
  intros Ha Hb Hab. unfold tensor_std.
  set (flat := concat t) in *. set (mu := mean flat).
  assert (Hlen : (2 <= length flat)%nat).
  { destruct flat as [|x [|y l]]; simpl in *; try lia; try tauto.
    destruct Ha as [<-|[]]; destruct Hb as [<-|[]]. now elim Hab. }
  assert (Hpos : 0 < sum (map (fun x => (x - mu) * (x - mu)) flat)).
  { pose proof (sum_sq_dev_ge mu a flat Ha).
    pose proof (sum_sq_dev_ge mu b flat Hb).
    assert (a <> mu \/ b <> mu) as [H1|H1] by (destruct (Req_dec a mu); [right; congruence | now left]).
    - assert (0 < (a - mu) * (a - mu)) by (apply (Rsqr_pos_lt (a - mu)); lra).
      lra.
    - assert (0 < (b - mu) * (b - mu)) by (apply (Rsqr_pos_lt (b - mu)); lra).
      lra. }
  destruct flat as [|x xs] eqn:Hflat; [simpl in Hlen; lia|]. rewrite <- Hflat in *.
  unfold fdiv.
  assert (2 <= INR (length flat))
    by (replace 2 with (INR 2) by (simpl; lra); apply le_INR; lia).
  destruct (Req_dec_T (INR (length flat) - 1) 0) as [E|_]; [lra|].
  eexists; split; [reflexivity|].
  apply sqrt_lt_R0. apply Rdiv_lt_0_compat; lra.
Qed.

(** *** One entry *)

Lemma MAP_entry_zero_std (top25 s : R) : MAP_entry (Some 0) top25 s = None.
Proof.
  unfold MAP_entry, fdiv.
  destruct (Req_dec_T (0 / 12) 0) as [_|Hn]; [reflexivity|].
  exfalso. apply Hn. lra.
Qed.

Lemma MAP_entry_value (sd top25 s : R) :
  0 < sd ->
  MAP_entry (Some sd) top25 s
  = Some (100 / (1 + exp (- (s - top25) / (sd / 12)))).
Proof.
  intros Hsd. unfold MAP_entry, fdiv.
  destruct (Req_dec_T (sd / 12) 0) as [E|_]; [lra | reflexivity].
Qed.

Lemma sigmoid_bounds (x : R) : 0 < 100 / (1 + exp x) < 100.
Proof.
  pose proof (exp_pos x) as Hx. split.
  - apply Rdiv_lt_0_compat; lra.
  - apply (Rmult_lt_reg_r (1 + exp x)); [lra|].
    unfold Rdiv. rewrite Rmult_assoc, Rinv_l by lra. lra.
Qed.

Lemma sigmoid_decreasing (x y : R) :
  x < y -> 100 / (1 + exp y) < 100 / (1 + exp x).
Proof.
  intros Hxy. pose proof (exp_pos x). pose proof (exp_increasing x y Hxy).
  unfold Rdiv. apply Rmult_lt_compat_l; [lra|].
  apply Rinv_lt_contravar; nra.
Qed.

(** With a positive standard deviation, [MAP] is an increasing map into the
    open interval from 0 to 100. *)
Lemma MAP_non_degenerate (similarity : matrix R) (a b : R) :
  (20 <= length similarity)%nat ->
  Forall (fun row => row <> []) similarity ->
  In a (concat similarity) -> In b (concat similarity) -> a <> b ->
  exists g : R -> R,
    MAP similarity = Done (map (map (fun s => Some (g s))) similarity) /\
    (forall s, 0 < g s < 100) /\
    (forall s1 s2, s1 < s2 -> g s1 < g s2).
Proof.
  intros Hlen Hrows Ha Hb Hab.
  destruct (MAP_returns similarity Hlen Hrows) as (top25 & ->).
  destruct (tensor_std_pos similarity a b Ha Hb Hab) as (sd & -> & Hsd).
  exists (fun s => 100 / (1 + exp (- (s - top25) / (sd / 12)))).
  split; [|split].
  - f_equal. apply map_ext. intros row. apply map_ext. intros s.
    now apply MAP_entry_value.
  - intros s. apply sigmoid_bounds.
  - intros s1 s2 Hs. apply sigmoid_decreasing.
    unfold Rdiv. apply Rmult_lt_compat_r; [|lra].
    apply Rinv_0_lt_compat. lra.
Qed.

Local Close Scope R_scope.

(** * The claims about [extract_patches_rect] *)

(** C4. Every patch returned by [extract_patches_rect] is a
    [patch_size] by [patch_size] crop of the padded image; the padded width
    and height are the least multiples of [patch_size] that are not smaller
    than the width and the height of the image, and the padding of each axis
    is split between its two sides as evenly as possible.  When the image is
    not empty the crops lie inside the padded image. *)
Theorem extract_patches_rect_patch_geometry (im : image) (ps ppr ppc : Z)
  (patches : list image) (sx sy pw ph : Z) :
  extract_patches_rect im ps ppr ppc = Done (patches, sx, sy, pw, ph) ->
  exists (padded : image) (b_left b_top b_right b_bottom : Z),
    ImageOps_expand im (b_left, b_top, b_right, b_bottom) = Done padded /\
    size padded = (pw, ph) /\
    even_split b_left b_right (pw - im_width im) /\
    even_split b_top b_bottom (ph - im_height im) /\
    least_multiple_geq ps (im_width im) pw /\
    least_multiple_geq ps (im_height im) ph /\
    Forall (fun p =>
              size p = (ps, ps) /\
              exists x y,
                crop padded (x, y, x + ps, y + ps) = Done p /\
                (1 <= im_width im -> 0 <= x /\ x + ps <= pw) /\
                (1 <= im_height im -> 0 <= y /\ y + ps <= ph))
           patches.
Proof.
  intros H.
  pose proof (extract_patches_rect_facts _ _ _ _ _ _ _ _ _ H)
    as (Hps & Hpw & Hph & _ & _ & Hsx & Hsy & Hsx0 & Hsy0 & Hnx & Hny & _).
  apply extract_patches_rect_Done in H
    as (padded & Hpad & Ew & Eh & _ & _ & _ & _ & _ & Hcrop).
  pose proof (pad_image_Done _ _ _ Hpad) as (_ & _ & Hexp).
  pose proof (crop_patches_Done _ _ _ _ _ Hcrop) as (_ & _ & _ & Hall).
  rewrite <- Ew, <- Eh in Hall.
  pose proof (Z.mod_pos_bound (ps - im_width im mod ps) ps Hps) as Hpx.
  pose proof (Z.mod_pos_bound (ps - im_height im mod ps) ps Hps) as Hpy.
  exists padded. eexists _, _, _, _. split; [exact Hexp|].
  split; [unfold size; congruence|].
  split.
  { replace (pw - im_width im) with ((ps - im_width im mod ps) mod ps)
      by (rewrite Hpw; unfold padded_dim; lia).
    apply padding_border_even. lia. }
  split.
  { replace (ph - im_height im) with ((ps - im_height im mod ps) mod ps)
      by (rewrite Hph; unfold padded_dim; lia).
    apply padding_border_even. lia. }
  split; [rewrite Hpw; now apply padded_dim_least_multiple|].
  split; [rewrite Hph; now apply padded_dim_least_multiple|].
  eapply Forall_impl; [|exact Hall]. cbv beta.
  intros p (x & y & Hx & Hy & Hc).
  split; [apply crop_Done in Hc as (_ & _ & ->); f_equal; lia|].
  exists x, y. split; [assumption|]. split.
  - intros Hw.
    destruct (stride_positive (im_width im) ps ppr sx Hps Hw Hsx0)
      as (Hs & _ & _); [congruence | congruence |].
    apply range_elems_spec in Hx; lia.
  - intros Hh.
    destruct (stride_positive (im_height im) ps ppc sy Hps Hh Hsy0)
      as (Hs & _ & _); [congruence | congruence |].
    apply range_elems_spec in Hy; lia.
Qed.

(** The theorem at [small_frame]: four 2 by 2 patches of the 4 by 4 padded
    image. *)
Lemma extract_patches_rect_patch_geometry_witness :
  extract_patches_rect small_frame 2 2 2
  = Done (small_frame_patches, 2, 2, 4, 4) /\
  exists (padded : image) (b_left b_top b_right b_bottom : Z),
    ImageOps_expand small_frame (b_left, b_top, b_right, b_bottom) = Done padded /\
    size padded = (4, 4) /\
    even_split b_left b_right (4 - im_width small_frame) /\
    even_split b_top b_bottom (4 - im_height small_frame) /\
    least_multiple_geq 2 (im_width small_frame) 4 /\
    least_multiple_geq 2 (im_height small_frame) 4 /\
    Forall (fun p =>
              size p = (2, 2) /\
              exists x y,
                crop padded (x, y, x + 2, y + 2) = Done p /\
                (1 <= im_width small_frame -> 0 <= x /\ x + 2 <= 4) /\
                (1 <= im_height small_frame -> 0 <= y /\ y + 2 <= 4))
           small_frame_patches.
Proof.
  split; [vm_compute; reflexivity|].
  apply (extract_patches_rect_patch_geometry small_frame 2 2 2
           small_frame_patches 2 2 4 4).
  vm_compute; reflexivity.
Defined.

(** Along one axis of the pipeline's grid ([patch_size = 128], one patch per
    32 pixels), a stride that yields at least one position is positive and
    smaller than the patch. *)
Lemma default_stride_bounds (dim stride : Z) :
  stride <> 0 ->
  stride = (padded_dim dim 128 - 128) / (dim / 32 - 1) ->
  range_elems 0 (padded_dim dim 128 - 128 + 1) stride <> [] ->
  1 <= stride < 128.
Proof.
  intros Hs Hdef Hne.
  destruct (padded_dim_least_multiple dim 128 ltac:(lia))
    as ((k & Hk) & Hle & Hleast).
  assert (Hlt : padded_dim dim 128 - 128 < dim).
  { destruct (Z_lt_le_dec (padded_dim dim 128 - 128) dim) as [|Hge];
      [assumption|].
    specialize (Hleast (padded_dim dim 128 - 128)
                  ltac:(exists (k - 1); lia) Hge). lia. }
  pose proof (Z.div_mod dim 32 ltac:(lia)) as Hdm.
  pose proof (Z.mod_pos_bound dim 32 ltac:(lia)) as Hmb.
  destruct (range_elems_nonempty _ _ Hs Hne) as [(Hpos & Hstop & _)|(Hneg & Hstop)].
  - assert (Hd : 0 < dim / 32 - 1).
    { destruct (Z_lt_le_dec 0 (dim / 32 - 1)) as [|Hd]; [assumption|].
      destruct (Z.eq_dec (dim / 32 - 1) 0) as [E|E].
      - rewrite E, Z.div_0_r in Hdef. lia.
      - assert ((padded_dim dim 128 - 128) / (dim / 32 - 1) <= 0); [|lia].
        rewrite <- Z.div_opp_opp by lia.
        apply Z.div_le_upper_bound; lia. }
    assert (Hge : dim / 32 - 1 <= padded_dim dim 128 - 128).
    { destruct (Z_lt_le_dec (padded_dim dim 128 - 128) (dim / 32 - 1));
        [|assumption].
      rewrite Z.div_small in Hdef by lia. lia. }
    split; [lia|]. rewrite Hdef.
    apply Z.div_lt_upper_bound; lia.
  - exfalso.
    assert (k <= 0) by lia.
    assert (dim / 32 <= 0) by (apply Z.div_le_upper_bound; lia).
    assert (0 <= (padded_dim dim 128 - 128) / (dim / 32 - 1)); [|lia].
    rewrite <- Z.div_opp_opp by lia. apply Z.div_pos; lia.
Qed.

(** What [frame_patches] returns is what [extract_patches_rect] returns for
    128-pixel patches, one per 32 pixels. *)
Lemma frame_patches_Done (im : image) (r : list image * Z * Z * Z * Z) :
  frame_patches im = Done r ->
  extract_patches_rect im 128 (im_width im / 32) (im_height im / 32) = Done r.
Proof.
  unfold frame_patches, size, py_floordiv, FrameArgs.patch_size,
    FrameArgs.downscale.
  change (32 =? 0) with false. cbv iota. cbn [bind]. auto.
Qed.

(** C5. Under the default [FrameArgs] the patches of a frame overlap along
    both axes: the strides are positive and smaller than the patch size. *)
Theorem pipeline_patches_overlap (im : image) (patches : list image)
  (sx sy pw ph : Z) :
  frame_patches im = Done (patches, sx, sy, pw, ph) ->
  1 <= sx < FrameArgs.patch_size /\ 1 <= sy < FrameArgs.patch_size.
Proof.
  intros H. apply frame_patches_Done in H.
  apply extract_patches_rect_facts in H
    as (_ & Hpw & Hph & _ & _ & Hsx & Hsy & Hsx0 & Hsy0 & Hnx & Hny & _).
  subst pw ph. unfold FrameArgs.patch_size. split.
  - apply (default_stride_bounds (im_width im)); assumption.
  - apply (default_stride_bounds (im_height im)); assumption.
Qed.

(** The theorem at a 129 by 129 frame: 16 patches with stride 42. *)
Lemma pipeline_patches_overlap_witness :
  frame_patches frame_129 = Done (frame_129_patches, 42, 42, 256, 256) /\
  1 <= 42 < FrameArgs.patch_size /\ 1 <= 42 < FrameArgs.patch_size.
Proof.
  split; [vm_compute; reflexivity|].
  apply (pipeline_patches_overlap frame_129 frame_129_patches 42 42 256 256).
  vm_compute; reflexivity.
Defined.

(** C8. When [extract_patches_rect] returns with strides of at least 1, the
    number of patches is [new_w * new_h], the grid size that the callers
    compute as [(padded - patch_size) // stride + 1] along each axis; a
    similarity tensor with one row per patch and one column is therefore
    reshaped to [(new_h, new_w)] without error. *)
Theorem patch_count_is_grid_size (im : image) (ps ppr ppc : Z)
  (patches : list image) (sx sy pw ph : Z) :
  extract_patches_rect im ps ppr ppc = Done (patches, sx, sy, pw, ph) ->
  1 <= sx -> 1 <= sy ->
  exists new_w new_h,
    grid_dim pw ps sx = Done new_w /\ grid_dim ph ps sy = Done new_h /\
    new_w = (pw - ps) / sx + 1 /\ new_h = (ph - ps) / sy + 1 /\
    Z.of_nat (length patches) = new_w * new_h /\
    forall (A : Type) (similarity : list (list A)),
      has_shape similarity (length patches) 1 ->
      exists heat,
        reshape similarity new_h new_w = Done heat /\
        Z.of_nat (length heat) = new_h /\
        Forall (fun row => Z.of_nat (length row) = new_w) heat /\
        concat heat = concat similarity.
Proof.
  intros H Hsx Hsy.
  apply extract_patches_rect_facts in H
    as (Hps & _ & _ & _ & _ & _ & _ & _ & _ & Hnx & Hny & Hlen).
  pose proof (grid_positions_count pw ps sx Hsx Hnx) as Hcx.
  pose proof (grid_positions_count ph ps sy Hsy Hny) as Hcy.
  exists ((pw - ps) / sx + 1), ((ph - ps) / sy + 1).
  unfold grid_dim, py_floordiv.
  destruct (Z.eqb_spec sx 0); [lia|]. destruct (Z.eqb_spec sy 0); [lia|].
  cbn [bind]. repeat split; try reflexivity.
  - rewrite Hlen. lia.
  - intros A similarity [Hrows Hcols].
    apply reshape_fits; try lia.
    rewrite (concat_length_const similarity 1 Hcols), Hrows, Hlen. lia.
Qed.

(** The theorem at [small_frame]: four patches on a 2 by 2 grid. *)
Lemma patch_count_is_grid_size_witness :
  extract_patches_rect small_frame 2 2 2
  = Done (small_frame_patches, 2, 2, 4, 4) /\ 1 <= 2 /\ 1 <= 2 /\
  exists new_w new_h,
    grid_dim 4 2 2 = Done new_w /\ grid_dim 4 2 2 = Done new_h /\
    new_w = (4 - 2) / 2 + 1 /\ new_h = (4 - 2) / 2 + 1 /\
    Z.of_nat (length small_frame_patches) = new_w * new_h /\
    forall (A : Type) (similarity : list (list A)),
      has_shape similarity (length small_frame_patches) 1 ->
      exists heat,
        reshape similarity new_h new_w = Done heat /\
        Z.of_nat (length heat) = new_h /\
        Forall (fun row => Z.of_nat (length row) = new_w) heat /\
        concat heat = concat similarity.
Proof.
  split; [vm_compute; reflexivity|]. split; [lia|]. split; [lia|].
  apply (patch_count_is_grid_size small_frame 2 2 2 small_frame_patches 2 2 4 4);
    [vm_compute; reflexivity | lia | lia].
Defined.

(** C9, the claim as stated fails: padded sides that exceed the patch size
    do not make the strides positive.  A 129 by 129 image padded to 256 by
    256 for patches of 128, asked for 200 patches per row, gets the stride
    [128 // 199 = 0] and [range] raises [ValueError]. *)
Lemma zero_stride_although_padded_exceeds_patch :
  (exists padded, pad_image frame_129 128 = Done padded /\
                  size padded = (256, 256)) /\
  128 < 256 /\ 2 <= 200 /\ 2 <= 2 /\
  py_floordiv (256 - 128) (200 - 1) = Done 0 /\
  extract_patches_rect frame_129 128 200 2 = Raise ValueError.
Proof.
  split; [eexists; split; [vm_compute; reflexivity | reflexivity]|].
  repeat split; try lia; vm_compute; reflexivity.
Qed.

(** C9, amended.  For a non-empty image and a positive patch size,
    [extract_patches_rect] returns exactly when both patch counts are at
    least 2 and both computed strides are at least 1.  A stride is at least
    1 exactly when the padded side exceeds the patch size by at least the
    patch count minus one (which makes the padded side larger than the patch
    size, but is not implied by that).  With one patch per row the function
    raises [ZeroDivisionError]; when the padded width equals the patch size
    it does not return. *)
Theorem extract_patches_rect_total_iff (im : image) (ps ppr ppc : Z) :
  0 < ps -> 1 <= im_width im -> 1 <= im_height im ->
  let pw := padded_dim (im_width im) ps in
  let ph := padded_dim (im_height im) ps in
  (returns (extract_patches_rect im ps ppr ppc) <->
   2 <= ppr /\ 2 <= ppc /\
   1 <= (pw - ps) / (ppr - 1) /\ 1 <= (ph - ps) / (ppc - 1)) /\
  (2 <= ppr -> (1 <= (pw - ps) / (ppr - 1) <-> ppr - 1 <= pw - ps)) /\
  (2 <= ppc -> (1 <= (ph - ps) / (ppc - 1) <-> ppc - 1 <= ph - ps)) /\
  (1 <= (pw - ps) / (ppr - 1) -> 2 <= ppr -> ps < pw) /\
  (1 <= (ph - ps) / (ppc - 1) -> 2 <= ppc -> ps < ph) /\
  (ppr = 1 -> extract_patches_rect im ps ppr ppc = Raise ZeroDivisionError) /\
  (pw = ps -> ~ returns (extract_patches_rect im ps ppr ppc)).
Proof.
  intros Hps Hw Hh pw ph.
  assert (Hdiv : forall a d, 1 <= d -> (1 <= a / d <-> d <= a)).
  { intros a d Hd. split; intros Ha.
    - destruct (Z_lt_le_dec a d) as [Hlt|]; [|assumption].
      destruct (Z_lt_le_dec a 0) as [Hneg|Hnn].
      + assert (a / d < 0) by (apply Z.div_lt_upper_bound; lia). lia.
      + rewrite Z.div_small in Ha by lia. lia.
    - apply Z.div_le_lower_bound; lia. }
  destruct (pad_image_returns im ps Hps ltac:(lia) ltac:(lia)) as (padded & Hpad).
  pose proof (pad_image_Done _ _ _ Hpad) as (_ & Hsize & _).
  unfold size in Hsize.
  assert (Epw : im_width padded = pw) by (unfold pw; congruence).
  assert (Eph : im_height padded = ph) by (unfold ph; congruence).
  split; [split|].
  - intros (r & H). destruct r as [[[[patches sx] sy] pw'] ph'].
    pose proof (extract_patches_rect_facts _ _ _ _ _ _ _ _ _ H)
      as (_ & Hpw & Hph & _ & _ & Hsx & Hsy & Hsx0 & Hsy0 & Hnx & Hny & _).
    subst pw' ph'. fold pw in Hsx, Hnx. fold ph in Hsy, Hny.
    destruct (stride_positive (im_width im) ps ppr sx Hps Hw Hsx0 Hsx Hnx)
      as (? & _ & ?).
    destruct (stride_positive (im_height im) ps ppc sy Hps Hh Hsy0 Hsy Hny)
      as (? & _ & ?).
    subst sx sy. auto.
  - intros (Hppr & Hppc & Hsx & Hsy).
    unfold extract_patches_rect. rewrite Hpad. cbn [bind]. unfold size.
    rewrite Epw, Eph. unfold py_floordiv.
    destruct (Z.eqb_spec (ppr - 1) 0); [lia|].
    destruct (Z.eqb_spec (ppc - 1) 0); [lia|]. cbn [bind].
    set (sx := (pw - ps) / (ppr - 1)) in *.
    set (sy := (ph - ps) / (ppc - 1)) in *.
    destruct (crop_patches_returns padded ps sx sy) as (patches & Hcrop);
      try lia.
    rewrite Hcrop. cbn [bind].
    pose proof (crop_patches_Done _ _ _ _ _ Hcrop) as (_ & _ & Hlen & _).
    rewrite Epw, Eph, !range_elems_length in Hlen.
    assert (Hx : ppr - 1 <= pw - ps)
      by (apply (proj1 (Hdiv (pw - ps) (ppr - 1) ltac:(lia))); exact Hsx).
    assert (Hy : ppc - 1 <= ph - ps)
      by (apply (proj1 (Hdiv (ph - ps) (ppc - 1) ltac:(lia))); exact Hsy).
    assert (Hnx : 1 <= range_length 0 (pw - ps + 1) sx).
    { unfold range_length.
      destruct (Z.ltb_spec 0 sx); [|lia].
      destruct (Z.ltb_spec 0 (pw - ps + 1)); [|lia].
      assert (0 <= (pw - ps + 1 - 1 - 0) / sx) by (apply Z.div_pos; lia). lia. }
    assert (Hny : 1 <= range_length 0 (ph - ps + 1) sy).
    { unfold range_length.
      destruct (Z.ltb_spec 0 sy); [|lia].
      destruct (Z.ltb_spec 0 (ph - ps + 1)); [|lia].
      assert (0 <= (ph - ps + 1 - 1 - 0) / sy) by (apply Z.div_pos; lia). lia. }
    destruct patches as [|p patches]; [simpl in Hlen; nia|].
    eexists; reflexivity.
  - split; [intros; apply Hdiv; lia|].
    split; [intros; apply Hdiv; lia|].
    split.
    { intros Hs Hp.
      pose proof (proj1 (Hdiv (pw - ps) (ppr - 1) ltac:(lia)) Hs). lia. }
    split.
    { intros Hs Hp.
      pose proof (proj1 (Hdiv (ph - ps) (ppc - 1) ltac:(lia)) Hs). lia. }
    split.
    + intros ->. unfold extract_patches_rect. rewrite Hpad. reflexivity.
    + intros E (r & H). destruct r as [[[[patches sx] sy] pw'] ph'].
      pose proof (extract_patches_rect_facts _ _ _ _ _ _ _ _ _ H)
        as (_ & Hpw & _ & Hppr & _ & Hsx & _ & Hsx0 & _).
      subst pw'. fold pw in Hsx.
      rewrite E, Z.sub_diag, Z.div_0_l in Hsx by lia.
      contradiction.
Qed.

(** The theorem at [small_frame], two patches per row and per column. *)
Lemma extract_patches_rect_total_iff_witness :
  0 < 2 /\ 1 <= im_width small_frame /\ 1 <= im_height small_frame /\
  returns (extract_patches_rect small_frame 2 2 2).
Proof.
  split; [lia|]. split; [simpl; lia|]. split; [simpl; lia|].
  apply (extract_patches_rect_total_iff small_frame 2 2 2);
    [lia | simpl; lia | simpl; lia |].
  vm_compute. repeat split; discriminate.
Defined.

(** * The claims about the scoring *)

(** C1. In the scoring part of [process_frames], the score of the patch
    with feature [e], before [MAP], is its query term minus [lambda_] times
    [SCALE_AUDIO_IMAGE] times the mean inner product of [e] with the 40
    sampled negatives.  The query term is [SCALE_AUDIO_IMAGE] times the inner
    product of [e] with the query; under supervision it is the average of
    that and of the mean similarity to the supervision features, scaled by
    [SCALE_IMAGE_TEXT]. *)
Theorem process_frames_patch_score {T : Type} `{Scalar T}
  (rnd : nat -> nat) (fuel t : nat) (embedding : matrix T) (q : vec T)
  (supervision_feature : option (matrix T)) (lambda_ : T)
  (similarity : matrix T) (t' N D : nat) :
  has_shape embedding N D -> (1 <= D)%nat -> length q = D ->
  (forall s, supervision_feature = Some s ->
             exists M, has_shape s M D /\ (1 <= M)%nat) ->
  frame_similarity rnd fuel t embedding [q] supervision_feature lambda_
  = Done (similarity, t') ->
  exists threshold negatives,
    quantile (matmul embedding (transpose [q])) 7 10 = Done threshold /\
    negative_sample rnd fuel t [q] embedding 40 threshold
    = Done (negatives, t') /\
    length negatives = 40%nat /\
    forall i e,
      nth_error embedding i = Some e ->
      nth_error similarity i
      = Some [ssub
                (match supervision_feature with
                 | None => smul SCALE_AUDIO_IMAGE (dot e q)
                 | Some s =>
                   sdiv (sadd (smul SCALE_AUDIO_IMAGE (dot e q))
                              (mean (map (dot (scale_vec SCALE_IMAGE_TEXT e)) s)))
                        (of_Z 2)
                 end)
                (smul lambda_
                   (smul SCALE_AUDIO_IMAGE
                      (sdiv (sum (map (dot e) negatives)) (of_Z 40))))].
Proof.
  intros Hemb HD Hq Hsup Hf.
  destruct (frame_similarity_Done rnd fuel t embedding q supervision_feature
              lambda_ similarity t' N D Hemb HD Hq Hsup Hf)
    as (threshold & negatives & Hthr & Hneg & ->).
  assert (Hqne : q <> []) by (destruct q; [simpl in Hq; lia | discriminate]).
  pose proof (negative_sample_Done rnd q embedding threshold Hqne _ _ _ _ _ Hneg)
    as [Hlen _].
  exists threshold, negatives. repeat split; try assumption.
  intros i e He. rewrite (map_nth_error _ _ _ He).
  unfold mean, query_term, vec, matrix in *.
  rewrite length_map, Hlen. reflexivity.
Qed.

(** The theorem at [two_patches], every draw returning patch 1. *)
Lemma process_frames_patch_score_witness :
  has_shape two_patches 2 2 /\ (1 <= 2)%nat /\ length [1; 0]%Q = 2%nat /\
  frame_similarity always_second 1 0 two_patches [[1; 0]%Q] None (decimal 2 1)
  = Done (two_patches_scores, 40%nat) /\
  exists threshold negatives,
    quantile (matmul two_patches (transpose [[1; 0]%Q])) 7 10 = Done threshold /\
    negative_sample always_second 1 0 [[1; 0]%Q] two_patches 40 threshold
    = Done (negatives, 40%nat) /\
    length negatives = 40%nat /\
    forall i e,
      nth_error two_patches i = Some e ->
      nth_error two_patches_scores i
      = Some [ssub (smul SCALE_AUDIO_IMAGE (dot e [1; 0]%Q))
                (smul (decimal 2 1)
                   (smul SCALE_AUDIO_IMAGE
                      (sdiv (sum (map (dot e) negatives)) (of_Z 40))))].
Proof.
  assert (Hshape : has_shape two_patches 2 2)
    by (split; [reflexivity | repeat constructor]).
  split; [exact Hshape|]. split; [lia|]. split; [reflexivity|].
  split; [vm_compute; reflexivity|].
  apply (process_frames_patch_score always_second 1 0 two_patches [1; 0]%Q
           None (decimal 2 1) two_patches_scores 40 2 2);
    [exact Hshape | lia | reflexivity | discriminate | vm_compute; reflexivity].
Defined.

(** C2. Whenever [negative_sample] returns for [k >= 1], it returns exactly
    [k] vectors; each is a row of the embedding matrix whose inner product
    with the source feature is strictly below the threshold. *)
Theorem negative_sample_rows_below_threshold {T : Type} `{Scalar T}
  (rnd : nat -> nat) (fuel t : nat) (q : vec T) (embedding : matrix T)
  (k : nat) (threshold : T) (negatives : matrix T) (t' : nat) :
  OrderedScalar T -> q <> [] -> (1 <= k)%nat ->
  negative_sample rnd fuel t [q] embedding k threshold = Done (negatives, t') ->
  length negatives = k /\
  Forall (fun v => In v embedding /\ slt (dot v q) threshold) negatives.
Proof.
  intros Hord Hq _ Hs.
  destruct (negative_sample_Done rnd q embedding threshold Hq _ _ _ _ _ Hs)
    as [Hlen Hall].
  split; [assumption|].
  eapply Forall_impl; [|exact Hall]. cbv beta.
  intros v [Hin Hrej]. split; [assumption | now apply Hord].
Qed.

(** The theorem at [two_patches] with [k = 3] and the threshold 7/10. *)
Lemma negative_sample_rows_below_threshold_witness :
  OrderedScalar Q /\ [1; 0]%Q <> [] /\ (1 <= 3)%nat /\
  negative_sample always_second 1 0 [[1; 0]%Q] two_patches 3 (7 # 10)%Q
  = Done ([[0; 1]; [0; 1]; [0; 1]]%Q, 3%nat) /\
  length [[0; 1]; [0; 1]; [0; 1]]%Q = 3%nat /\
  Forall (fun v => In v two_patches /\ slt (dot v [1; 0]%Q) (7 # 10)%Q)
         [[0; 1]; [0; 1]; [0; 1]]%Q.
Proof.
  split; [exact Q_ordered|]. split; [discriminate|]. split; [lia|].
  split; [vm_compute; reflexivity|].
  apply (negative_sample_rows_below_threshold always_second 1 0 [1; 0]%Q
           two_patches 3 (7 # 10)%Q [[0; 1]; [0; 1]; [0; 1]]%Q 3);
    [exact Q_ordered | discriminate | lia | vm_compute; reflexivity].
Defined.

(** C6, the claim as stated fails.  The frame [two_patches] queried along
    its first axis has the similarities 1 and 0 and the 0.7-quantile 7/10;
    on the stream that always draws patch 0, whose similarity 1 is not below
    the threshold, the rejection loop runs out of any amount of fuel, and so
    does the scoring of the frame. *)
Lemma negative_sample_diverges_on_rejected_draws :
  exists threshold : Q,
    quantile (matmul two_patches (transpose first_axis)) 7 10 = Done threshold /\
    (threshold == 7 # 10)%Q /\
    (forall fuel,
       negative_sample always_first fuel 0 first_axis two_patches 40 threshold
       = OutOfFuel) /\
    (forall fuel,
       frame_similarity always_first fuel 0 two_patches first_axis None
         (decimal 2 1) = OutOfFuel).
Proof.
  eexists. split; [vm_compute; reflexivity|].
  split; [vm_compute; reflexivity|].
  assert (Hdiv : forall fuel,
            negative_sample always_first fuel 0 first_axis two_patches 40
              (0 + (7 # 10) * (1 - 0))%Q = OutOfFuel).
  { intros fuel.
    apply (negative_sample_diverges always_first [1; 0]%Q two_patches);
      try discriminate; try lia.
    intros s _. vm_compute. reflexivity. }
  split.
  - intros fuel. etransitivity; [|apply (Hdiv fuel)]. f_equal.
  - intros fuel. unfold frame_similarity.
    change (quantile (matmul two_patches (transpose first_axis)) 7 10)
      with (Done (0 + (7 # 10) * (1 - 0))%Q) at 1.
    cbn [bind]. now rewrite Hdiv.
Qed.

(** When all the patches of a frame are equally similar to the query, no
    row is below the quantile and the loop diverges on every stream. *)
Lemma negative_sample_diverges_on_constant_frame (rnd : nat -> nat) (fuel : nat) :
  frame_similarity rnd fuel 0 twin_patches first_axis None (decimal 2 1)
  = OutOfFuel.
Proof.
  unfold frame_similarity.
  change (quantile (matmul twin_patches (transpose first_axis)) 7 10)
    with (Done (1 + (7 # 10) * (1 - 1))%Q) at 1.
  cbn [bind].
  rewrite (negative_sample_diverges rnd [1; 0]%Q twin_patches);
    try reflexivity; try discriminate; try lia.
  intros s _. unfold accepts. cbn [twin_patches length].
  assert (Hs : (rnd s mod 2 < 2)%nat) by (apply Nat.mod_upper_bound; lia).
  destruct (rnd s mod 2)%nat as [|[|n]]; [reflexivity | reflexivity | lia].
Qed.

(** C6, amended.  [negative_sample], called with [k = 40] and the
    0.7-quantile of the frame's similarities, returns within [n] iterations
    of each of its loops on every stream whose next [n] draws hit rows
    below the threshold at least 40 times. *)
Theorem negative_sample_terminates_when_accepted {T : Type} `{Scalar T}
  (rnd : nat -> nat) (q : vec T) (embedding : matrix T) (threshold : T)
  (t n : nat) :
  q <> [] ->
  quantile (matmul embedding (transpose [q])) 7 10 = Done threshold ->
  (40 <= accepted_draws rnd q embedding threshold t n)%nat ->
  exists negatives t',
    negative_sample rnd n t [q] embedding 40 threshold = Done (negatives, t').
Proof.
  intros Hq Hthr Hacc.
  assert (Hne : embedding <> []) by (intros ->; discriminate).
  destruct (negative_sample_returns rnd q embedding threshold Hq 40 n t Hne
              ltac:(lia) Hacc) as ([negatives t'] & Hs).
  now exists negatives, t'.
Qed.

(** The theorem at [two_patches] on the stream that always draws patch 1,
    whose similarity 0 is below the quantile 7/10. *)
Lemma negative_sample_terminates_when_accepted_witness :
  [1; 0]%Q <> [] /\
  quantile (matmul two_patches (transpose [[1; 0]%Q])) 7 10
  = Done (0 + (7 # 10) * (1 - 0))%Q /\
  (40 <= accepted_draws always_second [1; 0]%Q two_patches
           (0 + (7 # 10) * (1 - 0))%Q 0 40)%nat /\
  exists negatives t',
    negative_sample always_second 40 0 [[1; 0]%Q] two_patches 40
      (0 + (7 # 10) * (1 - 0))%Q = Done (negatives, t').
Proof.
  split; [discriminate|]. split; [vm_compute; reflexivity|].
  split; [vm_compute; lia|].
  apply (negative_sample_terminates_when_accepted always_second [1; 0]%Q
           two_patches (0 + (7 # 10) * (1 - 0))%Q 0 40);
    [discriminate | vm_compute; reflexivity | vm_compute; lia].
Defined.

(** * The claims about the features and the heat map *)

Local Open Scope R_scope.

(** C7. The model being a function of one image, the embedding stage of
    [get_frame_embeddings] embeds each patch independently: two patch lists
    of equal length that hold the same patch at index [i] get the same
    normalised feature at index [i], which is the feature of that patch taken
    alone. *)
Theorem embed_patches_independent (image_transforms : image -> image)
  (encode_image : image -> vec R) (patches1 patches2 : list image)
  (i : nat) (p : image) :
  length patches1 = length patches2 ->
  nth_error patches1 i = Some p -> nth_error patches2 i = Some p ->
  exists features1 features2,
    embed_patches image_transforms encode_image patches1 = Done features1 /\
    embed_patches image_transforms encode_image patches2 = Done features2 /\
    nth_error features1 i = nth_error features2 i /\
    nth_error features1 i
    = Some (patch_feature image_transforms encode_image p).
Proof.
  intros _ H1 H2.
  assert (Hne1 : patches1 <> []) by (intros ->; destruct i; discriminate).
  assert (Hne2 : patches2 <> []) by (intros ->; destruct i; discriminate).
  rewrite (embed_patches_map _ _ _ Hne1), (embed_patches_map _ _ _ Hne2).
  eexists _, _. split; [reflexivity|]. split; [reflexivity|].
  rewrite (map_nth_error _ _ _ H1), (map_nth_error _ _ _ H2). auto.
Qed.

(** The theorem at two lists that share their first patch. *)
Lemma embed_patches_independent_witness :
  length [small_frame; frame_129] = length [small_frame; gradient 5 5] /\
  nth_error [small_frame; frame_129] 0 = Some small_frame /\
  nth_error [small_frame; gradient 5 5] 0 = Some small_frame /\
  exists features1 features2,
    embed_patches no_transform size_encoder [small_frame; frame_129]
    = Done features1 /\
    embed_patches no_transform size_encoder [small_frame; gradient 5 5]
    = Done features2 /\
    nth_error features1 0 = nth_error features2 0 /\
    nth_error features1 0
    = Some (patch_feature no_transform size_encoder small_frame).
Proof.
  split; [reflexivity|]. split; [reflexivity|]. split; [reflexivity|].
  apply (embed_patches_independent no_transform size_encoder
           [small_frame; frame_129] [small_frame; gradient 5 5] 0 small_frame);
    reflexivity.
Defined.

(** The whole of [get_frame_embeddings]: its features are those of the
    patches of the first frame, one by one. *)
Lemma get_frame_embeddings_features (image_transforms : image -> image)
  (encode_image : image -> vec R) (images imgs : list image)
  (features : matrix R) (new_w new_h : Z) :
  get_frame_embeddings image_transforms encode_image images
  = Done (features, new_w, new_h, imgs) ->
  exists image0 patches sx sy pw ph,
    nth_error images 0 = Some image0 /\
    frame_patches image0 = Done (patches, sx, sy, pw, ph) /\
    features = map (patch_feature image_transforms encode_image) patches.
Proof.
  unfold get_frame_embeddings. intros H.
  inv_bind H as image0 E0. inv_bind H as r Er.
  destruct r as [[[[patches sx] sy] pw] ph].
  inv_bind H as feats Ef. inv_bind H as w Ew. inv_bind H as h Eh.
  assert (Hfeat : features = feats) by (inversion H; reflexivity).
  subst feats. clear H.
  exists image0, patches, sx, sy, pw, ph. repeat split.
  - unfold getitem in E0. destruct (nth_error images 0); now inversion E0.
  - assumption.
  - now apply embed_patches_Done.
Qed.

Lemma patch_features_unit (image_transforms : image -> image)
  (encode_image : image -> vec R) (patches : list image) :
  (forall p, Exists (fun x => x <> 0) (encode_image p)) ->
  unit_rows (map (patch_feature image_transforms encode_image) patches).
Proof.
  intros Hnz. apply Forall_forall. intros row Hrow.
  apply in_map_iff in Hrow as (p & <- & _).
  unfold patch_feature. apply norm_normalized, Hnz.
Qed.

Lemma save_loop_unit (image_transforms : image -> image)
  (encode_image : image -> vec R) (xs : list nat) (images : list image)
  (ppr ppc : Z) (dir dir' : directory) (grid grid' : Z * Z * Z * Z) :
  (forall p, Exists (fun x => x <> 0) (encode_image p)) ->
  (forall x features, dir x = Some features -> unit_rows features) ->
  save_loop image_transforms encode_image xs images ppr ppc dir grid
  = Done (dir', grid') ->
  forall x features, dir' x = Some features -> unit_rows features.
Proof.
  intros Hnz. revert dir grid.
  induction xs as [|x0 xs IH]; intros dir grid Hdir Hs.
  - inversion Hs; subst. exact Hdir.
  - cbn [save_loop] in Hs. inv_bind Hs as im Eim. inv_bind Hs as r Er.
    destruct r as [[[[patches sx] sy] pw] ph].
    inv_bind Hs as feats Ef.
    apply embed_patches_Done in Ef. subst feats.
    eapply IH; [|exact Hs].
    intros x features. unfold torch_save.
    destruct (Nat.eqb x x0).
    + intros E; inversion E; subst. now apply patch_features_unit.
    + apply Hdir.
Qed.

(** C10, the claim as stated fails.  [process_frames] takes its source
    feature as it is given: against the unit feature [(1, 0)], which
    normalisation leaves as it is, the source feature [(2, 0)] has the
    unscaled similarity 2. *)
Lemma similarity_outside_unit_interval :
  normalize_rows [[1; 0]] = [[1 / 1; 0 / 1]] /\
  unit_rows [[1; 0]] /\
  matmul [[1; 0]] (transpose [[2; 0]]) = [[1 * 2 + (0 * 0 + 0)]] /\
  ~ (-1 <= 1 * 2 + (0 * 0 + 0) <= 1).
Proof.
  assert (Hn : norm [1; 0] = 1).
  { unfold norm. rewrite !dot_cons, dot_nil_l.
    replace (1 * 1 + (0 * 0 + 0)) with 1 by lra. apply sqrt_1. }
  split; [rewrite normalize_rows_map; cbn [map]; now rewrite Hn|].
  split; [constructor; [exact Hn | constructor]|].
  split; [|lra].
  rewrite unscaled_similarity_rows by discriminate. reflexivity.
Qed.

(** C10, amended.  If the model gives no patch the zero vector, every
    feature returned by [get_frame_embeddings] and every row of every tensor
    that [save_frame_embeddings] saves has L2 norm 1.  Against such rows an
    unscaled similarity is at most the L2 norm of the source feature in
    absolute value; it lies between -1 and 1 when the source feature has
    norm 1 too. *)
Theorem features_unit_norm_similarity_bounded
  (image_transforms : image -> image) (encode_image : image -> vec R) :
  (forall p, Exists (fun x => x <> 0) (encode_image p)) ->
  (forall images imgs features new_w new_h,
     get_frame_embeddings image_transforms encode_image images
     = Done (features, new_w, new_h, imgs) ->
     unit_rows features) /\
  (forall images imgs num_frames dir dir' new_w new_h,
     save_frame_embeddings image_transforms encode_image images num_frames
       false dir = Done (dir', new_w, new_h, imgs) ->
     forall x features, dir' x = Some features -> unit_rows features) /\
  (forall (embedding : matrix R) (q : vec R),
     unit_rows embedding -> q <> [] ->
     Forall (fun row => exists s, row = [s] /\ Rabs s <= norm q /\
                                  (norm q = 1 -> -1 <= s <= 1))
            (matmul embedding (transpose [q]))).
Proof.
  intros Hnz. split; [|split].
  - intros images imgs features new_w new_h Hg.
    apply get_frame_embeddings_features in Hg
      as (image0 & patches & sx & sy & pw & ph & _ & _ & ->).
    now apply patch_features_unit.
  - intros images imgs num_frames dir dir' new_w new_h Hs.
    unfold save_frame_embeddings in Hs.
    inv_bind Hs as image0 E0. unfold size in Hs.
    inv_bind Hs as ppr Eppr. inv_bind Hs as ppc Eppc.
    inv_bind Hs as r Er. destruct r as [[[[patches sx] sy] pw] ph].
    inv_bind Hs as r' Er'. destruct r' as [dir1 [[[sx1 sy1] pw1] ph1]].
    inv_bind Hs as w Ew. inv_bind Hs as h Eh.
    inversion Hs; subst; clear Hs.
    eapply (save_loop_unit image_transforms encode_image); [exact Hnz| |exact Er'].
    discriminate.
  - intros embedding q Hunit Hq.
    rewrite unscaled_similarity_rows by assumption.
    apply Forall_forall. intros row Hrow.
    apply in_map_iff in Hrow as (e & <- & He).
    exists (dot e q). split; [reflexivity|].
    unfold unit_rows in Hunit. rewrite Forall_forall in Hunit.
    pose proof (dot_abs_le e q) as Hcs. rewrite (Hunit e He), Rmult_1_l in Hcs.
    split; [assumption|].
    intros Hq1. rewrite Hq1 in Hcs.
    unfold Rabs in Hcs. destruct (Rcase_abs (dot e q)); lra.
Qed.

(** The theorem at [size_encoder]: the tensor saved for a 129 by 129 frame
    has unit rows. *)
Lemma features_unit_norm_similarity_bounded_witness :
  (forall p, Exists (fun x => x <> 0) (size_encoder p)) /\
  (forall x features,
     match save_frame_embeddings no_transform size_encoder [frame_129] 1
             false empty_directory with
     | Done (dir', _, _, _) => dir' x = Some features -> unit_rows features
     | _ => False
     end).
Proof.
  assert (Hnz : forall p, Exists (fun x => x <> 0) (size_encoder p)).
  { intros p. unfold size_encoder. apply Exists_cons_tl, Exists_cons_hd. lra. }
  split; [exact Hnz|].
  intros x features.
  pose proof (proj1 (proj2 (features_unit_norm_similarity_bounded
                              no_transform size_encoder Hnz))
                [frame_129]) as Hsave.
  destruct (save_frame_embeddings no_transform size_encoder [frame_129] 1
              false empty_directory) as [[[[dir' w] h] imgs]| |] eqn:E.
  - apply (Hsave imgs 1%nat empty_directory dir' w h E).
  - unfold save_frame_embeddings in E.
    change (getitem [frame_129] 0) with (Done frame_129) in E.
    cbn [bind] in E. unfold size in E.
    change (py_floordiv (im_width frame_129) FrameArgs.downscale)
      with (Done 4%Z) in E.
    change (py_floordiv (im_height frame_129) FrameArgs.downscale)
      with (Done 4%Z) in E.
    cbn [bind] in E. discriminate.
  - discriminate.
Defined.

(** The features of [get_frame_embeddings] are as many as its grid has
    cells, so that a similarity tensor with one row per feature reshapes to
    the grid. *)
Lemma get_frame_embeddings_grid (image_transforms : image -> image)
  (encode_image : image -> vec R) (images imgs : list image)
  (features : matrix R) (new_w new_h : Z) :
  get_frame_embeddings image_transforms encode_image images
  = Done (features, new_w, new_h, imgs) ->
  Z.of_nat (length features) = (new_w * new_h)%Z /\
  forall (A : Type) (similarity : list (list A)),
    has_shape similarity (length features) 1 ->
    returns (reshape similarity new_h new_w).
Proof.
  intros Hg.
  pose proof (get_frame_embeddings_features _ _ _ _ _ _ _ Hg)
    as (image0 & patches & sx & sy & pw & ph & E0 & Ep & ->).
  unfold get_frame_embeddings, getitem in Hg. rewrite E0 in Hg.
  cbn [bind] in Hg. rewrite Ep in Hg. cbn [bind] in Hg.
  inv_bind Hg as feats Ef. inv_bind Hg as w Ew. inv_bind Hg as h Eh.
  assert (w = new_w /\ h = new_h) as [-> ->] by (inversion Hg; auto).
  clear Hg Ef.
  apply frame_patches_Done in Ep.
  apply extract_patches_rect_facts in Ep
    as (_ & Hpw & Hph & _ & _ & Hsx & Hsy & Hsx0 & Hsy0 & Hnx & Hny & Hlen).
  assert (Hbx : (1 <= sx < 128)%Z)
    by (subst pw; apply (default_stride_bounds (im_width image0)); assumption).
  assert (Hby : (1 <= sy < 128)%Z)
    by (subst ph; apply (default_stride_bounds (im_height image0)); assumption).
  pose proof (grid_positions_count pw 128 sx ltac:(lia) Hnx) as Hcx.
  pose proof (grid_positions_count ph 128 sy ltac:(lia) Hny) as Hcy.
  unfold grid_dim, py_floordiv, FrameArgs.patch_size in Ew, Eh.
  destruct (Z.eqb_spec sx 0); [lia|]. destruct (Z.eqb_spec sy 0); [lia|].
  cbn [bind] in Ew, Eh. inversion Ew; inversion Eh; subst new_w new_h.
  rewrite length_map.
  assert (Hcount : Z.of_nat (length patches)
                   = (((pw - 128) / sx + 1) * ((ph - 128) / sy + 1))%Z)
    by (rewrite Hlen; lia).
  split; [assumption|].
  intros A similarity [Hrows Hcols].
  assert (0 <= (pw - 128) / sx + 1)%Z by lia.
  assert (0 <= (ph - 128) / sy + 1)%Z by lia.
  destruct (reshape_fits similarity ((ph - 128) / sy + 1) ((pw - 128) / sx + 1))
    as (heat & Hheat & _); try assumption.
  - rewrite (concat_length_const similarity 1 Hcols), Hrows. lia.
  - now exists heat.
Qed.

(** One frame of [process_frames]: the scores of [frame_similarity] go
    through [MAP] and are reshaped to the grid. *)
Lemma process_frame_Done (rnd : nat -> nat) (fuel t x : nat) (dir : directory)
  (source_feature : matrix R) (new_w new_h : Z)
  (supervision_feature : option (matrix R)) (lambda_ : R)
  (heat : list (list (option R))) (t' : nat) :
  process_frame rnd fuel t dir x source_feature new_w new_h
    supervision_feature lambda_ = Done (heat, t') ->
  exists embedding similarity mapped,
    dir x = Some embedding /\
    frame_similarity rnd fuel t embedding source_feature supervision_feature
      lambda_ = Done (similarity, t') /\
    MAP similarity = Done mapped /\
    reshape mapped new_h new_w = Done heat.
Proof.
  unfold process_frame, torch_load. intros H.
  inv_bind H as embedding E0. inv_bind H as r Er. destruct r as [similarity t1].
  inv_bind H as mapped Em. inv_bind H as shaped Es.
  inversion H; subst; clear H.
  exists embedding, similarity, mapped. repeat split; try assumption.
  destruct (dir x); now inversion E0.
Qed.

(** C3, at a tensor of 20 equal rows, on which [MAP] should return entries
    between 0 and 100: the standard deviation is 0, every exponent is the
    quotient [0 / 0], and no entry is a number. *)
Theorem MAP_constant_tensor_undefined :
  MAP (repeat [0] 20) = Done (repeat [None] 20).
Proof.
  destruct (MAP_returns (repeat [0] 20)) as (top25 & ->).
  - rewrite repeat_length. lia.
  - apply Forall_forall. intros row Hrow.
    apply repeat_spec in Hrow. subst. discriminate.
  - rewrite tensor_std_constant by lia.
    f_equal. rewrite map_repeat. f_equal.
    cbn [map]. now rewrite MAP_entry_zero_std.
Qed.

Local Close Scope R_scope.

(** * Further properties of [extract_patches_rect] *)

Lemma mapM_nth_error {A B : Type} (f : A -> outcome B) (l : list A)
  (r : list B) (i : nat) (x : A) :
  mapM f l = Done r -> nth_error l i = Some x ->
  exists y, nth_error r i = Some y /\ f x = Done y.
Proof.
  intros H. apply mapM_Forall2 in H. revert i.
  induction H as [|x0 y0 l r Hxy _ IH]; intros i Hi.
  - destruct i; discriminate.
  - destruct i as [|i]; simpl in *.
    + inversion Hi; subst. eauto.
    + auto.
Qed.

Lemma nth_error_concat_const {A : Type} (rows : list (list A)) (n j i : nat)
  (row : list A) :
  Forall (fun row => length row = n) rows ->
  nth_error rows j = Some row -> (i < n)%nat ->
  nth_error (concat rows) (j * n + i) = nth_error row i.
Proof.
  intros Hrows. revert j.
  induction Hrows as [|row0 rows Hlen _ IH]; intros j Hj Hi.
  - destruct j; discriminate.
  - destruct j as [|j]; simpl in *.
    + inversion Hj; subst. rewrite nth_error_app1 by lia. reflexivity.
    + rewrite nth_error_app2 by lia.
      replace (n + j * n + i - length row0)%nat with (j * n + i)%nat by lia.
      now apply IH.
Qed.

Lemma range_elems_nth (start stop step : Z) (i : nat) :
  (i < Z.to_nat (range_length start stop step))%nat ->
  nth_error (range_elems start stop step) i = Some (start + Z.of_nat i * step).
Proof.
  intros Hi. unfold range_elems.
  rewrite nth_error_map, nth_error_seq.
  destruct (Nat.ltb_spec i (Z.to_nat (range_length start stop step))); [|lia].
  reflexivity.
Qed.

(** The rows of patches that the nested loops build: one row per [y], each
    as long as the range of [x]. *)
Lemma crop_patches_rows (padded : image) (ps sx sy : Z) (patches : list image) :
  crop_patches padded ps sx sy = Done patches ->
  exists rows,
    patches = concat rows /\
    mapM (fun y =>
            xs <- py_range 0 (im_width padded - ps + 1) sx ;;
            mapM (fun x => crop padded (x, y, x + ps, y + ps)) xs)
         (range_elems 0 (im_height padded - ps + 1) sy) = Done rows /\
    Forall (fun row =>
              length row
              = length (range_elems 0 (im_width padded - ps + 1) sx)) rows.
Proof.
  intros H. unfold crop_patches, size in H.
  inv_bind H as ys Eys. apply py_range_Done in Eys as [_ ->].
  inv_bind H as rows E. inversion H; subst patches; clear H.
  exists rows. split; [reflexivity|]. split; [assumption|].
  apply Forall_forall. intros row Hrow.
  destruct (mapM_In _ _ _ _ E Hrow) as (y & _ & Hf).
  inv_bind Hf as xs Exs. apply py_range_Done in Exs as [_ ->].
  now apply mapM_length in Hf.
Qed.

(** X1. The patches come in row-major order of the grid: when the strides
    are positive, patch number [j * new_w + i] is the crop of the padded
    image whose corner is at [(i * stride_x, j * stride_y)], for every
    column [i < new_w] and row [j < new_h]. *)
Theorem extract_patches_rect_row_major (im : image) (ps ppr ppc : Z)
  (patches : list image) (sx sy pw ph : Z) (i j : nat) :
  extract_patches_rect im ps ppr ppc = Done (patches, sx, sy, pw, ph) ->
  1 <= sx -> 1 <= sy ->
  Z.of_nat i < (pw - ps) / sx + 1 -> Z.of_nat j < (ph - ps) / sy + 1 ->
  exists padded p,
    pad_image im ps = Done padded /\
    nth_error patches (cell_index ((pw - ps) / sx + 1) i j) = Some p /\
    crop padded (Z.of_nat i * sx, Z.of_nat j * sy,
                 Z.of_nat i * sx + ps, Z.of_nat j * sy + ps) = Done p.
Proof.
  intros H Hsx Hsy Hi Hj.
  pose proof (extract_patches_rect_facts _ _ _ _ _ _ _ _ _ H)
    as (_ & _ & _ & _ & _ & _ & _ & _ & _ & Hnx & Hny & _).
  apply extract_patches_rect_Done in H
    as (padded & Hpad & Ew & Eh & _ & _ & _ & _ & _ & Hcrop).
  destruct (crop_patches_rows _ _ _ _ _ Hcrop) as (rows & -> & Hrows & Hlen).
  rewrite <- Ew, <- Eh in *.
  pose proof (grid_positions_count pw ps sx Hsx Hnx) as Hcx.
  pose proof (grid_positions_count ph ps sy Hsy Hny) as Hcy.
  rewrite range_elems_length in Hcx, Hcy.
  assert (Hy : nth_error (range_elems 0 (ph - ps + 1) sy) j
               = Some (0 + Z.of_nat j * sy))
    by (apply range_elems_nth; lia).
  destruct (mapM_nth_error _ _ _ _ _ Hrows Hy) as (row & Hrow & Hf).
  unfold py_range in Hf. destruct (Z.eqb_spec sx 0); [lia|]. cbn [bind] in Hf.
  assert (Hx : nth_error (range_elems 0 (pw - ps + 1) sx) i
               = Some (0 + Z.of_nat i * sx))
    by (apply range_elems_nth; lia).
  destruct (mapM_nth_error _ _ _ _ _ Hf Hx) as (p & Hp & Hc).
  exists padded, p. split; [assumption|]. split.
  - unfold cell_index. rewrite <- Hp.
    rewrite range_elems_length in Hlen.
    replace (Z.to_nat ((pw - ps) / sx + 1))
      with (Z.to_nat (range_length 0 (pw - ps + 1) sx)) by lia.
    apply nth_error_concat_const; [assumption | assumption | lia].
  - rewrite !Z.add_0_l in Hc. exact Hc.
Qed.

(** The theorem at [small_frame], cell (1, 1): patch 3, cut at (2, 2). *)
Lemma extract_patches_rect_row_major_witness :
  extract_patches_rect small_frame 2 2 2
  = Done (small_frame_patches, 2, 2, 4, 4) /\
  exists padded p,
    pad_image small_frame 2 = Done padded /\
    nth_error small_frame_patches (cell_index ((4 - 2) / 2 + 1) 1 1) = Some p /\
    crop padded (Z.of_nat 1 * 2, Z.of_nat 1 * 2,
                 Z.of_nat 1 * 2 + 2, Z.of_nat 1 * 2 + 2) = Done p.
Proof.
  split; [vm_compute; reflexivity|].
  apply (extract_patches_rect_row_major small_frame 2 2 2 small_frame_patches
           2 2 4 4 1 1); [vm_compute; reflexivity | lia | lia | | ];
    vm_compute; reflexivity.
Defined.

(** Along one axis, the patches cover the padded side up to the end of the
    last patch, which leaves out less than one stride. *)
Lemma axis_cover (padded ps stride x : Z) :
  1 <= stride <= ps -> ps <= padded -> 0 <= x < padded ->
  (exists i : nat,
     Z.of_nat i < (padded - ps) / stride + 1 /\
     Z.of_nat i * stride <= x < Z.of_nat i * stride + ps) <->
  x < padded - (padded - ps) mod stride.
Proof.
  intros Hs Hp Hx.
  pose proof (Z.div_mod (padded - ps) stride ltac:(lia)) as Hdm.
  pose proof (Z.mod_pos_bound (padded - ps) stride ltac:(lia)) as Hmb.
  set (n := (padded - ps) / stride) in *.
  set (r := (padded - ps) mod stride) in *.
  assert (Hn : 0 <= n) by (apply Z.div_pos; lia).
  split.
  - intros (i & Hi & Hlo & Hhi). nia.
  - intros Hlt.
    pose proof (Z.div_mod x stride ltac:(lia)) as Hxdm.
    pose proof (Z.mod_pos_bound x stride ltac:(lia)) as Hxmb.
    assert (0 <= x / stride) by (apply Z.div_pos; lia).
    destruct (Z_le_gt_dec (x / stride) n) as [Hle|Hgt].
    + exists (Z.to_nat (x / stride)). rewrite Z2Nat.id by lia. nia.
    + exists (Z.to_nat n). rewrite Z2Nat.id by lia. nia.
Qed.

(** X2. With strides between 1 and the patch size, a pixel of the padded
    image lies in some patch exactly when it is left of
    [padded_width - (padded_width - patch_size) % stride_x] and above
    [padded_height - (padded_height - patch_size) % stride_y]: along each
    axis the grid leaves out the remainder of the last stride, and nothing
    else. *)
Theorem patches_cover_up_to_remainder (im : image) (ps ppr ppc : Z)
  (patches : list image) (sx sy pw ph x y : Z) :
  extract_patches_rect im ps ppr ppc = Done (patches, sx, sy, pw, ph) ->
  1 <= sx <= ps -> 1 <= sy <= ps ->
  0 <= x < pw -> 0 <= y < ph ->
  (exists i j : nat,
     Z.of_nat i < (pw - ps) / sx + 1 /\ Z.of_nat j < (ph - ps) / sy + 1 /\
     in_cell ps sx sy i j x y) <->
  x < pw - (pw - ps) mod sx /\ y < ph - (ph - ps) mod sy.
Proof.
  intros H Hsx Hsy Hx Hy.
  apply extract_patches_rect_facts in H
    as (_ & _ & _ & _ & _ & _ & _ & _ & _ & Hnx & Hny & _).
  destruct (range_elems_nonempty (pw - ps + 1) sx ltac:(lia) Hnx)
    as [(_ & Hpx & _)|(? & _)]; [|lia].
  destruct (range_elems_nonempty (ph - ps + 1) sy ltac:(lia) Hny)
    as [(_ & Hpy & _)|(? & _)]; [|lia].
  pose proof (axis_cover pw ps sx x Hsx ltac:(lia) Hx) as Hax.
  pose proof (axis_cover ph ps sy y Hsy ltac:(lia) Hy) as Hay.
  unfold in_cell. split.
  - intros (i & j & Hi & Hj & Hxi & Hyj). split.
    + apply Hax. now exists i.
    + apply Hay. now exists j.
  - intros [Hlx Hly].
    destruct (proj2 Hax Hlx) as (i & Hi & Hxi).
    destruct (proj2 Hay Hly) as (j & Hj & Hyj).
    exists i, j. auto.
Qed.

(** The theorem at [frame_129], whose grid of stride 42 ends at 254: the
    pixel (253, 0) of the 256 by 256 padded image is covered. *)
Lemma patches_cover_up_to_remainder_witness :
  frame_patches frame_129 = Done (frame_129_patches, 42, 42, 256, 256) /\
  ((exists i j : nat,
      Z.of_nat i < (256 - 128) / 42 + 1 /\ Z.of_nat j < (256 - 128) / 42 + 1 /\
      in_cell 128 42 42 i j 253 0) <->
   253 < 256 - (256 - 128) mod 42 /\ 0 < 256 - (256 - 128) mod 42).
Proof.
  split; [vm_compute; reflexivity|].
  apply (patches_cover_up_to_remainder frame_129 128 4 4 frame_129_patches
           42 42 256 256 253 0); [vm_compute; reflexivity | lia | lia | lia | lia].
Defined.

(** The padded image exists exactly when the patch size is not zero and the
    padded sides are not negative. *)
Lemma pad_image_returns_iff (im : image) (ps : Z) :
  returns (pad_image im ps) <->
  ps <> 0 /\ 0 <= padded_dim (im_width im) ps /\
  0 <= padded_dim (im_height im) ps.
Proof.
  unfold pad_image, size, py_mod, padded_dim.
  destruct (Z.eqb_spec ps 0) as [->|Hps].
  { split; [intros (p & Hp); discriminate | intros (? & _); lia]. }
  cbn [bind]. unfold ImageOps_expand, padding_border, Image_new.
  set (px := (ps - im_width im mod ps) mod ps).
  set (py := (ps - im_height im mod ps) mod ps).
  replace (px / 2 + im_width im + (px - px / 2)) with (im_width im + px) by lia.
  replace (py / 2 + im_height im + (py - py / 2)) with (im_height im + py) by lia.
  destruct (Z.ltb_spec (im_width im + px) 0);
    destruct (Z.ltb_spec (im_height im + py) 0); cbn [orb bind];
    (split; [intros (p & Hp); try discriminate; lia
            | intros (_ & ? & ?); try lia; eexists; reflexivity]).
Qed.

(** [extract_patches_rect] returns exactly when its integer geometry
    allows it, whatever the pixels are. *)
Lemma extract_patches_rect_returns_iff (im : image) (ps ppr ppc : Z) :
  let pw := padded_dim (im_width im) ps in
  let ph := padded_dim (im_height im) ps in
  let sx := (pw - ps) / (ppr - 1) in
  let sy := (ph - ps) / (ppc - 1) in
  returns (extract_patches_rect im ps ppr ppc) <->
  0 < ps /\ 0 <= pw /\ 0 <= ph /\ ppr <> 1 /\ ppc <> 1 /\
  sx <> 0 /\ sy <> 0 /\
  range_elems 0 (pw - ps + 1) sx <> [] /\
  range_elems 0 (ph - ps + 1) sy <> [].
Proof.
  intros pw ph sx sy. split.
  - intros (r & H). destruct r as [[[[patches sx'] sy'] pw'] ph'].
    pose proof (extract_patches_rect_facts _ _ _ _ _ _ _ _ _ H)
      as (Hps & Hpw & Hph & Hppr & Hppc & Hsx & Hsy & Hsx0 & Hsy0 & Hnx & Hny & _).
    apply extract_patches_rect_Done in H as (padded & Hpad & _).
    destruct (proj1 (pad_image_returns_iff im ps)) as (_ & ? & ?);
      [now exists padded|].
    subst pw' ph' sx' sy'. repeat split; assumption.
  - intros (Hps & Hpw & Hph & Hppr & Hppc & Hsx & Hsy & Hnx & Hny).
    destruct (proj2 (pad_image_returns_iff im ps)) as (padded & Hpad);
      [repeat split; try assumption; lia|].
    pose proof (pad_image_Done _ _ _ Hpad) as (_ & Hsize & _).
    unfold size in Hsize.
    assert (Epw : im_width padded = pw) by (unfold pw; congruence).
    assert (Eph : im_height padded = ph) by (unfold ph; congruence).
    unfold extract_patches_rect. rewrite Hpad. cbn [bind]. unfold size.
    rewrite Epw, Eph. unfold py_floordiv.
    destruct (Z.eqb_spec (ppr - 1) 0); [lia|].
    destruct (Z.eqb_spec (ppc - 1) 0); [lia|]. cbn [bind].
    fold sx sy.
    destruct (crop_patches_returns padded ps sx sy) as (patches & Hcrop);
      try assumption; try lia.
    rewrite Hcrop. cbn [bind].
    pose proof (crop_patches_Done _ _ _ _ _ Hcrop) as (_ & _ & Hlen & _).
    rewrite Epw, Eph in Hlen.
    destruct patches as [|p patches].
    + exfalso. simpl in Hlen.
      destruct (range_elems 0 (pw - ps + 1) sx); [now elim Hnx|].
      destruct (range_elems 0 (ph - ps + 1) sy); [now elim Hny|].
      discriminate.
    + eexists; reflexivity.
Qed.

(** Two images of the same size are cut on the same grid. *)
Lemma same_size_same_grid (im1 im2 : image) (ps ppr ppc : Z)
  (patches1 : list image) (sx sy pw ph : Z) :
  size im1 = size im2 ->
  extract_patches_rect im1 ps ppr ppc = Done (patches1, sx, sy, pw, ph) ->
  exists patches2,
    extract_patches_rect im2 ps ppr ppc = Done (patches2, sx, sy, pw, ph) /\
    length patches2 = length patches1.
Proof.
  intros Hsize H1. unfold size in Hsize.
  assert (Ew : im_width im1 = im_width im2) by congruence.
  assert (Eh : im_height im1 = im_height im2) by congruence.
  destruct (proj2 (extract_patches_rect_returns_iff im2 ps ppr ppc)) as (r & H2).
  { rewrite <- Ew, <- Eh.
    apply (proj1 (extract_patches_rect_returns_iff im1 ps ppr ppc)).
    eexists; exact H1. }
  destruct r as [[[[patches2 sx2] sy2] pw2] ph2].
  pose proof (extract_patches_rect_facts _ _ _ _ _ _ _ _ _ H1)
    as (_ & Hpw & Hph & _ & _ & Hsx & Hsy & _ & _ & _ & _ & Hlen1).
  pose proof (extract_patches_rect_facts _ _ _ _ _ _ _ _ _ H2)
    as (_ & Hpw2 & Hph2 & _ & _ & Hsx2 & Hsy2 & _ & _ & _ & _ & Hlen2).
  rewrite <- Ew in Hpw2. rewrite <- Eh in Hph2.
  assert (Epw : pw2 = pw) by congruence.
  assert (Eph : ph2 = ph) by congruence.
  assert (Esx : sx2 = sx) by congruence.
  assert (Esy : sy2 = sy) by congruence.
  exists patches2. split.
  - rewrite H2. congruence.
  - rewrite Hlen1, Hlen2. congruence.
Qed.

(** X3. What [extract_patches_rect] returns depends on the pixels of the
    image only through the patches themselves: for two images of the same
    size it returns for both or for none, with the same strides, the same
    padded size and the same number of patches. *)
Theorem extract_patches_rect_size_only (im1 im2 : image) (ps ppr ppc : Z) :
  size im1 = size im2 ->
  (returns (extract_patches_rect im1 ps ppr ppc) <->
   returns (extract_patches_rect im2 ps ppr ppc)) /\
  forall patches1 sx sy pw ph,
    extract_patches_rect im1 ps ppr ppc = Done (patches1, sx, sy, pw, ph) ->
    exists patches2,
      extract_patches_rect im2 ps ppr ppc = Done (patches2, sx, sy, pw, ph) /\
      length patches2 = length patches1.
Proof.
  intros Hsize. split.
  - split; intros (r & Hr); destruct r as [[[[patches sx] sy] pw] ph].
    + destruct (same_size_same_grid im1 im2 ps ppr ppc patches sx sy pw ph
                  Hsize Hr) as (p2 & H2 & _).
      eexists; exact H2.
    + destruct (same_size_same_grid im2 im1 ps ppr ppc patches sx sy pw ph
                  (eq_sym Hsize) Hr) as (p1 & H1 & _).
      eexists; exact H1.
  - intros patches1 sx sy pw ph H1.
    exact (same_size_same_grid im1 im2 ps ppr ppc patches1 sx sy pw ph Hsize H1).
Qed.

(** The theorem at [small_frame] and a black image of the same size. *)
Lemma extract_patches_rect_size_only_witness :
  size small_frame = size (mkImage 3 3 (fun _ _ => 0)) /\
  exists patches2,
    extract_patches_rect (mkImage 3 3 (fun _ _ => 0)) 2 2 2
    = Done (patches2, 2, 2, 4, 4) /\
    length patches2 = length small_frame_patches.
Proof.
  split; [reflexivity|].
  apply (proj2 (extract_patches_rect_size_only small_frame
                  (mkImage 3 3 (fun _ _ => 0)) 2 2 2 eq_refl)
           small_frame_patches 2 2 4 4).
  vm_compute; reflexivity.
Defined.

(** X4. Under the default [FrameArgs] (patches of 128 pixels, one per 32
    pixels) a frame can be cut into patches exactly when it is at least 129
    pixels wide and 129 pixels high. *)
Theorem frame_patches_returns_iff (im : image) :
  returns (frame_patches im) <-> 129 <= im_width im /\ 129 <= im_height im.
Proof.
  assert (Haxis : forall dim,
            let pd := padded_dim dim 128 in
            let s := (pd - 128) / (dim / 32 - 1) in
            (0 <= pd /\ dim / 32 <> 1 /\ s <> 0 /\
             range_elems 0 (pd - 128 + 1) s <> []) <-> 129 <= dim).
  { intros dim pd s.
    destruct (padded_dim_least_multiple dim 128 ltac:(lia))
      as ((k & Hk) & Hle & Hleast).
    fold pd in Hk, Hle, Hleast.
    pose proof (Z.div_mod dim 32 ltac:(lia)) as Hdm.
    pose proof (Z.mod_pos_bound dim 32 ltac:(lia)) as Hmb.
    split.
    - intros (_ & _ & Hs & Hne).
      pose proof (default_stride_bounds dim s Hs eq_refl Hne) as [Hs1 _].
      destruct (Z_lt_le_dec dim 129) as [Hsmall|]; [exfalso|assumption].
      assert (Hpd : pd <= 128).
      { apply Hleast; [exists 1; lia | lia]. }
      destruct (Z.lt_trichotomy (dim / 32 - 1) 0) as [Hd|[Hd|Hd]].
      + destruct (range_elems_nonempty _ _ Hs Hne) as [(_ & ? & _)|(? & _)];
          [|lia].
        assert (pd = 128) by lia.
        unfold s in Hs1. replace (pd - 128) with 0 in Hs1 by lia.
        rewrite Z.div_0_l in Hs1 by lia. lia.
      + unfold s in Hs1. rewrite Hd, Z.div_0_r in Hs1. lia.
      + assert (s <= 0); [|lia]. unfold s.
        apply Z.div_le_upper_bound; lia.
    - intros Hdim.
      assert (Hk2 : 2 <= k) by lia.
      assert (Hd : 3 <= dim / 32 - 1) by lia.
      assert (Hlt : pd - 128 < dim).
      { destruct (Z_lt_le_dec (pd - 128) dim) as [|Hge]; [assumption|].
        specialize (Hleast (pd - 128) ltac:(exists (k - 1); lia) Hge). lia. }
      assert (Hge : dim / 32 - 1 <= pd - 128).
      { destruct (Z_le_gt_dec dim 4128); lia. }
      assert (Hs1 : 1 <= s) by (apply Z.div_le_lower_bound; lia).
      repeat split; try lia.
      intros E. apply (f_equal (@length Z)) in E.
      rewrite range_elems_length in E. unfold range_length in E.
      destruct (Z.ltb_spec 0 s); [|lia].
      destruct (Z.ltb_spec 0 (pd - 128 + 1)); [|lia].
      assert (0 <= (pd - 128 + 1 - 1 - 0) / s) by (apply Z.div_pos; lia).
      simpl in E. lia. }
  split.
  - intros (r & H). apply frame_patches_Done in H.
    destruct (proj1 (extract_patches_rect_returns_iff im 128
                       (im_width im / 32) (im_height im / 32)))
      as (_ & Hpw & Hph & Hppr & Hppc & Hsx & Hsy & Hnx & Hny);
      [now exists r|].
    split.
    + apply (proj1 (Haxis (im_width im))). auto.
    + apply (proj1 (Haxis (im_height im))). auto.
  - intros [Hw Hh].
    destruct (proj2 (Haxis (im_width im)) Hw) as (? & ? & ? & ?).
    destruct (proj2 (Haxis (im_height im)) Hh) as (? & ? & ? & ?).
    destruct (proj2 (extract_patches_rect_returns_iff im 128
                       (im_width im / 32) (im_height im / 32))) as (r & Hr).
    { repeat split; try assumption; lia. }
    exists r. unfold frame_patches, size, py_floordiv, FrameArgs.patch_size,
      FrameArgs.downscale.
    change (32 =? 0) with false. cbv iota. cbn [bind]. exact Hr.
Qed.

(** * Further properties of [negative_sample] *)

Section SamplingOrder.
Context {T : Type} `{Scalar T}.
Variable rnd : nat -> nat.
Variables (q : vec T) (embedding : matrix T) (threshold : T).
Hypothesis q_nonempty : q <> [].

(** The [while] loop stops at the first accepted draw. *)
Lemma sample_loop_first_accepted (fuel t : nat) (v : vec T) (t1 : nat) :
  sample_loop rnd fuel t [q] embedding threshold = Done (v, t1) ->
  (t < t1)%nat /\
  accepted_positions rnd q embedding threshold t (t1 - t) = [(t1 - 1)%nat] /\
  v = drawn_row rnd embedding (t1 - 1).
Proof.
  revert t. induction fuel as [|fuel IH]; intros t Hs; [discriminate|].
  destruct (embedding_cases embedding) as [Hnil|Hne].
  { rewrite sample_loop_empty in Hs by assumption. discriminate. }
  rewrite sample_loop_step in Hs by assumption.
  unfold accepted_positions in *.
  destruct (accepts q embedding threshold (rnd t)) eqn:Hacc.
  - inversion Hs; subst. split; [lia|].
    replace (S t - t)%nat with 1%nat by lia.
    replace (S t - 1)%nat with t by lia.
    cbn [seq filter]. rewrite Hacc. auto.
  - destruct (IH (S t) Hs) as (Hlt & Hfil & Hv).
    split; [lia|]. split; [|assumption].
    replace (t1 - t)%nat with (S (t1 - S t)) by lia.
    cbn [seq filter]. rewrite Hacc. exact Hfil.
Qed.

Lemma accepted_positions_app (t a b : nat) :
  accepted_positions rnd q embedding threshold t (a + b)
  = accepted_positions rnd q embedding threshold t a
    ++ accepted_positions rnd q embedding threshold (t + a) b.
Proof. unfold accepted_positions. now rewrite seq_app, filter_app. Qed.

Lemma negatives_loop_first_accepted (k fuel t : nat) (acc negs : matrix T)
  (t' : nat) :
  negatives_loop rnd k fuel t [q] embedding threshold acc = Done (negs, t') ->
  (t <= t')%nat /\
  negs = acc ++ map (drawn_row rnd embedding)
                    (accepted_positions rnd q embedding threshold t (t' - t)) /\
  length (accepted_positions rnd q embedding threshold t (t' - t)) = k /\
  ((1 <= k)%nat ->
   (t < t')%nat /\
   accepts q embedding threshold (rnd (t' - 1)) = true).
Proof.
  revert t acc. induction k as [|k IH]; intros t acc Hl.
  - inversion Hl; subst. rewrite Nat.sub_diag.
    unfold accepted_positions. cbn [seq filter map length].
    rewrite app_nil_r. repeat split; auto; lia.
  - cbn [negatives_loop] in Hl. inv_bind Hl as r Er. destruct r as [v t1].
    destruct (sample_loop_first_accepted _ _ _ _ Er) as (Hlt & Hfil & Hv).
    destruct (IH _ _ Hl) as (Hle & Hnegs & Hlen & Hlast).
    replace (t' - t)%nat with ((t1 - t) + (t' - t1))%nat by lia.
    rewrite accepted_positions_app.
    replace (t + (t1 - t))%nat with t1 by lia.
    rewrite Hfil. split; [lia|]. split; [|split].
    + rewrite Hnegs, <- app_assoc. cbn [map app]. now rewrite Hv.
    + cbn [app length]. now rewrite Hlen.
    + intros _. split; [lia|].
      destruct k as [|k].
      * assert (t' = t1).
        { cbn [negatives_loop] in Hl. now inversion Hl. }
        subst t'.
        assert (Hin : In (t1 - 1)%nat
                        (accepted_positions rnd q embedding threshold t (t1 - t)))
          by (rewrite Hfil; now left).
        unfold accepted_positions in Hin. apply filter_In in Hin. tauto.
      * apply Hlast. lia.
Qed.
End SamplingOrder.

(** X5. What [negative_sample] returns is read off the stream of draws: its
    rows are the rows drawn at the accepted draws, in the order of the draws;
    the draws it consumes hold exactly [k] accepted ones and end with one. *)
Theorem negative_sample_first_accepted {T : Type} `{Scalar T}
  (rnd : nat -> nat) (fuel t : nat) (q : vec T) (embedding : matrix T)
  (k : nat) (threshold : T) (negatives : matrix T) (t' : nat) :
  q <> [] ->
  negative_sample rnd fuel t [q] embedding k threshold = Done (negatives, t') ->
  (t < t')%nat /\
  negatives = map (drawn_row rnd embedding)
                  (accepted_positions rnd q embedding threshold t (t' - t)%nat) /\
  accepted_draws rnd q embedding threshold t (t' - t)%nat = k /\
  accepts q embedding threshold (rnd (t' - 1)%nat) = true.
Proof.
  intros Hq Hs. unfold negative_sample in Hs.
  inv_bind Hs as r Er. destruct r as [l t1].
  inv_bind Hs as stacked Est.
  assert (Hl : stacked = negatives /\ t1 = t') by (inversion Hs; auto).
  destruct Hl as [-> ->]. clear Hs.
  unfold torch_stack in Est. destruct l as [|v l]; [discriminate|].
  inversion Est; subst negatives; clear Est.
  destruct (negatives_loop_first_accepted rnd q embedding threshold Hq _ _ _ _ _ _ Er)
    as (Hle & Hnegs & Hlen & Hlast).
  cbn [app] in Hnegs.
  assert (Hk : (1 <= k)%nat).
  { destruct k; [|lia]. exfalso.
    destruct (accepted_positions rnd q embedding threshold t (t' - t)%nat);
      [discriminate Hnegs | discriminate Hlen]. }
  destruct (Hlast Hk) as [Hlt Hacc].
  repeat split; assumption.
Qed.

(** The theorem at [two_patches] on a stream that alternates between patch
    0, which is rejected, and patch 1: three negatives take six draws. *)
Lemma negative_sample_first_accepted_witness :
  [1; 0]%Q <> [] /\
  negative_sample (fun s => s) 2 0 [[1; 0]%Q] two_patches 3 (7 # 10)%Q
  = Done ([[0; 1]; [0; 1]; [0; 1]]%Q, 6%nat) /\
  (0 < 6)%nat /\
  [[0; 1]; [0; 1]; [0; 1]]%Q
  = map (drawn_row (fun s => s) two_patches)
        (accepted_positions (fun s => s) [1; 0]%Q two_patches (7 # 10)%Q 0 (6 - 0)%nat) /\
  accepted_draws (fun s => s) [1; 0]%Q two_patches (7 # 10)%Q 0 (6 - 0)%nat = 3%nat /\
  accepts [1; 0]%Q two_patches (7 # 10)%Q ((fun s : nat => s) (6 - 1)%nat) = true.
Proof.
  split; [discriminate|]. split; [vm_compute; reflexivity|].
  apply (negative_sample_first_accepted (fun s => s) 2 0 [1; 0]%Q two_patches 3
           (7 # 10)%Q [[0; 1]; [0; 1]; [0; 1]]%Q 6);
    [discriminate | vm_compute; reflexivity].
Defined.

(** X6. The calls on which [negative_sample] raises, whatever the stream:
    with [k = 0] [torch.stack] gets an empty list; on an embedding without
    rows [np.random.randint(0)] is a [ValueError]; against a source feature
    of two or more rows the comparison of line 266 has no single truth
    value. *)
Theorem negative_sample_raises {T : Type} `{Scalar T}
  (rnd : nat -> nat) (fuel t k : nat) (source_feature embedding : matrix T)
  (threshold : T) (M D : nat) :
  (1 <= fuel)%nat ->
  negative_sample rnd fuel t source_feature embedding 0 threshold
  = Raise RuntimeError /\
  ((1 <= k)%nat ->
   negative_sample rnd fuel t source_feature [] k threshold = Raise ValueError) /\
  ((1 <= k)%nat -> embedding <> [] ->
   has_shape source_feature M D -> (2 <= M)%nat -> (1 <= D)%nat ->
   negative_sample rnd fuel t source_feature embedding k threshold
   = Raise RuntimeError).
Proof.
  intros Hfuel. destruct fuel as [|fuel]; [lia|].
  split; [reflexivity|]. split.
  - intros Hk. destruct k as [|k]; [lia|]. reflexivity.
  - intros Hk Hne Hshape HM HD. destruct k as [|k]; [lia|].
    unfold negative_sample. cbn [negatives_loop sample_loop].
    unfold randint, getitem.
    destruct (length embedding) as [|n] eqn:Hlen.
    { destruct embedding; [contradiction | discriminate]. }
    cbn [bind].
    destruct (nth_error embedding (rnd t mod S n)) as [v|] eqn:Hv.
    + cbn [bind].
      rewrite (vecmat_transpose v source_feature M D Hshape) by lia.
      destruct Hshape as [Hrows _].
      destruct source_feature as [|r1 [|r2 rest]]; simpl in Hrows; try lia.
      reflexivity.
    + apply nth_error_None in Hv.
      pose proof (Nat.mod_upper_bound (rnd t) (S n) ltac:(lia)). lia.
Qed.

(** The theorem at [two_patches] against the two rows of [two_queries]. *)
Lemma negative_sample_raises_witness :
  (1 <= 1)%nat /\
  negative_sample always_second 1 0 two_queries two_patches 0 (7 # 10)%Q
  = Raise RuntimeError /\
  negative_sample always_second 1 0 two_queries [] 3 (7 # 10)%Q
  = Raise ValueError /\
  negative_sample always_second 1 0 two_queries two_patches 3 (7 # 10)%Q
  = Raise RuntimeError.
Proof.
  split; [lia|].
  destruct (negative_sample_raises always_second 1 0 3 two_queries two_patches
              (7 # 10)%Q 2 2 (le_n 1)) as (H0 & H1 & H2).
  split; [exact H0|]. split; [apply H1; lia|].
  apply H2; try lia; try discriminate.
  split; [reflexivity | repeat constructor].
Defined.

(** * Further properties of [MAP] *)

Section SortFacts.
Context {T : Type} `{Scalar T}.

Lemma insert_sorted_In (x y : T) (l : vec T) :
  In y (insert_sorted x l) <-> y = x \/ In y l.
Proof.
  induction l as [|z l IH]; simpl.
  - intuition congruence.
  - destruct (sge z x); simpl; [intuition congruence|].
    rewrite IH. intuition congruence.
Qed.

Lemma sort_In (y : T) (l : vec T) : In y (sort l) <-> In y l.
Proof.
  induction l as [|x l IH]; simpl; [tauto|].
  rewrite insert_sorted_In, IH. intuition congruence.
Qed.

Lemma insert_sorted_filter_length (f : T -> bool) (x : T) (l : vec T) :
  length (filter f (insert_sorted x l)) = length (filter f (x :: l)).
Proof.
  induction l as [|z l IH]; [reflexivity|].
  cbn [insert_sorted]. destruct (sge z x); [reflexivity|].
  cbn [filter] in *. destruct (f z), (f x); cbn [length] in *; lia.
Qed.

(** Sorting keeps the number of elements that pass a test. *)
Lemma sort_filter_length (f : T -> bool) (l : vec T) :
  length (filter f (sort l)) = length (filter f l).
Proof.
  induction l as [|x l IH]; [reflexivity|].
  cbn [sort fold_right]. rewrite insert_sorted_filter_length.
  fold (sort l). cbn [filter]. destruct (f x); cbn [length]; now rewrite IH.
Qed.
End SortFacts.

Local Open Scope R_scope.

Lemma insert_sorted_sorted (x : R) (l : vec R) :
  StronglySorted Rle l -> StronglySorted Rle (insert_sorted x l).
Proof.
  induction 1 as [|y l Hl IH Hy]; cbn [insert_sorted].
  - constructor; constructor.
  - cbn [sge Scalar_R]. destruct (Rle_dec x y) as [Hxy|Hxy].
    + constructor; [constructor; assumption|].
      constructor; [assumption|].
      eapply Forall_impl; [|exact Hy]. intros z Hz. simpl in Hz. lra.
    + constructor; [assumption|].
      apply Forall_forall. intros z Hz.
      apply insert_sorted_In in Hz as [->|Hz]; [lra|].
      rewrite Forall_forall in Hy. now apply Hy.
Qed.

Lemma sort_sorted (l : vec R) : StronglySorted Rle (sort l).
Proof.
  induction l as [|x l IH]; [constructor|].
  cbn [sort fold_right]. now apply insert_sorted_sorted.
Qed.

Lemma sorted_app_le (a b : vec R) (x y : R) :
  StronglySorted Rle (a ++ b) -> In x a -> In y b -> x <= y.
Proof.
  induction a as [|z a IH]; [contradiction|].
  intros Hs Hx Hy. cbn [app] in Hs.
  apply StronglySorted_inv in Hs as [Hs Hz].
  destruct Hx as [->|Hx].
  - rewrite Forall_forall in Hz. apply Hz. apply in_or_app. now right.
  - now apply IH.
Qed.

Lemma fold_Rmin_le (x : R) (xs : vec R) (y : R) :
  In y (x :: xs) -> fold_right Rmin x xs <= y.
Proof.
  induction xs as [|z xs IH]; cbn [fold_right].
  - intros [->|[]]. lra.
  - intros Hy. pose proof (Rmin_l z (fold_right Rmin x xs)).
    pose proof (Rmin_r z (fold_right Rmin x xs)).
    destruct Hy as [->|[->|Hy]].
    + assert (fold_right Rmin y xs <= y) by (apply IH; now left). lra.
    + lra.
    + assert (fold_right Rmin x xs <= y) by (apply IH; now right). lra.
Qed.

Lemma fold_Rmin_In (x : R) (xs : vec R) : In (fold_right Rmin x xs) (x :: xs).
Proof.
  induction xs as [|z xs IH]; cbn [fold_right]; [now left|].
  apply Rmin_case.
  - right; now left.
  - destruct IH as [E'|Hin]; [left; exact E' | right; right; exact Hin].
Qed.

Lemma filter_none {A : Type} (f : A -> bool) (l : list A) :
  (forall y, In y l -> f y = false) -> filter f l = [].
Proof.
  induction l as [|z l IH]; intros Hf; [reflexivity|].
  cbn [filter]. rewrite (Hf z (or_introl eq_refl)).
  apply IH. intros y Hy. apply Hf. now right.
Qed.

Lemma filter_length_drop {A : Type} (f : A -> bool) (l : list A) (x : A) :
  In x l -> f x = false -> (length (filter f l) < length l)%nat.
Proof.
  induction l as [|z l IH]; [contradiction|].
  intros [->|Hx] Hf; cbn [filter length].
  - rewrite Hf. pose proof (filter_length_le f l). lia.
  - specialize (IH Hx Hf). destruct (f z); cbn [length]; lia.
Qed.

(** What [MAP] computes, with its [top25] in view: the smallest of the
    [k] largest entries of column 0. *)
Lemma MAP_returns_top (similarity : matrix R) :
  (20 <= length similarity)%nat ->
  Forall (fun row => row <> []) similarity ->
  exists col x xs,
    column0 similarity = Done col /\ length col = length similarity /\
    firstn (top5_count (length similarity)) (rev (sort col)) = x :: xs /\
    MAP similarity
    = Done (map (map (MAP_entry (tensor_std similarity) (fold_right Rmin x xs)))
                similarity).
Proof.
  intros Hlen Hrows. unfold MAP.
  destruct (column0_returns similarity Hrows) as (col & Hcol & Hlc).
  rewrite Hcol. cbn [bind]. unfold topk, top5_count.
  assert (Hk : (1 <= length similarity / 20 <= length similarity)%nat).
  { split.
    - apply Nat.div_le_lower_bound; lia.
    - apply Nat.Div0.div_le_upper_bound. lia. }
  destruct (Nat.ltb_spec (length col) (length similarity / 20)); [lia|].
  cbn [bind].
  destruct (firstn (length similarity / 20) (rev (sort col))) as [|x xs] eqn:Htop.
  - apply (f_equal (@length R)) in Htop.
    rewrite length_firstn, length_rev, sort_length in Htop.
    cbn [length] in Htop. lia.
  - exists col, x, xs. cbn [tensor_min bind]. auto.
Qed.

(** X7. [MAP] is a sigmoid centred on the smallest of the top 5% of column
    0: on at least 20 rows with two different entries, there is an entry
    [top25] of column 0 such that at least [int(len * 0.05)] entries of the
    column are at least [top25], fewer than that are larger, [top25] itself
    is mapped to 50, larger similarities above 50 and smaller ones below. *)
Theorem MAP_centred_on_top5 (similarity : matrix R) (a b : R) :
  (20 <= length similarity)%nat ->
  Forall (fun row => row <> []) similarity ->
  In a (concat similarity) -> In b (concat similarity) -> a <> b ->
  exists (col : vec R) (top25 : R) (g : R -> R),
    column0 similarity = Done col /\
    MAP similarity = Done (map (map (fun s => Some (g s))) similarity) /\
    In top25 col /\
    (top5_count (length similarity)
     <= length (filter (fun x => sge x top25) col))%nat /\
    (length (filter (fun x => negb (sge top25 x)) col)
     < top5_count (length similarity))%nat /\
    g top25 = 50 /\
    (forall s, top25 < s -> 50 < g s) /\
    (forall s, s < top25 -> g s < 50).
Proof.
  intros Hlen Hrows Ha Hb Hab.
  destruct (MAP_returns_top similarity Hlen Hrows)
    as (col & x & xs & Hcol & Hlc & Htop & HMAP).
  destruct (tensor_std_pos similarity a b Ha Hb Hab) as (sd & Hstd & Hsd).
  assert (Hkle : (top5_count (length similarity) <= length col)%nat).
  { rewrite Hlc. unfold top5_count. apply Nat.Div0.div_le_upper_bound. lia. }
  set (k := top5_count (length similarity)) in *.
  set (top25 := fold_right Rmin x xs) in *.
  set (S := sort col) in *.
  assert (Hklen : length (x :: xs) = k /\ (1 <= k <= length col)%nat).
  { rewrite <- Htop, length_firstn, length_rev. unfold S.
    rewrite sort_length.
    assert (Hl : (1 <= length (firstn k (rev S)))%nat)
      by (rewrite Htop; simpl; lia).
    rewrite length_firstn, length_rev in Hl. unfold S in Hl.
    rewrite sort_length in Hl. lia. }
  destruct Hklen as [Hktop Hk].
  assert (Hsplit : rev S = (x :: xs) ++ skipn k (rev S))
    by (rewrite <- Htop; symmetry; apply firstn_skipn).
  assert (Hmin_in : In top25 (x :: xs)) by apply fold_Rmin_In.
  assert (Hmin_le : forall y, In y (x :: xs) -> top25 <= y)
    by (intros y Hy; now apply fold_Rmin_le).
  assert (Hrest : forall y, In y (skipn k (rev S)) -> y <= top25).
  { intros y Hy.
    rewrite skipn_rev in Hy. apply in_rev in Hy.
    rewrite <- Htop, firstn_rev in Hmin_in. apply in_rev in Hmin_in.
    apply (sorted_app_le (firstn (length S - k) S) (skipn (length S - k) S));
      try assumption.
    rewrite firstn_skipn. apply sort_sorted. }
  assert (Hcount : forall f : R -> bool,
            length (filter f col)
            = (length (filter f (x :: xs))
               + length (filter f (skipn k (rev S))))%nat).
  { intros f. rewrite <- (sort_filter_length f col). fold S.
    rewrite <- (length_rev (filter f S)), <- filter_rev, Hsplit at 1.
    now rewrite filter_app, length_app. }
  exists col, top25, (fun s => 100 / (1 + exp (- (s - top25) / (sd / 12)))).
  split; [assumption|]. split.
  { rewrite HMAP, Hstd. f_equal. apply map_ext. intros row.
    apply map_ext. intros s. now apply MAP_entry_value. }
  split.
  { apply (sort_In top25 col). fold S. apply in_rev. rewrite Hsplit.
    apply in_or_app. now left. }
  split.
  { rewrite Hcount.
    assert (Hall : filter (fun y => sge y top25) (x :: xs) = x :: xs).
    { apply forallb_filter_id. apply forallb_forall. intros y Hy.
      cbn [sge Scalar_R]. destruct (Rle_dec top25 y) as [|Hn]; [reflexivity|].
      elim Hn. now apply Hmin_le. }
    rewrite Hall, Hktop. lia. }
  split.
  { rewrite Hcount.
    assert (Hnone : filter (fun y => negb (sge top25 y)) (skipn k (rev S)) = []).
    { apply filter_none. intros y Hy.
      cbn [sge Scalar_R]. destruct (Rle_dec y top25) as [|Hn]; [easy|].
      elim Hn. now apply Hrest. }
    rewrite Hnone. cbn [length]. rewrite Nat.add_0_r.
    assert (Hlt : (length (filter (fun y => negb (sge top25 y)) (x :: xs))
                   < length (x :: xs))%nat).
    { apply filter_length_drop with (x := top25); [assumption|].
      cbn [sge Scalar_R]. destruct (Rle_dec top25 top25); [reflexivity | lra]. }
    lia. }
  assert (Hmid : 100 / (1 + exp (- (top25 - top25) / (sd / 12))) = 50).
  { replace (- (top25 - top25) / (sd / 12)) with 0 by (field; lra).
    rewrite exp_0. lra. }
  split; [exact Hmid|]. split.
  - intros s Hs. rewrite <- Hmid. apply sigmoid_decreasing.
    unfold Rdiv. apply Rmult_lt_compat_r; [apply Rinv_0_lt_compat; lra | lra].
  - intros s Hs. rewrite <- Hmid. apply sigmoid_decreasing.
    unfold Rdiv. apply Rmult_lt_compat_r; [apply Rinv_0_lt_compat; lra | lra].
Qed.

(** The theorem at [flat_with_peak]. *)
Lemma MAP_centred_on_top5_witness :
  (20 <= length flat_with_peak)%nat /\
  Forall (fun row => row <> []) flat_with_peak /\
  In 0 (concat flat_with_peak) /\ In 1 (concat flat_with_peak) /\ 0 <> 1 /\
  exists (col : vec R) (top25 : R) (g : R -> R),
    column0 flat_with_peak = Done col /\
    MAP flat_with_peak = Done (map (map (fun s => Some (g s))) flat_with_peak) /\
    In top25 col /\
    (top5_count (length flat_with_peak)
     <= length (filter (fun x => sge x top25) col))%nat /\
    (length (filter (fun x => negb (sge top25 x)) col)
     < top5_count (length flat_with_peak))%nat /\
    g top25 = 50 /\
    (forall s, top25 < s -> 50 < g s) /\
    (forall s, s < top25 -> g s < 50).
Proof.
  assert (H20 : (20 <= length flat_with_peak)%nat) by (simpl; lia).
  assert (Hrows : Forall (fun row : list R => row <> []) flat_with_peak)
    by (repeat constructor; discriminate).
  assert (H0 : In 0 (concat flat_with_peak)) by (simpl; now left).
  assert (H1 : In 1 (concat flat_with_peak))
    by (simpl; repeat (try (left; reflexivity); right)).
  assert (H01 : 0 <> 1) by lra.
  split; [exact H20|]. split; [exact Hrows|]. split; [exact H0|].
  split; [exact H1|]. split; [exact H01|].
  exact (MAP_centred_on_top5 flat_with_peak 0 1 H20 Hrows H0 H1 H01).
Defined.

(** X8. On fewer than 20 rows the count [int(len * 0.05)] of top entries is
    0, [topk] returns nothing and its [min()] raises: [MAP] needs at least
    20 similarities. *)
Theorem MAP_needs_20_rows (similarity : matrix R) :
  (length similarity < 20)%nat ->
  Forall (fun row => row <> []) similarity ->
  MAP similarity = Raise RuntimeError.
Proof.
  intros Hlen Hrows. unfold MAP.
  destruct (column0_returns similarity Hrows) as (col & -> & Hcol).
  cbn [bind]. unfold topk, top5_count.
  rewrite (Nat.div_small (length similarity) 20) by lia.
  destruct (Nat.ltb_spec (length col) 0); [lia|]. reflexivity.
Qed.

(** The theorem at [two_scores]. *)
Lemma MAP_needs_20_rows_witness :
  (length two_scores < 20)%nat /\
  Forall (fun row => row <> []) two_scores /\
  MAP two_scores = Raise RuntimeError.
Proof.
  assert (Hlen : (length two_scores < 20)%nat) by (simpl; lia).
  assert (Hrows : Forall (fun row : list R => row <> []) two_scores)
    by (repeat constructor; discriminate).
  split; [exact Hlen|]. split; [exact Hrows|].
  exact (MAP_needs_20_rows two_scores Hlen Hrows).
Defined.

Local Close Scope R_scope.

(** * The threshold of the negative sampling *)

Local Open Scope R_scope.

(** [torch.quantile] interpolates between two entries of its input. *)
Lemma quantile_interpolates (input : matrix R) (num den : Z) (thr : R) :
  (0 <= num <= den)%Z -> (0 < den)%Z ->
  quantile input num den = Done thr ->
  exists a c w,
    In a (concat input) /\ In c (concat input) /\ 0 <= w <= 1 /\
    thr = a + w * (c - a).
Proof.
  intros Hnum Hden Hq. unfold quantile in Hq.
  destruct (concat input) as [|x0 flat] eqn:Hflat; [discriminate|].
  rewrite <- Hflat in *.
  assert (Hn : (1 <= length (concat input))%nat) by (rewrite Hflat; simpl; lia).
  set (n := Z.of_nat (length (concat input))) in *.
  set (rank := (num * (n - 1))%Z) in *.
  assert (Hrank : (0 <= rank <= den * (n - 1))%Z) by (unfold rank; nia).
  pose proof (Z.div_mod rank den ltac:(lia)) as Hdm.
  pose proof (Z.mod_pos_bound rank den Hden) as Hmb.
  assert (Hbelow : (0 <= rank / den <= n - 1)%Z).
  { split; [apply Z.div_pos; lia|]. apply Z.div_le_upper_bound; lia. }
  assert (Habove : (0 <= (if (rank mod den =? 0)%Z then rank / den
                          else rank / den + 1) <= n - 1)%Z).
  { destruct (Z.eqb_spec (rank mod den) 0); [lia|]. nia. }
  assert (Hnth : forall i : Z, (0 <= i <= n - 1)%Z ->
            In (nth (Z.to_nat i) (sort (concat input)) szero) (concat input)).
  { intros i Hi. apply (sort_In _ (concat input)).
    apply nth_In. rewrite sort_length. lia. }
  assert (Hw : 0 <= IZR (rank mod den) / IZR den <= 1).
  { assert (0 < IZR den) by (apply IZR_lt; lia).
    assert (0 <= IZR (rank mod den)) by (apply IZR_le; lia).
    assert (IZR (rank mod den) <= IZR den) by (apply IZR_le; lia).
    split.
    - apply Rmult_le_pos; [assumption | left; now apply Rinv_0_lt_compat].
    - apply (Rmult_le_reg_r (IZR den)); [assumption|].
      unfold Rdiv. rewrite Rmult_assoc, Rinv_l by lra. lra. }
  eexists _, _, _. split; [exact (Hnth _ Hbelow)|].
  split; [exact (Hnth _ Habove)|]. split; [exact Hw|].
  inversion Hq. reflexivity.
Qed.

(** In particular it is at most the largest entry and at least the
    smallest. *)
Lemma quantile_le (input : matrix R) (num den : Z) (thr hi : R) :
  (0 <= num <= den)%Z -> (0 < den)%Z ->
  quantile input num den = Done thr ->
  (forall x, In x (concat input) -> x <= hi) -> thr <= hi.
Proof.
  intros Hnum Hden Hq Hb.
  destruct (quantile_interpolates input num den thr Hnum Hden Hq)
    as (a & c & w & Ha & Hc & Hw & ->).
  pose proof (Hb a Ha). pose proof (Hb c Hc). nra.
Qed.

Lemma quantile_ge (input : matrix R) (num den : Z) (thr lo : R) :
  (0 <= num <= den)%Z -> (0 < den)%Z ->
  quantile input num den = Done thr ->
  (forall x, In x (concat input) -> lo <= x) -> lo <= thr.
Proof.
  intros Hnum Hden Hq Hb.
  destruct (quantile_interpolates input num den thr Hnum Hden Hq)
    as (a & c & w & Ha & Hc & Hw & ->).
  pose proof (Hb a Ha). pose proof (Hb c Hc). nra.
Qed.

(** X9. The patch that matches the query best is never taken as a
    negative: the 0.7-quantile of the similarities is at most the largest
    similarity, and [negative_sample] keeps only rows strictly below it. *)
Theorem best_patch_never_negative (rnd : nat -> nat) (fuel t k : nat)
  (embedding : matrix R) (q e : vec R) (threshold : R)
  (negatives : matrix R) (t' : nat) :
  q <> [] ->
  quantile (matmul embedding (transpose [q])) 7 10 = Done threshold ->
  negative_sample rnd fuel t [q] embedding k threshold = Done (negatives, t') ->
  In e embedding -> (forall e', In e' embedding -> dot e' q <= dot e q) ->
  threshold <= dot e q /\
  Forall (fun v => dot v q < dot e q) negatives /\
  ~ In e negatives.
Proof.
  intros Hq Hthr Hs He Hmax.
  rewrite unscaled_similarity_rows in Hthr by assumption.
  assert (Hle : threshold <= dot e q).
  { apply (quantile_le (map (fun e0 : vec R => [dot e0 q]) embedding) 7 10
             threshold (dot e q)); try lia; try assumption.
    intros x Hx. apply in_concat in Hx as (row & Hrow & Hx).
    apply in_map_iff in Hrow as (e' & <- & He').
    destruct Hx as [<-|[]]. now apply Hmax. }
  destruct (negative_sample_Done rnd q embedding threshold Hq _ _ _ _ _ Hs)
    as [_ Hall].
  assert (Hbelow : Forall (fun v => dot v q < dot e q) negatives).
  { eapply Forall_impl; [|exact Hall]. cbv beta. intros v [_ Hv].
    apply R_ordered in Hv. simpl in Hv. lra. }
  repeat split; try assumption.
  intros Hin. rewrite Forall_forall in Hbelow. specialize (Hbelow e Hin). lra.
Qed.

Local Close Scope R_scope.

(** * Runs of the scoring over the reals *)

Local Open Scope R_scope.

(** A sorted list is left as it is by [sort]. *)
Lemma sort_sorted_id (l : vec R) : StronglySorted Rle l -> sort l = l.
Proof.
  induction 1 as [|x l Hl IH Hx]; [reflexivity|].
  cbn [sort fold_right]. fold (sort l). rewrite IH.
  destruct l as [|y l]; [reflexivity|].
  cbn [insert_sorted sge Scalar_R].
  destruct (Rle_dec x y) as [|Hn]; [reflexivity|].
  elim Hn. now inversion Hx.
Qed.

Lemma strongly_sorted_repeat (b : R) (n : nat) :
  StronglySorted Rle (repeat b n).
Proof.
  induction n as [|n IH]; cbn [repeat]; constructor; [exact IH|].
  apply Forall_forall. intros x Hx. apply repeat_spec in Hx. subst. lra.
Qed.

Lemma strongly_sorted_cons_repeat (a b : R) (n : nat) :
  a <= b -> StronglySorted Rle (a :: repeat b n).
Proof.
  intros Hab. constructor; [apply strongly_sorted_repeat|].
  apply Forall_forall. intros x Hx. apply repeat_spec in Hx. now subst.
Qed.

Lemma dot_across_along : dot across along = 0.
Proof. unfold across, along. rewrite !dot_cons, dot_nil_l. lra. Qed.

Lemma dot_along_along : dot along along = 1.
Proof. unfold along. rewrite !dot_cons, dot_nil_l. lra. Qed.

(** The 0.7-quantile of the similarities of [pair_frame] to [along]. *)
Lemma pair_frame_threshold :
  quantile (matmul pair_frame (transpose [along])) 7 10
  = Done (lerp (dot across along) (dot along along) (IZR 7 / IZR 10)).
Proof.
  rewrite unscaled_similarity_rows by discriminate.
  unfold quantile, pair_frame. cbn [map concat app].
  rewrite sort_sorted_id; [reflexivity|].
  rewrite dot_across_along, dot_along_along.
  apply (strongly_sorted_cons_repeat 0 1 1). lra.
Qed.

(** The 0.7-quantile of the similarities of [ramp_frame] to [along]. *)
Lemma ramp_frame_threshold :
  quantile (matmul ramp_frame (transpose [along])) 7 10
  = Done (lerp (dot along along) (dot along along) (IZR 3 / IZR 10)%R).
Proof.
  rewrite unscaled_similarity_rows by discriminate.
  unfold quantile, ramp_frame. cbn [repeat map concat app].
  rewrite sort_sorted_id; [reflexivity|].
  rewrite dot_across_along, dot_along_along.
  apply (strongly_sorted_cons_repeat 0 1 19). lra.
Qed.

(** A row whose similarity is below the threshold is accepted. *)
Lemma accepts_below (q : vec R) (embedding : matrix R) (threshold : R)
  (idx : nat) (e : vec R) :
  nth_error embedding (idx mod length embedding) = Some e ->
  dot e q < threshold ->
  accepts q embedding threshold idx = true.
Proof.
  intros He Hlt. unfold accepts. rewrite He. cbn [sge Scalar_R].
  destruct (Rle_dec threshold (dot e q)); [lra | reflexivity].
Qed.

Lemma accepted_draws_all {T : Type} `{Scalar T} (rnd : nat -> nat) (q : vec T)
  (embedding : matrix T) (threshold : T) (t n : nat) :
  (forall s, accepts q embedding threshold (rnd s) = true) ->
  accepted_draws rnd q embedding threshold t n = n.
Proof.
  intros Hall. unfold accepted_draws.
  rewrite forallb_filter_id; [apply length_seq|].
  apply forallb_forall. intros s _. apply Hall.
Qed.

Lemma pair_frame_accepts (s : nat) :
  accepts along pair_frame
    (lerp (dot across along) (dot along along) (IZR 7 / IZR 10))
    (always_first s) = true.
Proof.
  apply (accepts_below _ _ _ _ across); [reflexivity|].
  unfold lerp. cbn [sadd smul ssub Scalar_R].
  rewrite dot_across_along, dot_along_along. lra.
Qed.

Lemma ramp_frame_accepts (s : nat) :
  accepts along ramp_frame
    (lerp (dot along along) (dot along along) (IZR 3 / IZR 10)%R)
    (always_first s) = true.
Proof.
  apply (accepts_below _ _ _ _ across); [reflexivity|].
  unfold lerp. cbn [sadd smul ssub Scalar_R].
  rewrite dot_across_along, dot_along_along. lra.
Qed.

Lemma pair_frame_shape : has_shape pair_frame 2 2.
Proof. split; [reflexivity | repeat constructor]. Qed.

Lemma ramp_frame_shape : has_shape ramp_frame 20 2.
Proof. split; [reflexivity | repeat constructor]. Qed.

(** The theorem on the two patches of [pair_frame]: [along], the best
    match of the query [along], is not among the negatives. *)
Lemma best_patch_never_negative_witness :
  along <> [] /\
  In along pair_frame /\
  (forall e', In e' pair_frame -> dot e' along <= dot along along) /\
  exists threshold negatives t',
    quantile (matmul pair_frame (transpose [along])) 7 10 = Done threshold /\
    negative_sample always_first 3 0 [along] pair_frame 3 threshold
    = Done (negatives, t') /\
    threshold <= dot along along /\
    Forall (fun v => dot v along < dot along along) negatives /\
    ~ In along negatives.
Proof.
  assert (Hq : along <> []) by discriminate.
  assert (Hin : In along pair_frame) by (right; now left).
  assert (Hmax : forall e', In e' pair_frame -> dot e' along <= dot along along).
  { intros e' [<-|[<-|[]]]; rewrite ?dot_across_along, dot_along_along; lra. }
  split; [exact Hq|]. split; [exact Hin|]. split; [exact Hmax|].
  destruct (negative_sample_returns always_first along pair_frame
              (lerp (dot across along) (dot along along) (IZR 7 / IZR 10))
              Hq 3 3 0) as ([negatives t'] & Hs).
  - discriminate.
  - lia.
  - rewrite accepted_draws_all; [lia | apply pair_frame_accepts].
  - exists (lerp (dot across along) (dot along along) (IZR 7 / IZR 10)),
      negatives, t'.
    split; [exact pair_frame_threshold|]. split; [exact Hs|].
    exact (best_patch_never_negative always_first 3 0 3 pair_frame along along
             _ negatives t' Hq pair_frame_threshold Hs Hin Hmax).
Defined.

Local Close Scope R_scope.

(** * Whole frames *)

Local Open Scope R_scope.

Lemma reshape_Done_shape {A : Type} (t m : list (list A)) (rows cols : Z) :
  (0 <= rows)%Z -> (0 <= cols)%Z ->
  reshape t rows cols = Done m ->
  Z.of_nat (length m) = rows /\
  Forall (fun row => Z.of_nat (length row) = cols) m /\
  concat m = concat t.
Proof.
  intros Hr Hc H. unfold reshape, infer_shape in H.
  destruct (Z.eqb_spec rows (-1)); [lia|].
  destruct (Z.eqb_spec cols (-1)); [lia|]. cbn [andb] in H.
  destruct (Z.ltb_spec rows 0); [lia|].
  destruct (Z.ltb_spec cols 0); [lia|]. cbn [orb] in H.
  destruct (Z.eqb_spec (rows * cols) (Z.of_nat (length (concat t))));
    [|discriminate].
  destruct (reshape_fits t rows cols Hr Hc ltac:(lia)) as (m' & Hm' & Hshape).
  unfold reshape, infer_shape in Hm'.
  destruct (Z.eqb_spec rows (-1)); [lia|].
  destruct (Z.eqb_spec cols (-1)); [lia|]. cbn [andb] in Hm'.
  destruct (Z.ltb_spec rows 0); [lia|].
  destruct (Z.ltb_spec cols 0); [lia|]. cbn [orb] in Hm'.
  destruct (Z.eqb_spec (rows * cols) (Z.of_nat (length (concat t))));
    [|contradiction].
  rewrite H in Hm'. inversion Hm'; subst. exact Hshape.
Qed.

(** The scoring returns as soon as the threshold exists and the sampling
    ends. *)
Lemma frame_similarity_returns {T : Type} `{Scalar T} (rnd : nat -> nat)
  (fuel t : nat) (embedding source_feature : matrix T)
  (supervision_feature : option (matrix T)) (lambda_ threshold : T)
  (negatives : matrix T) (t' : nat) :
  quantile (matmul embedding (transpose source_feature)) 7 10 = Done threshold ->
  negative_sample rnd fuel t source_feature embedding 40 threshold
  = Done (negatives, t') ->
  exists similarity,
    frame_similarity rnd fuel t embedding source_feature supervision_feature
      lambda_ = Done (similarity, t').
Proof.
  intros Hthr Hs. unfold frame_similarity.
  rewrite Hthr. cbn [bind]. rewrite Hs. cbn [bind]. eexists; reflexivity.
Qed.

(** The scores of a frame against one query: one row per patch, one
    entry per row. *)
Lemma frame_similarity_shape (rnd : nat -> nat) (fuel t : nat)
  (embedding : matrix R) (q : vec R)
  (supervision_feature : option (matrix R)) (lambda_ : R)
  (similarity : matrix R) (t' N D : nat) :
  has_shape embedding N D -> (1 <= D)%nat -> length q = D ->
  (forall s, supervision_feature = Some s ->
             exists M, has_shape s M D /\ (1 <= M)%nat) ->
  frame_similarity rnd fuel t embedding [q] supervision_feature lambda_
  = Done (similarity, t') ->
  has_shape similarity N 1.
Proof.
  intros Hshape HD Hq Hsup Hf.
  destruct (frame_similarity_Done rnd fuel t embedding q supervision_feature
              lambda_ similarity t' N D Hshape HD Hq Hsup Hf)
    as (_ & negs & _ & _ & ->).
  split; [rewrite length_map; apply Hshape|].
  apply Forall_forall. intros row Hrow.
  apply in_map_iff in Hrow as (e & <- & _). reflexivity.
Qed.

(** Scores in one column, at least 20 of them, are mapped and reshaped to
    a grid with as many cells. *)
Lemma map_and_reshape_returns (similarity : matrix R) (N : nat)
  (new_w new_h : Z) :
  has_shape similarity N 1 -> (20 <= N)%nat ->
  Z.of_nat N = (new_h * new_w)%Z -> (0 <= new_h)%Z -> (0 <= new_w)%Z ->
  exists mapped heat,
    MAP similarity = Done mapped /\
    reshape mapped new_h new_w = Done heat /\
    Z.of_nat (length heat) = new_h /\
    Forall (fun row => Z.of_nat (length row) = new_w) heat.
Proof.
  intros [Hlen Hcols] HN Hgrid Hh Hw.
  destruct (MAP_returns similarity) as (top25 & HMAP).
  - lia.
  - eapply Forall_impl; [|exact Hcols]. intros row Hrow.
    destruct row; [discriminate Hrow | discriminate].
  - set (mapped := map (map (MAP_entry (tensor_std similarity) top25))
                       similarity) in *.
    assert (Hmcols : Forall (fun row : list (option R) => length row = 1%nat)
                            mapped).
    { unfold mapped. apply Forall_forall. intros row Hrow.
      apply in_map_iff in Hrow as (r & <- & Hr). rewrite length_map.
      rewrite Forall_forall in Hcols. now apply Hcols. }
    destruct (reshape_fits mapped new_h new_w Hh Hw) as (heat & Hheat & Hl & Hc & _).
    + rewrite (concat_length_const mapped 1 Hmcols).
      unfold mapped. rewrite length_map, Hlen. lia.
    + exists mapped, heat. auto.
Qed.

Lemma process_frame_steps (rnd : nat -> nat) (fuel t x : nat)
  (dir : directory) (embedding source_feature : matrix R)
  (supervision_feature : option (matrix R)) (lambda_ : R)
  (new_w new_h : Z) (similarity : matrix R) (t' : nat)
  (mapped heat : list (list (option R))) :
  dir x = Some embedding ->
  frame_similarity rnd fuel t embedding source_feature supervision_feature
    lambda_ = Done (similarity, t') ->
  MAP similarity = Done mapped ->
  reshape mapped new_h new_w = Done heat ->
  process_frame rnd fuel t dir x source_feature new_w new_h
    supervision_feature lambda_ = Done (heat, t').
Proof.
  intros Hdir Hf HMAP Hr. unfold process_frame, torch_load.
  rewrite Hdir. cbn [bind]. rewrite Hf. cbn [bind]. rewrite HMAP. cbn [bind].
  now rewrite Hr.
Qed.

(** The frame [ramp_frame] is processed on the stream that always draws
    its first patch. *)
Lemma ramp_frame_run :
  exists heat t',
    process_frame always_first 40 0 ramp_directory 0 [along] 5 4 None (2 / 10)
    = Done (heat, t').
Proof.
  destruct (negative_sample_returns always_first along ramp_frame
              (lerp (dot along along) (dot along along) (IZR 3 / IZR 10)%R)
              ltac:(discriminate) 40 40 0) as ([negatives t'] & Hs).
  - discriminate.
  - lia.
  - rewrite accepted_draws_all; [lia | apply ramp_frame_accepts].
  - destruct (frame_similarity_returns always_first 40 0 ramp_frame [along]
                None (2 / 10) _ negatives t' ramp_frame_threshold Hs)
      as (similarity & Hf).
    pose proof (frame_similarity_shape always_first 40 0 ramp_frame along None
                  (2 / 10) similarity t' 20 2 ramp_frame_shape ltac:(lia)
                  eq_refl ltac:(discriminate) Hf) as Hshape.
    destruct (map_and_reshape_returns similarity 20 5 4 Hshape)
      as (mapped & heat & HMAP & Hr & _); try lia; try reflexivity.
    exists heat, t'.
    now apply (process_frame_steps _ _ _ _ _ ramp_frame _ _ _ _ _ similarity _ mapped).
Qed.

(** X10. A frame goes through [process_frames] without an exception when
    its tensor has [new_h * new_w] rows, at least 20 of them, of the
    dimension of the single query, and the stream draws 40 rows below the
    threshold within the fuel: the scores are mapped and reshaped to [new_h]
    rows of [new_w] entries. *)
Theorem process_frame_returns (rnd : nat -> nat) (fuel t x : nat)
  (dir : directory) (embedding : matrix R) (q : vec R)
  (supervision_feature : option (matrix R)) (lambda_ threshold : R)
  (new_w new_h : Z) (N D : nat) :
  dir x = Some embedding ->
  has_shape embedding N D -> (1 <= D)%nat -> length q = D ->
  (forall s, supervision_feature = Some s ->
             exists M, has_shape s M D /\ (1 <= M)%nat) ->
  (20 <= N)%nat -> Z.of_nat N = (new_h * new_w)%Z ->
  (0 <= new_h)%Z -> (0 <= new_w)%Z ->
  quantile (matmul embedding (transpose [q])) 7 10 = Done threshold ->
  (40 <= accepted_draws rnd q embedding threshold t fuel)%nat ->
  exists heat t',
    process_frame rnd fuel t dir x [q] new_w new_h supervision_feature lambda_
    = Done (heat, t') /\
    Z.of_nat (length heat) = new_h /\
    Forall (fun row => Z.of_nat (length row) = new_w) heat.
Proof.
  intros Hdir Hshape HD Hq Hsup HN Hgrid Hh Hw Hthr Hacc.
  assert (Hqne : q <> []) by (destruct q; [simpl in Hq; lia | discriminate]).
  assert (Hne : embedding <> []).
  { destruct Hshape as [Hlen _]. destruct embedding; [simpl in Hlen; lia|].
    discriminate. }
  destruct (negative_sample_returns rnd q embedding threshold Hqne 40 fuel t
              Hne ltac:(lia) Hacc) as ([negatives t'] & Hs).
  destruct (frame_similarity_returns rnd fuel t embedding [q]
              supervision_feature lambda_ threshold negatives t' Hthr Hs)
    as (similarity & Hf).
  pose proof (frame_similarity_shape rnd fuel t embedding q supervision_feature
                lambda_ similarity t' N D Hshape HD Hq Hsup Hf) as Hsim.
  destruct (map_and_reshape_returns similarity N new_w new_h Hsim HN Hgrid Hh Hw)
    as (mapped & heat & HMAP & Hr & Hl & Hc).
  exists heat, t'. split; [|split; assumption].
  now apply (process_frame_steps _ _ _ _ _ embedding _ _ _ _ _ similarity _ mapped).
Qed.

(** The theorem at [ramp_frame], mapped to a grid of 4 rows and 5 columns. *)
Lemma process_frame_returns_witness :
  ramp_directory 0%nat = Some ramp_frame /\
  has_shape ramp_frame 20 2 /\ (1 <= 2)%nat /\ length along = 2%nat /\
  (20 <= 20)%nat /\ Z.of_nat 20 = (4 * 5)%Z /\ (0 <= 4)%Z /\ (0 <= 5)%Z /\
  quantile (matmul ramp_frame (transpose [along])) 7 10
  = Done (lerp (dot along along) (dot along along) (IZR 3 / IZR 10)%R) /\
  (40 <= accepted_draws always_first along ramp_frame
           (lerp (dot along along) (dot along along) (IZR 3 / IZR 10)%R) 0 40)%nat /\
  exists heat t',
    process_frame always_first 40 0 ramp_directory 0 [along] 5 4 None (2 / 10)
    = Done (heat, t') /\
    Z.of_nat (length heat) = 4%Z /\
    Forall (fun row => Z.of_nat (length row) = 5%Z) heat.
Proof.
  assert (Hacc : (40 <= accepted_draws always_first along ramp_frame
                          (lerp (dot along along) (dot along along)
                                (IZR 3 / IZR 10)%R) 0 40)%nat).
  { rewrite accepted_draws_all; [lia | apply ramp_frame_accepts]. }
  split; [reflexivity|]. split; [exact ramp_frame_shape|].
  split; [lia|]. split; [reflexivity|]. split; [lia|]. split; [reflexivity|].
  split; [lia|]. split; [lia|]. split; [exact ramp_frame_threshold|].
  split; [exact Hacc|].
  assert (Hsup : forall s : matrix R, None = Some s ->
                   exists M, has_shape s M 2 /\ (1 <= M)%nat)
    by discriminate.
  apply (process_frame_returns always_first 40 0 0 ramp_directory ramp_frame
           along None (2 / 10)
           (lerp (dot along along) (dot along along) (IZR 3 / IZR 10)%R)
           5 4 20 2 eq_refl ramp_frame_shape ltac:(lia) eq_refl Hsup
           ltac:(lia) eq_refl ltac:(lia) ltac:(lia) ramp_frame_threshold Hacc).
Defined.

(** The loop over the frames adds one heat map per frame. *)
Lemma process_loop_Done (rnd : nat -> nat) (xs : list nat) (fuel t : nat)
  (dir : directory) (source_feature : matrix R) (new_w new_h : Z)
  (supervision_feature : option (matrix R)) (lambda_ : R)
  (acc movie : list (list (list (option R)))) :
  process_loop rnd xs fuel t dir source_feature new_w new_h
    supervision_feature lambda_ acc = Done movie ->
  exists new,
    movie = acc ++ new /\ length new = length xs /\
    Forall (fun heat =>
              exists mapped, reshape mapped new_h new_w = Done heat) new.
Proof.
  revert t acc. induction xs as [|x xs IH]; intros t acc H.
  - inversion H; subst. exists []. rewrite app_nil_r. auto.
  - cbn [process_loop] in H. inv_bind H as r Er. destruct r as [heat t1].
    destruct (IH _ _ H) as (new & -> & Hlen & Hall).
    exists (heat :: new). rewrite <- app_assoc. split; [reflexivity|].
    split; [simpl; now rewrite Hlen|].
    constructor; [|assumption].
    apply process_frame_Done in Er as (_ & _ & mapped & _ & _ & _ & Hr).
    now exists mapped.
Qed.

(** X11. When [process_frames] returns, its movie has one heat map for
    each of the first [min(len(images), num_frames)] frames, and every heat
    map has [new_h] rows of [new_w] entries. *)
Theorem process_frames_movie_shape (rnd : nat -> nat) (fuel : nat)
  (dir : directory) (source_feature : matrix R) (new_w new_h : Z)
  (images : list image) (num_frames : nat)
  (supervision_feature : option (matrix R)) (lambda_ : R)
  (movie : list (list (list (option R)))) :
  (0 <= new_h)%Z -> (0 <= new_w)%Z ->
  process_frames rnd fuel dir source_feature new_w new_h images num_frames
    supervision_feature lambda_ = Done movie ->
  length movie = Nat.min (length images) num_frames /\
  Forall (fun heat =>
            Z.of_nat (length heat) = new_h /\
            Forall (fun row => Z.of_nat (length row) = new_w) heat) movie.
Proof.
  intros Hh Hw H. unfold process_frames in H.
  apply process_loop_Done in H as (new & -> & Hlen & Hall).
  cbn [app]. rewrite Hlen, length_seq. split; [reflexivity|].
  eapply Forall_impl; [|exact Hall]. cbv beta.
  intros heat (mapped & Hr).
  destruct (reshape_Done_shape mapped heat new_h new_w Hh Hw Hr) as (? & ? & _).
  auto.
Qed.

(** The theorem on one frame whose tensor is [ramp_frame]. *)
Lemma process_frames_movie_shape_witness :
  (0 <= 4)%Z /\ (0 <= 5)%Z /\
  exists movie,
    process_frames always_first 40 ramp_directory [along] 5 4 [frame_129] 1
      None (2 / 10) = Done movie /\
    length movie = Nat.min (length [frame_129]) 1 /\
    Forall (fun heat =>
              Z.of_nat (length heat) = 4%Z /\
              Forall (fun row => Z.of_nat (length row) = 5%Z) heat) movie.
Proof.
  split; [lia|]. split; [lia|].
  destruct ramp_frame_run as (heat & t' & Hpf).
  assert (Hrun : process_frames always_first 40 ramp_directory [along] 5 4
                   [frame_129] 1 None (2 / 10) = Done [heat]).
  { unfold process_frames. cbn [length Nat.min seq process_loop].
    rewrite Hpf. reflexivity. }
  exists [heat]. split; [exact Hrun|].
  apply (process_frames_movie_shape always_first 40 ramp_directory [along] 5 4
           [frame_129] 1 None (2 / 10) [heat]); [lia | lia | exact Hrun].
Defined.

Local Close Scope R_scope.

(** * The scratch directory of [save_frame_embeddings] *)

Lemma frame_129_extract :
  extract_patches_rect frame_129 128 4 4
  = Done (frame_129_patches, 42, 42, 256, 256)%Z.
Proof. vm_compute. reflexivity. Qed.

Lemma frame_129_patches_nonempty : frame_129_patches <> [].
Proof. unfold frame_129_patches. discriminate. Qed.

Section SaveFacts.
Variable image_transforms : image -> image.
Variable encode_image : image -> vec R.

Let feature := patch_feature image_transforms encode_image.

(** The loop over the frame numbers: frames that are not visited keep what
    the directory held, every visited frame holds the features of its own
    patches. *)
Lemma save_loop_lookup (xs : list nat) (images : list image) (ppr ppc : Z)
  (dir dir' : directory) (grid grid' : Z * Z * Z * Z) :
  NoDup xs ->
  save_loop image_transforms encode_image xs images ppr ppc dir grid
  = Done (dir', grid') ->
  (forall x, ~ In x xs -> dir' x = dir x) /\
  (forall x, In x xs ->
     exists im patches sx sy pw ph,
       nth_error images x = Some im /\
       extract_patches_rect im FrameArgs.patch_size ppr ppc
       = Done (patches, sx, sy, pw, ph) /\
       dir' x = Some (map feature patches)).
Proof.
  intros Hnd. revert dir grid.
  induction Hnd as [|x0 xs Hx0 Hnd IH]; intros dir grid Hs.
  - inversion Hs; subst. split; [reflexivity | contradiction].
  - cbn [save_loop] in Hs. inv_bind Hs as im Eim. inv_bind Hs as r Er.
    destruct r as [[[[patches sx] sy] pw] ph].
    inv_bind Hs as feats Ef. apply embed_patches_Done in Ef. subst feats.
    destruct (IH _ _ Hs) as [Hout Hin].
    assert (Hx0' : dir' x0 = Some (map feature patches)).
    { rewrite (Hout x0 Hx0). unfold torch_save. now rewrite Nat.eqb_refl. }
    split.
    + intros x Hx. rewrite Hout by (intros Hc; apply Hx; now right).
      unfold torch_save. destruct (Nat.eqb_spec x x0); [|reflexivity].
      subst. elim Hx. now left.
    + intros x [<-|Hx]; [|now apply Hin].
      exists im, patches, sx, sy, pw, ph. repeat split; try assumption.
      unfold getitem in Eim. destruct (nth_error images x0); now inversion Eim.
Qed.

(** The loop returns only when every frame number it visits exists. *)
Lemma save_loop_in_range (xs : list nat) (images : list image) (ppr ppc : Z)
  (dir : directory) (grid : Z * Z * Z * Z) (r : directory * (Z * Z * Z * Z)) :
  save_loop image_transforms encode_image xs images ppr ppc dir grid = Done r ->
  forall x, In x xs -> (x < length images)%nat.
Proof.
  revert dir grid. induction xs as [|x0 xs IH]; intros dir grid Hs x Hx;
    [contradiction|].
  cbn [save_loop] in Hs. inv_bind Hs as im Eim. inv_bind Hs as p Ep.
  destruct p as [[[[patches sx] sy] pw] ph]. inv_bind Hs as feats Ef.
  destruct Hx as [<-|Hx]; [|exact (IH _ _ Hs x Hx)].
  unfold getitem in Eim. destruct (nth_error images x0) eqn:E; [|discriminate].
  apply nth_error_Some. congruence.
Qed.


(** On frames of one size, the loop returns for all the frames that
    exist, keeps the grid of the first frame, and every tensor it saves has
    as many rows as the first frame has patches. *)
Lemma save_loop_same_size (xs : list nat) (images : list image) (ppr ppc : Z)
  (image0 : image) (patches0 : list image) (sx sy pw ph : Z) (dir : directory) :
  (forall im, In im images -> size im = size image0) ->
  extract_patches_rect image0 FrameArgs.patch_size ppr ppc
  = Done (patches0, sx, sy, pw, ph) ->
  (forall x, In x xs -> (x < length images)%nat) ->
  exists dir',
    save_loop image_transforms encode_image xs images ppr ppc dir
      (sx, sy, pw, ph) = Done (dir', (sx, sy, pw, ph)) /\
    forall x feats, dir' x = Some feats ->
      dir x = Some feats \/ length feats = length patches0.
Proof.
  intros Hsize H0. revert dir.
  induction xs as [|x xs IH]; intros dir Hxs.
  - exists dir. split; [reflexivity | auto].
  - cbn [save_loop]. unfold getitem.
    destruct (nth_error images x) as [im|] eqn:Eim.
    2:{ apply nth_error_None in Eim.
        specialize (Hxs x (or_introl eq_refl)). lia. }
    cbn [bind].
    destruct (same_size_same_grid image0 im FrameArgs.patch_size ppr ppc
                patches0 sx sy pw ph) as (patches & Hp & Hlen).
    { symmetry. apply Hsize. eapply nth_error_In; eauto. }
    { assumption. }
    rewrite Hp. cbn [bind].
    assert (Hne : patches <> []).
    { apply extract_patches_rect_Done in Hp
        as (_ & _ & _ & _ & _ & _ & _ & _ & Hne & _). exact Hne. }
    rewrite (embed_patches_map _ _ _ Hne). cbn [bind].
    destruct (IH (torch_save dir x
                    (map (patch_feature image_transforms encode_image) patches)))
      as (dir' & Hd & Hall).
    { intros y Hy. apply Hxs. now right. }
    exists dir'. split; [exact Hd|].
    intros y feats Hy. destruct (Hall y feats Hy) as [Hold|Hl]; [|now right].
    unfold torch_save in Hold. destruct (Nat.eqb y x).
    + right. inversion Hold; subst. now rewrite length_map.
    + now left.
Qed.

(** On frames of one size that can be cut into patches,
    [save_frame_embeddings] returns when the frames asked for exist. *)
Lemma save_frame_embeddings_runs (images : list image) (image0 : image)
  (num_frames : nat) (skip : bool) (dir : directory) :
  nth_error images 0 = Some image0 ->
  (forall im, In im images -> size im = size image0) ->
  returns (frame_patches image0) ->
  (num_frames <= length images)%nat ->
  exists dir' new_w new_h,
    save_frame_embeddings image_transforms encode_image images num_frames skip
      dir = Done (dir', new_w, new_h, images).
Proof.
  intros H0 Hsize (r & Hr) Hn. apply frame_patches_Done in Hr.
  destruct r as [[[[patches0 sx] sy] pw] ph].
  pose proof (extract_patches_rect_facts _ _ _ _ _ _ _ _ _ Hr)
    as (_ & Hpw & Hph & _ & _ & Hsx & Hsy & Hsx0 & Hsy0 & Hnx & Hny & _).
  assert (Hbx : (1 <= sx < 128)%Z)
    by (subst pw; apply (default_stride_bounds (im_width image0)); assumption).
  assert (Hby : (1 <= sy < 128)%Z)
    by (subst ph; apply (default_stride_bounds (im_height image0)); assumption).
  unfold save_frame_embeddings, getitem. rewrite H0. cbn [bind].
  unfold size, py_floordiv.
  change (FrameArgs.downscale =? 0)%Z with false. cbn [bind].
  change FrameArgs.patch_size with 128%Z in *.
  change FrameArgs.downscale with 32%Z in *.
  rewrite Hr. cbn [bind].
  assert (Hloop : exists dir',
            (if skip then Done (dir, (sx, sy, pw, ph))
             else save_loop image_transforms encode_image (seq 0 num_frames)
                    images (im_width image0 / 32) (im_height image0 / 32)
                    empty_directory (sx, sy, pw, ph))
            = Done (dir', (sx, sy, pw, ph))).
  { destruct skip; [now exists dir|].
    destruct (save_loop_same_size (seq 0 num_frames) images
                (im_width image0 / 32) (im_height image0 / 32)
                image0 patches0 sx sy pw ph empty_directory Hsize Hr)
      as (dir' & Hd & _).
    { intros x Hx. apply in_seq in Hx. lia. }
    now exists dir'. }
  destruct Hloop as (dir' & ->). cbn [bind].
  unfold grid_dim, py_floordiv.
  destruct (Z.eqb_spec sx 0); [lia|]. destruct (Z.eqb_spec sy 0); [lia|].
  cbn [bind]. now eexists _, _, _.
Qed.

(** X12. After [save_frame_embeddings] has run without [skip], the scratch
    directory holds exactly the frames below [num_frames], whatever it held
    before: loading such a frame gives the normalised features of the patches
    of that frame, one row per patch, and loading any other frame fails. *)
Theorem save_then_load (images imgs : list image) (image0 : image)
  (num_frames : nat) (dir dir' : directory) (new_w new_h : Z) :
  nth_error images 0 = Some image0 ->
  save_frame_embeddings image_transforms encode_image images num_frames false
    dir = Done (dir', new_w, new_h, imgs) ->
  (num_frames <= length images)%nat /\
  (forall x, (num_frames <= x)%nat ->
             torch_load dir' x = Raise FileNotFoundError) /\
  (forall x im, (x < num_frames)%nat -> nth_error images x = Some im ->
     exists patches sx sy pw ph,
       extract_patches_rect im FrameArgs.patch_size
         (im_width image0 / FrameArgs.downscale)
         (im_height image0 / FrameArgs.downscale)
       = Done (patches, sx, sy, pw, ph) /\
       torch_load dir' x = Done (map feature patches)).
Proof.
  intros H0 Hs. unfold save_frame_embeddings, getitem in Hs.
  rewrite H0 in Hs. cbn [bind] in Hs. unfold size, py_floordiv in Hs.
  change (FrameArgs.downscale =? 0)%Z with false in Hs. cbn [bind] in Hs.
  inv_bind Hs as r Er. destruct r as [[[[patches0 sx0] sy0] pw0] ph0].
  inv_bind Hs as r' Er'. destruct r' as [dir1 [[[sx1 sy1] pw1] ph1]].
  inv_bind Hs as w Ew. inv_bind Hs as h Eh.
  assert (dir1 = dir') by (inversion Hs; reflexivity). subst dir1. clear Hs.
  destruct (save_loop_lookup _ _ _ _ _ _ _ _ (seq_NoDup num_frames 0) Er')
    as [Hout Hin].
  assert (Hget : forall x, (x < num_frames)%nat ->
            exists im patches sx sy pw ph,
              nth_error images x = Some im /\
              extract_patches_rect im FrameArgs.patch_size
                (im_width image0 / FrameArgs.downscale)
                (im_height image0 / FrameArgs.downscale)
              = Done (patches, sx, sy, pw, ph) /\
              dir' x = Some (map feature patches)).
  { intros x Hx. apply Hin. apply in_seq. lia. }
  split; [|split].
  - destruct (Nat.le_gt_cases num_frames (length images)) as [|Hgt];
      [assumption|].
    destruct (Hget (length images) Hgt) as (im & _ & _ & _ & _ & _ & Him & _).
    assert (nth_error images (length images) = None)
      by (apply nth_error_None; lia). congruence.
  - intros x Hx. unfold torch_load. rewrite Hout; [reflexivity|].
    rewrite in_seq. lia.
  - intros x im Hx Him.
    destruct (Hget x Hx) as (im' & patches & sx & sy & pw & ph & Him' & He & Hd).
    assert (im' = im) by congruence. subst im'.
    exists patches, sx, sy, pw, ph. split; [assumption|].
    unfold torch_load. now rewrite Hd.
Qed.

(** X13. With [skip] (the default) [save_frame_embeddings] writes nothing:
    the directory is left as it was, and [process_frames] on it then raises
    [FileNotFoundError] at the first frame when that frame was never
    saved. *)
Theorem skip_writes_nothing (images imgs : list image) (num_frames : nat)
  (dir dir' : directory) (new_w new_h : Z) :
  save_frame_embeddings image_transforms encode_image images num_frames true
    dir = Done (dir', new_w, new_h, imgs) ->
  dir' = dir /\ imgs = images /\
  forall (rnd : nat -> nat) (fuel frames : nat) (source_feature : matrix R)
         (supervision_feature : option (matrix R)) (lambda_ : R),
    dir 0%nat = None -> (1 <= frames)%nat ->
    process_frames rnd fuel dir' source_feature new_w new_h imgs frames
      supervision_feature lambda_ = Raise FileNotFoundError.
Proof.
  intros Hs. unfold save_frame_embeddings, getitem in Hs.
  destruct (nth_error images 0) as [image0|] eqn:H0; [|discriminate].
  cbn [bind] in Hs. unfold size, py_floordiv in Hs.
  change (FrameArgs.downscale =? 0)%Z with false in Hs. cbn [bind] in Hs.
  inv_bind Hs as r Er. destruct r as [[[[patches0 sx0] sy0] pw0] ph0].
  cbn [bind] in Hs. inv_bind Hs as w Ew. inv_bind Hs as h Eh.
  assert (Hd : dir = dir' /\ images = imgs) by (inversion Hs; auto).
  destruct Hd as [<- <-]. clear Hs.
  split; [reflexivity|]. split; [reflexivity|].
  intros rnd fuel frames source_feature supervision_feature lambda_ Hnone Hfr.
  unfold process_frames.
  destruct images as [|im images]; [discriminate|].
  destruct frames as [|frames]; [lia|].
  cbn [length Nat.min seq process_loop]. unfold process_frame, torch_load.
  rewrite Hnone. reflexivity.
Qed.


(** X15. For frames of one size, every tensor that
    [save_frame_embeddings] writes has [new_w * new_h] rows, with the
    [new_w] and [new_h] that it returns: one row for each cell of the grid to
    which [process_frames] reshapes the scores of the frame. *)
Theorem saved_rows_fill_grid (images imgs : list image) (image0 : image)
  (num_frames : nat) (dir dir' : directory) (new_w new_h : Z) :
  nth_error images 0 = Some image0 ->
  (forall im, In im images -> size im = size image0) ->
  save_frame_embeddings image_transforms encode_image images num_frames false
    dir = Done (dir', new_w, new_h, imgs) ->
  forall x features,
    torch_load dir' x = Done features ->
    Z.of_nat (length features) = (new_w * new_h)%Z.
Proof.
  intros H0 Hsize Hs. unfold save_frame_embeddings, getitem in Hs.
  rewrite H0 in Hs. cbn [bind] in Hs. unfold size, py_floordiv in Hs.
  change (FrameArgs.downscale =? 0)%Z with false in Hs. cbn [bind] in Hs.
  inv_bind Hs as r Er. destruct r as [[[[patches0 sx] sy] pw] ph].
  inv_bind Hs as r' Er'.
  assert (Hlen_images : (num_frames <= length images)%nat).
  { destruct num_frames as [|n]; [lia|].
    pose proof (save_loop_in_range _ _ _ _ _ _ _ Er' n) as Hn.
    rewrite in_seq in Hn. lia. }
  destruct (save_loop_same_size (seq 0 num_frames) images
              (im_width image0 / FrameArgs.downscale)
              (im_height image0 / FrameArgs.downscale)
              image0 patches0 sx sy pw ph empty_directory Hsize Er)
    as (dir1 & Hd & Hrows).
  { intros x Hx. apply in_seq in Hx. lia. }
  rewrite Hd in Er'. inversion Er'; subst r'; clear Er'. cbn [bind] in Hs.
  inv_bind Hs as w Ew. inv_bind Hs as h Eh.
  assert (Hres : dir1 = dir' /\ w = new_w /\ h = new_h) by (inversion Hs; auto).
  destruct Hres as (-> & -> & ->). clear Hs.
  pose proof (extract_patches_rect_facts _ _ _ _ _ _ _ _ _ Er)
    as (_ & Hpw & Hph & _ & _ & Hsx & Hsy & Hsx0 & Hsy0 & Hnx & Hny & Hlen).
  change FrameArgs.patch_size with 128%Z in *.
  change FrameArgs.downscale with 32%Z in *.
  assert (Hbx : (1 <= sx < 128)%Z)
    by (subst pw; apply (default_stride_bounds (im_width image0)); assumption).
  assert (Hby : (1 <= sy < 128)%Z)
    by (subst ph; apply (default_stride_bounds (im_height image0)); assumption).
  pose proof (grid_positions_count pw 128 sx ltac:(lia) Hnx) as Hcx.
  pose proof (grid_positions_count ph 128 sy ltac:(lia) Hny) as Hcy.
  unfold grid_dim, py_floordiv in Ew, Eh.
  destruct (Z.eqb_spec sx 0); [lia|]. destruct (Z.eqb_spec sy 0); [lia|].
  cbn [bind] in Ew, Eh.
  assert (new_w = ((pw - 128) / sx + 1)%Z) by (inversion Ew; reflexivity).
  assert (new_h = ((ph - 128) / sy + 1)%Z) by (inversion Eh; reflexivity).
  subst new_w new_h.
  intros x features Hload. unfold torch_load in Hload.
  destruct (dir' x) as [feats|] eqn:Hx; [|discriminate].
  assert (feats = features) by (inversion Hload; reflexivity). subst feats.
  destruct (Hrows x features Hx) as [Hold|Hl]; [discriminate|].
  rewrite Hl, Hlen. lia.
Qed.
End SaveFacts.

(** The frames of a video of one frame, [frame_129]. *)
Lemma one_frame_same_size :
  forall im, In im [frame_129] -> size im = size frame_129.
Proof. intros im [<-|[]]. reflexivity. Qed.

Lemma frame_129_returns : returns (frame_patches frame_129).
Proof.
  exists (frame_129_patches, 42, 42, 256, 256)%Z.
  unfold frame_patches, size, py_floordiv, FrameArgs.downscale.
  change (32 =? 0)%Z with false. cbn [bind]. exact frame_129_extract.
Qed.

(** The theorem on the video of the single frame [frame_129], saved over a
    directory that held [ramp_frame] for every frame number. *)
Lemma save_then_load_witness :
  nth_error [frame_129] 0 = Some frame_129 /\
  exists dir' new_w new_h,
    save_frame_embeddings no_transform size_encoder [frame_129] 1 false
      ramp_directory = Done (dir', new_w, new_h, [frame_129]) /\
    (1 <= length [frame_129])%nat /\
    (forall x, (1 <= x)%nat -> torch_load dir' x = Raise FileNotFoundError) /\
    (forall x im, (x < 1)%nat -> nth_error [frame_129] x = Some im ->
       exists patches sx sy pw ph,
         extract_patches_rect im FrameArgs.patch_size
           (im_width frame_129 / FrameArgs.downscale)
           (im_height frame_129 / FrameArgs.downscale)
         = Done (patches, sx, sy, pw, ph) /\
         torch_load dir' x
         = Done (map (patch_feature no_transform size_encoder) patches)).
Proof.
  split; [reflexivity|].
  destruct (save_frame_embeddings_runs no_transform size_encoder [frame_129]
              frame_129 1 false ramp_directory eq_refl one_frame_same_size
              frame_129_returns (le_n 1)) as (dir' & new_w & new_h & Hrun).
  exists dir', new_w, new_h. split; [exact Hrun|].
  exact (save_then_load no_transform size_encoder [frame_129] [frame_129]
           frame_129 1 ramp_directory dir' new_w new_h eq_refl Hrun).
Defined.

(** The theorem on the video of the single frame [frame_129] and an empty
    directory. *)
Lemma skip_writes_nothing_witness :
  exists dir' new_w new_h,
    save_frame_embeddings no_transform size_encoder [frame_129] 1 true
      empty_directory = Done (dir', new_w, new_h, [frame_129]) /\
    dir' = empty_directory /\ [frame_129] = [frame_129] /\
    forall (rnd : nat -> nat) (fuel frames : nat) (source_feature : matrix R)
           (supervision_feature : option (matrix R)) (lambda_ : R),
      empty_directory 0%nat = None -> (1 <= frames)%nat ->
      process_frames rnd fuel dir' source_feature new_w new_h [frame_129]
        frames supervision_feature lambda_ = Raise FileNotFoundError.
Proof.
  destruct (save_frame_embeddings_runs no_transform size_encoder [frame_129]
              frame_129 1 true empty_directory eq_refl one_frame_same_size
              frame_129_returns (le_n 1)) as (dir' & new_w & new_h & Hrun).
  exists dir', new_w, new_h. split; [exact Hrun|].
  exact (skip_writes_nothing no_transform size_encoder [frame_129] [frame_129]
           1 empty_directory dir' new_w new_h Hrun).
Defined.


(** The theorem on the video of the single frame [frame_129]. *)
Lemma saved_rows_fill_grid_witness :
  nth_error [frame_129] 0 = Some frame_129 /\
  (forall im, In im [frame_129] -> size im = size frame_129) /\
  exists dir' new_w new_h,
    save_frame_embeddings no_transform size_encoder [frame_129] 1 false
      empty_directory = Done (dir', new_w, new_h, [frame_129]) /\
    forall x features,
      torch_load dir' x = Done features ->
      Z.of_nat (length features) = (new_w * new_h)%Z.
Proof.
  split; [reflexivity|]. split; [exact one_frame_same_size|].
  destruct (save_frame_embeddings_runs no_transform size_encoder [frame_129]
              frame_129 1 false empty_directory eq_refl one_frame_same_size
              frame_129_returns (le_n 1)) as (dir' & new_w & new_h & Hrun).
  exists dir', new_w, new_h. split; [exact Hrun|].
  exact (saved_rows_fill_grid no_transform size_encoder [frame_129] [frame_129]
           frame_129 1 empty_directory dir' new_w new_h eq_refl
           one_frame_same_size Hrun).
Defined.

(** * The movie of [save_movie_overlay] *)

Lemma mapM_all_return {A B : Type} (f : A -> outcome B) (l : list A) :
  returns (mapM f l) -> forall x, In x l -> returns (f x).
Proof.
  intros (r & Hr) x Hx. apply mapM_Forall2 in Hr.
  induction Hr as [|x0 y0 l r Hxy _ IH]; [contradiction|].
  destruct Hx as [<-|Hx]; [now exists y0 | now apply IH].
Qed.

(** [range(n)] lists the numbers below [n]. *)
Lemma range_upto (n : Z) :
  range_elems 0 n 1 = map Z.of_nat (seq 0 (Z.to_nat n)).
Proof.
  unfold range_elems, range_length. cbn [Z.ltb Z.compare].
  destruct (Z.ltb_spec 0 n).
  - replace ((n - 1 - 0) / 1 + 1) with n by (rewrite Z.div_1_r; lia).
    apply map_ext. intros i. lia.
  - replace (Z.to_nat n) with 0%nat by lia. reflexivity.
Qed.

(** An index that is not negative is looked up as it is. *)
Lemma py_getitem_nat {A : Type} (l : list A) (i : Z) :
  0 <= i -> py_getitem l i = getitem l (Z.to_nat i).
Proof.
  intros Hi. unfold py_getitem. cbv zeta.
  destruct (Z.ltb_spec i 0); [lia|].
  destruct (Z.ltb_spec i 0); [lia|]. cbn [orb].
  destruct (Z.leb_spec (Z.of_nat (length l)) i); [|reflexivity].
  unfold getitem.
  assert (Hn : nth_error l (Z.to_nat i) = None)
    by (apply nth_error_None; lia).
  now rewrite Hn.
Qed.

Section OverlayFacts.
Variables heat frame : Type.
Variable overlay : image -> heat -> frame.

Lemma save_movie_overlay_loop (heatmap : list heat) (images : list image)
  (num_frames sample_factor : Z) :
  save_movie_overlay heat frame overlay heatmap images num_frames sample_factor
  = mapM (overlay_frame heat frame overlay heatmap images sample_factor)
      (map Z.of_nat
         (seq 0 (Z.to_nat (Z.min (Z.of_nat (length images)) num_frames)))).
Proof.
  unfold save_movie_overlay, py_range. change (1 =? 0) with false. cbv iota.
  cbn [bind]. now rewrite range_upto.
Qed.

(** With a positive [sample_factor], frame [k] is drawn under the heat map
    whose number is [k] rounded down to a multiple of [sample_factor]. *)
Lemma overlay_frame_at (heatmap : list heat) (images : list image)
  (sample_factor : Z) (k : nat) :
  1 <= sample_factor ->
  overlay_frame heat frame overlay heatmap images sample_factor (Z.of_nat k)
  = (image <- getitem images k ;;
     h <- getitem heatmap
            (Z.to_nat (Z.of_nat k - Z.of_nat k mod sample_factor)) ;;
     Done (overlay image h)).
Proof.
  intros Hs. unfold overlay_frame.
  rewrite py_getitem_nat by lia. rewrite Nat2Z.id.
  destruct (getitem images k) as [im| |]; cbn [bind]; try reflexivity.
  unfold py_floordiv. destruct (Z.eqb_spec sample_factor 0); [lia|].
  cbn [bind].
  assert (Hidx : sample_factor * (Z.of_nat k / sample_factor)
                 = Z.of_nat k - Z.of_nat k mod sample_factor).
  { pose proof (Z.div_mod (Z.of_nat k) sample_factor ltac:(lia)). lia. }
  rewrite Hidx.
  pose proof (Z.mod_pos_bound (Z.of_nat k) sample_factor ltac:(lia)).
  assert (Hle : Z.of_nat k mod sample_factor <= Z.of_nat k)
    by (apply Z.mod_le; lia).
  rewrite py_getitem_nat by lia. reflexivity.
Qed.

Lemma overlay_frame_returns (heatmap : list heat) (images : list image)
  (sample_factor : Z) (k : nat) :
  1 <= sample_factor ->
  (returns (overlay_frame heat frame overlay heatmap images sample_factor
              (Z.of_nat k))
   <-> (k < length images)%nat /\
       Z.of_nat k - Z.of_nat k mod sample_factor < Z.of_nat (length heatmap)).
Proof.
  intros Hs. rewrite overlay_frame_at by assumption. unfold getitem.
  pose proof (Z.mod_pos_bound (Z.of_nat k) sample_factor ltac:(lia)).
  assert (Hle : Z.of_nat k mod sample_factor <= Z.of_nat k)
    by (apply Z.mod_le; lia).
  split.
  - intros (r & Hr).
    destruct (nth_error images k) eqn:Ei; [|discriminate]. cbn [bind] in Hr.
    destruct (nth_error heatmap _) eqn:Eh; [|discriminate].
    split; [apply nth_error_Some; rewrite Ei; discriminate|].
    assert (Hlt : (Z.to_nat (Z.of_nat k - Z.of_nat k mod sample_factor)
                   < length heatmap)%nat)
      by (apply nth_error_Some; rewrite Eh; discriminate).
    lia.
  - intros [Hi Hh].
    destruct (nth_error images k) eqn:Ei;
      [|apply nth_error_None in Ei; lia]. cbn [bind].
    destruct (nth_error heatmap _) eqn:Eh;
      [|apply nth_error_None in Eh; lia]. cbn [bind].
    eexists. reflexivity.
Qed.

(** X16. With a positive [sample_factor], [save_movie_overlay] returns
    exactly when the heat map of the last frame exists; it then makes one
    output frame for each of the first [min(len(images), num_frames)] frames,
    and frame [i] is the image [i] under the heat map whose number is [i]
    rounded down to a multiple of [sample_factor]: only every
    [sample_factor]-th heat map is shown, each for [sample_factor] frames. *)
Theorem save_movie_overlay_holds_heat_maps (heatmap : list heat)
  (images : list image) (num_frames sample_factor : Z) :
  1 <= sample_factor ->
  let n := Z.min (Z.of_nat (length images)) num_frames in
  (returns (save_movie_overlay heat frame overlay heatmap images num_frames
              sample_factor)
   <-> n <= 0 \/ (n - 1) - (n - 1) mod sample_factor
                 < Z.of_nat (length heatmap)) /\
  forall output_frames,
    save_movie_overlay heat frame overlay heatmap images num_frames
      sample_factor = Done output_frames ->
    length output_frames = Z.to_nat n /\
    forall i : nat, Z.of_nat i < n ->
      exists im h,
        nth_error images i = Some im /\
        nth_error heatmap
          (Z.to_nat (Z.of_nat i - Z.of_nat i mod sample_factor)) = Some h /\
        nth_error output_frames i = Some (overlay im h).
Proof.
  intros Hs n. rewrite save_movie_overlay_loop. fold n. split.
  - split.
    + intros Hret. destruct (Z.le_gt_cases n 0) as [|Hn]; [now left|]. right.
      assert (Hin : In (Z.of_nat (Z.to_nat (n - 1)))
                       (map Z.of_nat (seq 0 (Z.to_nat n))))
        by (apply in_map, in_seq; lia).
      pose proof (mapM_all_return _ _ Hret _ Hin) as Hlast.
      apply overlay_frame_returns in Hlast; [|assumption].
      rewrite Z2Nat.id in Hlast by lia. tauto.
    + intros Hcond. apply mapM_returns. intros x Hx.
      apply in_map_iff in Hx as (k & <- & Hk). apply in_seq in Hk.
      destruct Hcond as [|Hcond]; [lia|].
      apply overlay_frame_returns; [assumption|].
      split; [unfold n in *; lia|].
      assert (Hmono : sample_factor * (Z.of_nat k / sample_factor)
                      <= sample_factor * ((n - 1) / sample_factor)).
      { apply Z.mul_le_mono_nonneg_l; [lia|].
        apply Z.div_le_mono; lia. }
      pose proof (Z.div_mod (Z.of_nat k) sample_factor ltac:(lia)).
      pose proof (Z.div_mod (n - 1) sample_factor ltac:(lia)).
      lia.
  - intros out Hout. split.
    + apply mapM_length in Hout. now rewrite length_map, length_seq in Hout.
    + intros i Hi.
      assert (Hnth : nth_error (map Z.of_nat (seq 0 (Z.to_nat n))) i
                     = Some (Z.of_nat i)).
      { rewrite nth_error_map, nth_error_seq.
        destruct (Nat.ltb_spec i (Z.to_nat n)); [reflexivity | lia]. }
      destruct (mapM_nth_error _ _ _ _ _ Hout Hnth) as (y & Hy & Hf).
      rewrite overlay_frame_at in Hf by assumption. unfold getitem in Hf.
      destruct (nth_error images i) as [im|]; [|discriminate].
      cbn [bind] in Hf.
      destruct (nth_error heatmap _) as [h|]; [|discriminate].
      cbn [bind] in Hf. exists im, h.
      repeat split. congruence.
Qed.

(** X17. [save_movie_overlay] with nothing to draw (no image, or
    [num_frames <= 0]) returns the empty movie whatever the other arguments;
    with a frame to draw and [sample_factor = 0] it raises
    [ZeroDivisionError] at the first frame. *)
Theorem save_movie_overlay_zero_sample_factor (heatmap : list heat)
  (images : list image) (num_frames sample_factor : Z) :
  (Z.min (Z.of_nat (length images)) num_frames <= 0 ->
   save_movie_overlay heat frame overlay heatmap images num_frames
     sample_factor = Done []) /\
  (1 <= Z.min (Z.of_nat (length images)) num_frames ->
   save_movie_overlay heat frame overlay heatmap images num_frames 0
   = Raise ZeroDivisionError).
Proof.
  rewrite !save_movie_overlay_loop. split; intros Hn.
  - replace (Z.to_nat _) with 0%nat by lia. reflexivity.
  - destruct (Z.to_nat _) as [|n] eqn:En; [lia|].
    cbn [seq map mapM]. unfold overlay_frame.
    change (Z.of_nat 0) with 0. rewrite py_getitem_nat by lia.
    unfold getitem. destruct images as [|im images];
      [cbn [length] in Hn; lia|].
    reflexivity.
Qed.

(** X18. The movie that [process_frames] returns can always be overlaid:
    for heat maps made one for one from that movie and a positive
    [sample_factor], [save_movie_overlay] on the same images and
    [num_frames] raises nothing and returns as many frames as the movie
    has. *)
Theorem process_frames_movie_overlays (rnd : nat -> nat) (fuel : nat)
  (dir : directory) (source_feature : matrix R) (new_w new_h : Z)
  (images : list image) (num_frames : nat)
  (supervision_feature : option (matrix R)) (lambda_ : R)
  (movie : list (list (list (option R)))) (heatmap : list heat)
  (sample_factor : Z) :
  process_frames rnd fuel dir source_feature new_w new_h images num_frames
    supervision_feature lambda_ = Done movie ->
  length heatmap = length movie ->
  1 <= sample_factor ->
  exists output_frames,
    save_movie_overlay heat frame overlay heatmap images
      (Z.of_nat num_frames) sample_factor = Done output_frames /\
    length output_frames = length movie.
Proof.
  intros Hp Hlen Hs. unfold process_frames in Hp.
  apply process_loop_Done in Hp as (new & -> & Hnew & _).
  cbn [app] in Hlen. rewrite length_seq in Hnew.
  rewrite save_movie_overlay_loop.
  assert (Hn : Z.to_nat (Z.min (Z.of_nat (length images)) (Z.of_nat num_frames))
               = length new) by lia.
  rewrite Hn.
  destruct (mapM_returns
              (overlay_frame heat frame overlay heatmap images sample_factor)
              (map Z.of_nat (seq 0 (length new)))) as (out & Hout).
  { intros x Hx. apply in_map_iff in Hx as (k & <- & Hk). apply in_seq in Hk.
    apply overlay_frame_returns; [assumption|].
    pose proof (Z.mod_pos_bound (Z.of_nat k) sample_factor ltac:(lia)).
    lia. }
  exists out. split; [exact Hout|].
  apply mapM_length in Hout. rewrite length_map, length_seq in Hout.
  cbn [app]. exact Hout.
Qed.
End OverlayFacts.

(** The theorem on three frames and three heat maps held for two frames each:
    the frames are drawn under the heat maps 0, 0 and 2. *)
Lemma save_movie_overlay_holds_heat_maps_witness :
  1 <= 2 /\
  (returns (save_movie_overlay Z Z heat_of three_heatmaps three_frames 141 2)
   <-> Z.min (Z.of_nat (length three_frames)) 141 <= 0 \/
       (Z.min (Z.of_nat (length three_frames)) 141 - 1)
       - (Z.min (Z.of_nat (length three_frames)) 141 - 1) mod 2
       < Z.of_nat (length three_heatmaps)) /\
  forall output_frames,
    save_movie_overlay Z Z heat_of three_heatmaps three_frames 141 2
    = Done output_frames ->
    length output_frames
    = Z.to_nat (Z.min (Z.of_nat (length three_frames)) 141) /\
    forall i : nat,
      Z.of_nat i < Z.min (Z.of_nat (length three_frames)) 141 ->
      exists im h,
        nth_error three_frames i = Some im /\
        nth_error three_heatmaps (Z.to_nat (Z.of_nat i - Z.of_nat i mod 2))
        = Some h /\
        nth_error output_frames i = Some (heat_of im h).
Proof.
  split; [lia|].
  exact (save_movie_overlay_holds_heat_maps Z Z heat_of three_heatmaps
           three_frames 141 2 ltac:(lia)).
Defined.

(** The theorem on three frames: an empty movie for [num_frames = 0], a
    [ZeroDivisionError] for [sample_factor = 0]. *)
Lemma save_movie_overlay_zero_sample_factor_witness :
  save_movie_overlay Z Z heat_of three_heatmaps three_frames 0 0 = Done [] /\
  save_movie_overlay Z Z heat_of three_heatmaps three_frames 141 0
  = Raise ZeroDivisionError.
Proof.
  split.
  - apply (proj1 (save_movie_overlay_zero_sample_factor Z Z heat_of
                    three_heatmaps three_frames 0 0)).
    vm_compute. discriminate.
  - apply (proj2 (save_movie_overlay_zero_sample_factor Z Z heat_of
                    three_heatmaps three_frames 141 0)).
    vm_compute. discriminate.
Defined.

(** The theorem on the movie of one frame whose tensor is [ramp_frame]. *)
Lemma process_frames_movie_overlays_witness :
  exists movie output_frames,
    process_frames always_first 40 ramp_directory [along] 5 4 [frame_129] 1
      None (2 / 10)%R = Done movie /\
    length movie = length movie /\ 1 <= 2 /\
    save_movie_overlay _ _ (fun im h => (im, h)) movie [frame_129]
      (Z.of_nat 1) 2 = Done output_frames /\
    length output_frames = length movie.
Proof.
  destruct ramp_frame_run as (heat & t' & Hpf).
  assert (Hrun : process_frames always_first 40 ramp_directory [along] 5 4
                   [frame_129] 1 None (2 / 10)%R = Done [heat]).
  { unfold process_frames. cbn [length Nat.min seq process_loop].
    rewrite Hpf. reflexivity. }
  destruct (process_frames_movie_overlays _ _ (fun im h => (im, h))
              always_first 40 ramp_directory [along] 5 4 [frame_129] 1 None
              (2 / 10)%R [heat] [heat] 2 Hrun eq_refl ltac:(lia))
    as (out & Hout & Hlen).
  exists [heat], out. split; [exact Hrun|]. split; [reflexivity|].
  split; [lia|]. split; [exact Hout | exact Hlen].
Defined.

(** * The logits of [main] and the grid of [show_heatmap] *)

Local Open Scope R_scope.

Lemma dot_scale_l (s : R) (a b : vec R) :
  dot (map (Rmult s) a) b = s * dot a b.
Proof.
  revert b. induction a as [|x a IH]; intros b.
  - cbn [map]. rewrite !dot_nil_l. lra.
  - destruct b as [|y b]; [rewrite !dot_nil_r; lra|].
    cbn [map]. rewrite !dot_cons, IH. lra.
Qed.

Lemma clamp_bounds (x lo hi : R) : lo <= hi -> lo <= clamp x lo hi <= hi.
Proof.
  intros Hlh. unfold clamp.
  pose proof (Rmax_r x lo). pose proof (Rmin_r (Rmax x lo) hi).
  split; [|assumption]. apply Rmin_glb; assumption.
Qed.

(** Row [r] of [n] rows of [c] elements cut from [l]. *)
Lemma chunks_nth {A : Type} (n c r : nat) (l : list A) :
  (r < n)%nat ->
  nth_error (chunks n c l) r = Some (firstn c (skipn (r * c) l)).
Proof.
  revert r l. induction n as [|n IH]; intros r l Hr; [lia|].
  destruct r as [|r]; cbn [chunks nth_error]; [reflexivity|].
  rewrite IH by lia. cbn [Nat.mul]. now rewrite skipn_skipn, Nat.add_comm.
Qed.

Lemma chunks_entry {A : Type} (n c r k : nat) (l : list A) :
  (r < n)%nat -> (k < c)%nat -> length l = (n * c)%nat ->
  exists row, nth_error (chunks n c l) r = Some row /\
              nth_error row k = nth_error l (r * c + k).
Proof.
  intros Hr Hk Hl. exists (firstn c (skipn (r * c) l)).
  split; [now apply chunks_nth|].
  rewrite nth_error_firstn.
  destruct (Nat.ltb_spec k c); [|lia].
  now rewrite nth_error_skipn.
Qed.

(** The grid that [get_frame_embeddings] returns has at least one row and
    one column. *)
Lemma get_frame_embeddings_grid_positive (image_transforms : image -> image)
  (encode_image : image -> vec R) (images imgs : list image)
  (features : matrix R) (new_w new_h : Z) :
  get_frame_embeddings image_transforms encode_image images
  = Done (features, new_w, new_h, imgs) ->
  (1 <= new_w)%Z /\ (1 <= new_h)%Z.
Proof.
  intros Hg.
  pose proof (get_frame_embeddings_features _ _ _ _ _ _ _ Hg)
    as (image0 & patches & sx & sy & pw & ph & E0 & Ep & ->).
  unfold get_frame_embeddings, getitem in Hg. rewrite E0 in Hg.
  cbn [bind] in Hg. rewrite Ep in Hg. cbn [bind] in Hg.
  inv_bind Hg as feats Ef. inv_bind Hg as w Ew. inv_bind Hg as h Eh.
  assert (w = new_w /\ h = new_h) as [-> ->] by (inversion Hg; auto).
  clear Hg Ef.
  apply frame_patches_Done in Ep.
  apply extract_patches_rect_facts in Ep
    as (_ & Hpw & Hph & _ & _ & Hsx & Hsy & Hsx0 & Hsy0 & Hnx & Hny & Hlen).
  assert (Hbx : (1 <= sx < 128)%Z)
    by (subst pw; apply (default_stride_bounds (im_width image0)); assumption).
  assert (Hby : (1 <= sy < 128)%Z)
    by (subst ph; apply (default_stride_bounds (im_height image0)); assumption).
  pose proof (grid_positions_count pw 128 sx ltac:(lia) Hnx) as Hcx.
  pose proof (grid_positions_count ph 128 sy ltac:(lia) Hny) as Hcy.
  unfold grid_dim, py_floordiv, FrameArgs.patch_size in Ew, Eh.
  destruct (Z.eqb_spec sx 0); [lia|]. destruct (Z.eqb_spec sy 0); [lia|].
  cbn [bind] in Ew, Eh. inversion Ew; inversion Eh; subst new_w new_h.
  destruct (range_elems 0 (pw - 128 + 1) sx); [contradiction|].
  destruct (range_elems 0 (ph - 128 + 1) sy); [contradiction|].
  cbn [length] in Hcx, Hcy. lia.
Qed.

Section MainFacts.
Variable image_transforms : image -> image.
Variable encode_image : image -> vec R.
Variable audio_embeddings : matrix R.
Variables logit_scale_ai logit_scale : R.

Let feature := patch_feature image_transforms encode_image.

(** What [main] returns, read off its steps: the logits are the inner
    products of the scaled audio (or text) rows with the patch features. *)
Lemma main_Done (images imgs : list image) (text_features : option (matrix R))
  (logits : matrix R) (new_w new_h : Z) (D : nat) :
  (forall p, length (encode_image p) = D) -> (1 <= D)%nat ->
  main image_transforms encode_image audio_embeddings logit_scale_ai
    logit_scale images text_features = Done (logits, new_w, new_h, imgs) ->
  exists (patches : list image) (s : R),
    patches <> [] /\
    Z.of_nat (length patches) = (new_w * new_h)%Z /\
    (1 <= new_w)%Z /\ (1 <= new_h)%Z /\
    1 <= s <= 100 /\
    logits
    = map (fun row => map (fun p => s * dot row (feature p)) patches)
        match text_features with
        | None => audio_embeddings
        | Some t => t
        end.
Proof.
  intros HD HD1 Hm. unfold main in Hm. inv_bind Hm as r Er.
  destruct r as [[[features w] h] ims]. cbv zeta in Hm.
  assert (Hl : new_w = w /\ new_h = h) by (inversion Hm; auto).
  destruct Hl as [-> ->].
  pose proof (get_frame_embeddings_grid _ _ _ _ _ _ _ Er) as [Hgrid _].
  pose proof (get_frame_embeddings_features _ _ _ _ _ _ _ Er)
    as (image0 & patches & sx & sy & pw & ph & E0 & Ep & Hf).
  assert (Hne : patches <> []).
  { apply frame_patches_Done, extract_patches_rect_Done in Ep
      as (_ & _ & _ & _ & _ & _ & _ & _ & Hne & _). exact Hne. }
  assert (Hshape : has_shape features (length patches) D).
  { subst features. split; [apply length_map|].
    apply Forall_forall. intros row Hrow.
    apply in_map_iff in Hrow as (p & <- & _).
    unfold patch_feature. rewrite length_map. apply HD. }
  assert (Hpos : (1 <= length patches)%nat)
    by (destruct patches; [contradiction | simpl; lia]).
  set (audio := match text_features with
                | None => audio_embeddings
                | Some t => t
                end) in *.
  exists patches,
    (match text_features with
     | None => clamp (exp logit_scale_ai) 1 100
     | Some _ => clamp (exp logit_scale) 1 100
     end).
  split; [exact Hne|]. split.
  { rewrite <- Hgrid. subst features. now rewrite length_map. }
  split; [exact (proj1 (get_frame_embeddings_grid_positive _ _ _ _ _ _ _ Er))|].
  split; [exact (proj2 (get_frame_embeddings_grid_positive _ _ _ _ _ _ _ Er))|].
  split.
  { destruct text_features; apply clamp_bounds; lra. }
  assert (Hlogits : forall s,
            matmul (scale s audio) (transpose features)
            = map (fun row => map (fun p => s * dot row (feature p)) patches)
                audio).
  { intros s.
    rewrite (matmul_transpose _ features (length patches) D Hshape Hpos HD1).
    unfold scale. rewrite map_map. apply map_ext. intros row.
    subst features. rewrite map_map. apply map_ext. intros p.
    cbn [smul Scalar_R]. apply dot_scale_l. }
  destruct text_features; rewrite Hlogits in Hm; now inversion Hm.
Qed.

(** On a video whose first frame can be cut into patches [main] returns. *)
Lemma main_runs (images : list image) (image0 : image)
  (text_features : option (matrix R)) :
  nth_error images 0 = Some image0 ->
  returns (frame_patches image0) ->
  exists logits new_w new_h,
    main image_transforms encode_image audio_embeddings logit_scale_ai
      logit_scale images text_features = Done (logits, new_w, new_h, images).
Proof.
  intros H0 (r & Hr). destruct r as [[[[patches sx] sy] pw] ph].
  pose proof (frame_patches_Done _ _ Hr) as He.
  pose proof (extract_patches_rect_Done _ _ _ _ _ _ _ _ _ He)
    as (_ & _ & _ & _ & _ & _ & _ & _ & Hne & _).
  pose proof (extract_patches_rect_facts _ _ _ _ _ _ _ _ _ He)
    as (_ & Hpw & Hph & _ & _ & Hsx & Hsy & Hsx0 & Hsy0 & Hnx & Hny & _).
  assert (Hbx : (1 <= sx < 128)%Z)
    by (subst pw; apply (default_stride_bounds (im_width image0)); assumption).
  assert (Hby : (1 <= sy < 128)%Z)
    by (subst ph; apply (default_stride_bounds (im_height image0)); assumption).
  unfold main, get_frame_embeddings, getitem. rewrite H0. cbn [bind].
  rewrite Hr. cbn [bind]. rewrite (embed_patches_map _ _ _ Hne). cbn [bind].
  unfold grid_dim, py_floordiv.
  destruct (Z.eqb_spec sx 0); [lia|]. destruct (Z.eqb_spec sy 0); [lia|].
  cbn [bind]. now eexists _, _, _.
Qed.

Lemma logits_rows_bounded (audio : matrix R) (patches : list image) (s : R)
  (n : Z) :
  (forall p, Exists (fun x => x <> 0) (encode_image p)) ->
  1 <= s <= 100 -> Z.of_nat (length patches) = n ->
  Forall2 (fun audio_row logits_row =>
             Z.of_nat (length logits_row) = n /\
             Forall (fun l => Rabs l <= 100 * norm audio_row) logits_row)
          audio
          (map (fun row => map (fun p => s * dot row (feature p)) patches)
             audio).
Proof.
  intros Hnz Hs Hn.
  induction audio as [|row audio IH]; cbn [map]; constructor; [|exact IH].
  split; [now rewrite length_map|].
  apply Forall_forall. intros l Hl.
  apply in_map_iff in Hl as (p & <- & _).
  assert (Hunit : norm (feature p) = 1).
  { unfold feature, patch_feature. apply norm_normalized, Hnz. }
  pose proof (dot_abs_le row (feature p)) as Hcs. rewrite Hunit in Hcs.
  assert (Hnorm : 0 <= norm row) by (unfold norm; apply sqrt_pos).
  rewrite Rabs_mult, (Rabs_right s) by lra.
  pose proof (Rabs_pos (dot row (feature p))). nra.
Qed.

(** X19. The logits of [main] have one row for each audio (or text) feature
    and one entry for each of the [new_w * new_h] patches of the first
    frame; as the patch features have unit norm and the scale is clamped to
    [1, 100], no logit exceeds 100 times the norm of its audio feature in
    absolute value. *)
Theorem main_logits_bounded (images imgs : list image)
  (text_features : option (matrix R)) (logits : matrix R) (new_w new_h : Z)
  (A D : nat) :
  (forall p, Exists (fun x => x <> 0) (encode_image p)) ->
  (forall p, length (encode_image p) = D) -> (1 <= D)%nat ->
  has_shape match text_features with
            | None => audio_embeddings
            | Some t => t
            end A D ->
  main image_transforms encode_image audio_embeddings logit_scale_ai
    logit_scale images text_features = Done (logits, new_w, new_h, imgs) ->
  length logits = A /\
  Forall2 (fun audio_row logits_row =>
             Z.of_nat (length logits_row) = (new_w * new_h)%Z /\
             Forall (fun l => Rabs l <= 100 * norm audio_row) logits_row)
          match text_features with
          | None => audio_embeddings
          | Some t => t
          end logits.
Proof.
  intros Hnz HD HD1 [HA _] Hm.
  destruct (main_Done _ _ _ _ _ _ D HD HD1 Hm)
    as (patches & s & Hne & Hgrid & _ & _ & Hs & ->).
  split; [now rewrite length_map|].
  destruct text_features; now apply logits_rows_bounded.
Qed.

(** X20. [show_heatmap] on what [main] returns: for an index of an audio
    feature the reshape of line 24 succeeds, and gives [new_w] rows of
    [new_h] entries, in which the entry in row [r] and column [c] is the
    logit of patch number [r * new_h + c]. *)
Theorem show_heatmap_grid (images imgs : list image)
  (text_features : option (matrix R)) (logits : matrix R) (new_w new_h : Z)
  (A D : nat) (index : nat) :
  (forall p, length (encode_image p) = D) -> (1 <= D)%nat ->
  has_shape match text_features with
            | None => audio_embeddings
            | Some t => t
            end A D ->
  main image_transforms encode_image audio_embeddings logit_scale_ai
    logit_scale images text_features = Done (logits, new_w, new_h, imgs) ->
  (index < A)%nat ->
  exists row grid,
    nth_error logits index = Some row /\
    show_heatmap_logits (Z.of_nat index) logits new_w new_h = Done grid /\
    Z.of_nat (length grid) = new_w /\
    forall r c : nat,
      (Z.of_nat r < new_w)%Z -> (Z.of_nat c < new_h)%Z ->
      exists grid_row x,
        nth_error grid r = Some grid_row /\
        Z.of_nat (length grid_row) = new_h /\
        nth_error grid_row c = Some x /\
        nth_error row (r * Z.to_nat new_h + c) = Some x.
Proof.
  intros HD HD1 [HA _] Hm Hidx.
  destruct (main_Done _ _ _ _ _ _ D HD HD1 Hm)
    as (patches & s & Hne & Hgrid & Hw & Hh & Hs & Hl).
  assert (Hlen : length logits = A) by (rewrite Hl; now rewrite length_map).
  destruct (nth_error logits index) as [row|] eqn:Erow;
    [|apply nth_error_None in Erow; lia].
  assert (Hrow : Z.of_nat (length row) = (new_w * new_h)%Z).
  { rewrite Hl in Erow. apply nth_error_In, in_map_iff in Erow
      as (arow & <- & _). now rewrite length_map. }
  unfold show_heatmap_logits. rewrite py_getitem_nat by lia.
  rewrite Nat2Z.id. unfold getitem. rewrite Erow. cbn [bind].
  unfold reshape, infer_shape. cbn [concat]. rewrite app_nil_r.
  destruct (Z.eqb_spec new_w (-1)); [lia|].
  destruct (Z.eqb_spec new_h (-1)); [lia|]. cbn [andb].
  destruct (Z.ltb_spec new_w 0); [lia|].
  destruct (Z.ltb_spec new_h 0); [lia|]. cbn [orb].
  destruct (Z.eqb_spec (new_w * new_h) (Z.of_nat (length row))); [|lia].
  cbn [bind].
  assert (Hnat : length row = (Z.to_nat new_w * Z.to_nat new_h)%nat) by nia.
  destruct (chunks_shape _ _ _ Hnat) as (Hrows & Hcols & _).
  exists row, (chunks (Z.to_nat new_w) (Z.to_nat new_h) row).
  split; [reflexivity|]. split; [reflexivity|].
  split; [rewrite Hrows; lia|].
  intros r c Hr Hc.
  destruct (chunks_entry (Z.to_nat new_w) (Z.to_nat new_h) r c row
              ltac:(lia) ltac:(lia) Hnat) as (grid_row & Hg & Hentry).
  assert (Hin : (r * Z.to_nat new_h + c < length row)%nat) by nia.
  destruct (nth_error row (r * Z.to_nat new_h + c)) as [x|] eqn:Ex;
    [|apply nth_error_None in Ex; lia].
  exists grid_row, x. split; [exact Hg|]. split; [|split; auto].
  rewrite Forall_forall in Hcols.
  rewrite (Hcols grid_row (nth_error_In _ _ Hg)). lia.
Qed.
End MainFacts.

Lemma size_encoder_nonzero :
  forall p, Exists (fun x => x <> 0) (size_encoder p).
Proof.
  intros p. unfold size_encoder. apply Exists_cons_tl, Exists_cons_hd. lra.
Qed.

Lemma along_shape : has_shape [along] 1 2.
Proof. split; [reflexivity | repeat constructor]. Qed.

(** The theorem on the video of the single frame [frame_129] and the audio
    feature [along]. *)
Lemma main_logits_bounded_witness :
  (forall p, Exists (fun x => x <> 0) (size_encoder p)) /\
  (forall p, length (size_encoder p) = 2%nat) /\ (1 <= 2)%nat /\
  has_shape [along] 1 2 /\
  exists logits new_w new_h,
    main no_transform size_encoder [along] 0 0 [frame_129] None
    = Done (logits, new_w, new_h, [frame_129]) /\
    length logits = 1%nat /\
    Forall2 (fun audio_row logits_row =>
               Z.of_nat (length logits_row) = (new_w * new_h)%Z /\
               Forall (fun l => Rabs l <= 100 * norm audio_row) logits_row)
            [along] logits.
Proof.
  split; [exact size_encoder_nonzero|]. split; [reflexivity|].
  split; [apply le_S, le_n|]. split; [exact along_shape|].
  destruct (main_runs no_transform size_encoder [along] 0 0 [frame_129]
              frame_129 None eq_refl frame_129_returns)
    as (logits & new_w & new_h & Hrun).
  exists logits, new_w, new_h. split; [exact Hrun|].
  exact (main_logits_bounded no_transform size_encoder [along] 0 0
           [frame_129] [frame_129] None logits new_w new_h 1 2
           size_encoder_nonzero (fun _ => eq_refl) (le_S _ _ (le_n 1))
           along_shape Hrun).
Defined.

(** The theorem on the video of the single frame [frame_129] and the audio
    feature [along], shown at index 0. *)
Lemma show_heatmap_grid_witness :
  (forall p, length (size_encoder p) = 2%nat) /\ (1 <= 2)%nat /\
  has_shape [along] 1 2 /\ (0 < 1)%nat /\
  exists logits new_w new_h,
    main no_transform size_encoder [along] 0 0 [frame_129] None
    = Done (logits, new_w, new_h, [frame_129]) /\
    exists row grid,
      nth_error logits 0 = Some row /\
      show_heatmap_logits (Z.of_nat 0) logits new_w new_h = Done grid /\
      Z.of_nat (length grid) = new_w /\
      forall r c : nat,
        (Z.of_nat r < new_w)%Z -> (Z.of_nat c < new_h)%Z ->
        exists grid_row x,
          nth_error grid r = Some grid_row /\
          Z.of_nat (length grid_row) = new_h /\
          nth_error grid_row c = Some x /\
          nth_error row (r * Z.to_nat new_h + c) = Some x.
Proof.
  split; [reflexivity|]. split; [apply le_S, le_n|].
  split; [exact along_shape|]. split; [apply le_n|].
  destruct (main_runs no_transform size_encoder [along] 0 0 [frame_129]
              frame_129 None eq_refl frame_129_returns)
    as (logits & new_w & new_h & Hrun).
  exists logits, new_w, new_h. split; [exact Hrun|].
  exact (show_heatmap_grid no_transform size_encoder [along] 0 0
           [frame_129] [frame_129] None logits new_w new_h 1 2 0
           (fun _ => eq_refl) (le_S _ _ (le_n 1)) along_shape Hrun (le_n 1)).
Defined.

Local Close Scope R_scope.
